(** * sphaira: storage abstraction (fs.cpp) and hash engine (hasher.cpp)

    A shallow embedding of the path policy, the dual-backend file-system
    operations, the file and directory handles, [AppendPath], the
    memory-backed source and the hash driving loop, followed by the
    properties established about them.

    Conventions.
    - [Result] is the platform's 32-bit result code; [0] is success and
      [R_FAILED rc] is [rc <> 0].
    - A path ([FsPath], a fixed-capacity NUL-terminated buffer) is
      represented by its contents, a [string], and the paths the
      operations build from one are taken to fit the capacity;
      [AppendPath], which is about the buffer itself, is modelled on
      buffers.
    - Every call into the native storage service or into libc is a
      constructor of [Call]; the environment answers it through [exec]
      and the call is appended to a trace.  "No I/O" therefore means: the
      world and the trace are unchanged. *)

From Stdlib Require Import ZArith List String Ascii Bool Lia Arith.
From Stdlib Require Import Init.Byte.
Import ListNotations.

Local Open Scope Z_scope.
Local Open Scope list_scope.

(** String concatenation, kept apart from list append. *)
Notation "s1 +:+ s2" := (String.append s1 s2)
  (at level 60, right associativity).

(* ------------------------------------------------------------------ *)
(** ** Result codes and the R_* macros *)

Definition Result := Z.

Definition R_FAILED (rc : Result) : bool := negb (rc =? 0).
Definition R_SUCCEEDED (rc : Result) : bool := rc =? 0.

(** libnx: [MAKERESULT(Module_Fs = 2, 2)], "path already exists". *)
Definition FsError_PathAlreadyExists : Result := 0x402.

(* ------------------------------------------------------------------ *)
(** ** Strings as the code uses them *)

Definition slash : ascii := "/"%char.
Definition colon : ascii := ":"%char.

(** [std::string_view::starts_with]: [p] is a prefix of [path]. *)
Fixpoint starts_with (path p : string) {struct p} : bool :=
  match p with
  | EmptyString => true
  | String c p' =>
      match path with
      | EmptyString => false
      | String d path' => Ascii.eqb d c && starts_with path' p'
      end
  end.

(** [strchr(s, c)]: index of the first occurrence of [c]. *)
Fixpoint strchr (s : string) (c : ascii) : option nat :=
  match s with
  | EmptyString => None
  | String d s' =>
      if Ascii.eqb d c then Some O
      else option_map S (strchr s' c)
  end.

(** [strrchr(s, c)]: index of the last occurrence of [c]. *)
Fixpoint strrchr (s : string) (c : ascii) : option nat :=
  match s with
  | EmptyString => None
  | String d s' =>
      match strrchr s' c with
      | Some i => Some (S i)
      | None => if Ascii.eqb d c then Some O else None
      end
  end.

(** Characters [0 .. n-1] of [s] (the ["%.*s"] conversion, [substr(0, n)]). *)
Fixpoint take (n : nat) (s : string) : string :=
  match n, s with
  | O, _ => EmptyString
  | _, EmptyString => EmptyString
  | S n', String c s' => String c (take n' s')
  end.

(** [substr(n)]: [s] without its first [n] characters. *)
Fixpoint drop (n : nat) (s : string) : string :=
  match n, s with
  | O, _ => s
  | _, EmptyString => EmptyString
  | S n', String _ s' => drop n' s'
  end.

(** Pieces of [s] between occurrences of [sep]; never the empty list. *)
Fixpoint split_on (sep : ascii) (s : string) : list string :=
  match s with
  | EmptyString => [EmptyString]
  | String c s' =>
      if Ascii.eqb c sep then EmptyString :: split_on sep s'
      else match split_on sep s' with
           | h :: t => String c h :: t
           | [] => [String c EmptyString]
           end
  end.

(** [std::views::split(view, sep)]: an empty view has no piece at all. *)
Definition views_split (s : string) (sep : ascii) : list string :=
  match s with
  | EmptyString => []
  | _ => split_on sep s
  end.

Definition is_empty (s : string) : bool :=
  match s with EmptyString => true | _ => false end.

(* ------------------------------------------------------------------ *)
(** ** PathPolicy (fs.cpp, anonymous namespace) *)

(** The two deny-lists.  The operations below take them through this
    class, so that a statement can also speak about an arbitrary policy;
    [sphaira_lists] further down is the pair of tables of fs.cpp. *)
Class DenyLists := {
  READONLY_ROOT_FOLDERS : list string;
  READONLY_FILES : list string
}.

Section PathPolicy.
Context {DL : DenyLists}.

Definition is_read_only_root (path : string) : bool :=
  existsb (fun p => starts_with path p) READONLY_ROOT_FOLDERS.

Definition is_read_only_file (path : string) : bool :=
  existsb (fun p => String.eqb path p) READONLY_FILES.

Definition is_read_only (path : string) : bool :=
  if is_read_only_root path then true
  else if is_read_only_file path then true
  else false.
End PathPolicy.

(** these folders and internals cannot be modified /
    these files and folders cannot be modified *)
#[global] Instance sphaira_lists : DenyLists := {|
  READONLY_ROOT_FOLDERS := [
    "/atmosphere/automatic_backups";
    "/bootloader/res";
    "/bootloader/sys";
    "/backup";
    "/Nintendo";
    "/Nintendo/Contents";
    "/Nintendo/save";
    "/emuMMC";
    "/warmboot_mariko" ]%string;
  READONLY_FILES := [
    "/";
    "/atmosphere";
    "/atmosphere/hbl.nsp";
    "/atmosphere/package3";
    "/atmosphere/reboot_payload.bin";
    "/atmosphere/stratosphere.romfs";
    "/bootloader";
    "/bootloader/hekate_ipl.ini";
    "/switch";
    "/hbmenu.nro";
    "/payload.bin";
    "/boot.dat";
    "/license.dat";
    "/switch/prod.keys";
    "/switch/title.keys";
    "/switch/reboot_to_payload.nro" ]%string
|}.

(* ------------------------------------------------------------------ *)
(** ** The environment: native storage service and libc *)

Definition FsFileSystem := Z.   (* a native file-system session *)
Definition FsFile := Z.         (* a native file session; 0 = not active *)
Definition FsDir := Z.          (* a native directory session; 0 = not active *)

(** libnx and newlib constants used by fs.cpp. *)
Definition FsCreateOption_BigFile : Z := 1.
Definition FsOpenMode_Read : Z := 1.
Definition FsOpenMode_Write : Z := 2.
Definition FsReadOption_None : Z := 0.
Definition FsWriteOption_None : Z := 0.
Definition FsDirOpenMode_ReadDirs : Z := 1.
Definition FsDirOpenMode_ReadFiles : Z := 2.
Definition FsDirEntryType_Dir : Z := 0.
Definition FsDirEntryType_File : Z := 1.
Definition O_WRONLY : Z := 1.
Definition O_CREAT : Z := 0x200.
Definition O_EXCL : Z := 0x800.
Definition DEFFILEMODE : Z := 438.   (* 0666 *)
Definition ACCESSPERMS : Z := 511.   (* 0777 *)
Definition EEXIST : Z := 17.
Definition ENOENT : Z := 2.
Definition ENOTDIR : Z := 20.
Definition EISDIR : Z := 21.
Definition SEEK_SET : Z := 0.
Definition SEEK_END : Z := 2.
Definition DT_UNKNOWN : Z := 0.
Definition DT_DIR : Z := 4.
Definition DT_REG : Z := 8.
Definition DT_LNK : Z := 10.
Definition S_IFMT : Z := 0xF000.     (* 0170000 *)
Definition S_IFDIR : Z := 0x4000.    (* 0040000 *)
Definition S_IFREG : Z := 0x8000.    (* 0100000 *)

Definition S_ISDIR (m : Z) : bool := Z.land m S_IFMT =? S_IFDIR.
Definition S_ISREG (m : Z) : bool := Z.land m S_IFMT =? S_IFREG.

(** [flag & mask] used as a condition. *)
Definition has_flag (flags mask : Z) : bool := negb (Z.land flags mask =? 0).

Record dirent := { d_name : string; d_type : Z }.

(** [FsDirectoryEntry], reduced to the fields fs.cpp writes. *)
Record FsDirectoryEntry := { name : string; type : Z }.

(** One constructor per external function fs.cpp calls; the index is
    what the call hands back (return value and out-parameters).  A
    pointer result ([FILE*], [DIR*]) is a number, 0 for the null pointer;
    [errno] after a failed [open] or [mkdir] is returned with it. *)
Inductive Call : Type -> Type :=
(* native storage service *)
| fsFsCreateFile (fs : FsFileSystem) (path : string) (size option : Z) : Call Result
| fsFsCommit (fs : FsFileSystem) : Call Result
| fsFsCreateDirectory (fs : FsFileSystem) (path : string) : Call Result
| fsFsDeleteFile (fs : FsFileSystem) (path : string) : Call Result
| fsFsDeleteDirectory (fs : FsFileSystem) (path : string) : Call Result
| fsFsDeleteDirectoryRecursively (fs : FsFileSystem) (path : string) : Call Result
| fsFsRenameFile (fs : FsFileSystem) (src dst : string) : Call Result
| fsFsRenameDirectory (fs : FsFileSystem) (src dst : string) : Call Result
| fsFsOpenFile (fs : FsFileSystem) (path : string) (mode : Z) : Call (Result * FsFile)
| fsFileRead (f : FsFile) (off read_size option : Z) : Call (Result * list byte)
| fsFileWrite (f : FsFile) (off : Z) (buf : list byte) (option : Z) : Call Result
| fsFileSetSize (f : FsFile) (sz : Z) : Call Result
| fsFileGetSize (f : FsFile) : Call (Result * Z)
| fsFileClose (f : FsFile) : Call unit
| fsDirRead (d : FsDir) (max_entries : Z) : Call (Result * list FsDirectoryEntry)
| fsDirGetEntryCount (d : FsDir) : Call (Result * Z)
(* libc *)
| open (path : string) (flags mode : Z) : Call (Z * Z)
| close (fd : Z) : Call Z
| ftruncate (fd size : Z) : Call Z
| mkdir (path : string) (mode : Z) : Call (Z * Z)
| unlink (path : string) : Call Z
| rmdir (path : string) : Call Z
| rename (src dst : string) : Call Z
| lstat (path : string) : Call (Z * Z)
| fstat (fd : Z) : Call (Z * Z)
| opendir (path : string) : Call Z
| readdir (dir : Z) : Call (option dirent)
| closedir (dir : Z) : Call Z
| fopen (path mode : string) : Call Z
| fclose (f : Z) : Call Z
| fseek (f off whence : Z) : Call Z
| ftell (f : Z) : Call Z
| rewind (f : Z) : Call unit
| fread (f size : Z) : Call (list byte)
| feof (f : Z) : Call Z
| ferror (f : Z) : Call Z
| fwrite (f : Z) (buf : list byte) : Call Z
| fileno (f : Z) : Call Z
| fsdevGetLastResult : Call Result.

Inductive Event : Type := Ev : forall A, Call A -> Event.
Arguments Ev {A} _.

(** What the code is run against: a world answering the calls, and the
    values of what defines.hpp and fs.hpp declare (neither is among the
    sources): the application's own result codes and the open result a
    wrapping [FsNative] reports. *)
Class Platform := {
  World : Type;
  exec : forall A, Call A -> World -> A * World;
  Result_FsReadOnly : Result;
  Result_FsUnknownStdioError : Result;
  Result_FsNotActive : Result;
  GetFsOpenResult : FsFileSystem -> Result
}.
Arguments exec {_ A} _ _.

(* ------------------------------------------------------------------ *)
(** ** A state monad over the world and the trace of calls *)

Section Monad.
Context {P : Platform}.

Definition State : Type := World * list Event.
Definition M (A : Type) : Type := State -> A * State.

Definition ret {A} (a : A) : M A := fun s => (a, s).

Definition bind {A B} (m : M A) (k : A -> M B) : M B :=
  fun s => let (a, s') := m s in k a s'.

Definition call {A} (c : Call A) : M A :=
  fun s => let (a, w') := exec c (fst s) in (a, (w', snd s ++ [Ev c])).

(** [R_TRY(e); k]: leave with the code of [e] when it failed. *)
Definition R_TRY (e : M Result) (k : M Result) : M Result :=
  bind e (fun rc => if R_FAILED rc then ret rc else k).

(** [R_UNLESS(cond, rc); k]. *)
Definition R_UNLESS (cond : bool) (rc : Result) (k : M Result) : M Result :=
  if cond then k else ret rc.

Definition R_SUCCEED : M Result := ret 0.
End Monad.

Notation "x <- c ;; k" := (bind c (fun x => k))
  (at level 61, c at next level, right associativity).
Notation "' pat <- c ;; k" := (bind c (fun x => match x with pat => k end))
  (at level 61, pat pattern, c at next level, right associativity).
Notation "c ;;; k" := (bind c (fun _ => k))
  (at level 61, right associativity).

(* ------------------------------------------------------------------ *)
(** ** Storage operations (fs.cpp)

    The overloads taking an [FsFileSystem*] carry the suffix [_native],
    the libc ones [_stdio]. *)

Section Fs.
Context {P : Platform} {DL : DenyLists}.

(** The pair [R_TRY(fsdevGetLastResult()); return Result_FsUnknownStdioError;]
    that follows every failed libc call. *)
Definition fsdev_error : M Result :=
  R_TRY (call fsdevGetLastResult) (ret Result_FsUnknownStdioError).

Definition CreateFile_native (fs : FsFileSystem) (path : string)
    (size option : Z) (ignore_read_only : bool) : M Result :=
  R_UNLESS (ignore_read_only || negb (is_read_only_root path)) Result_FsReadOnly (
    (* mark big file option if >= 4 GiB *)
    let option :=
      if 4 * 1024 * 1024 * 1024 <=? size
      then Z.lor option FsCreateOption_BigFile else option in
    R_TRY (call (fsFsCreateFile fs path size option)) (
    call (fsFsCommit fs) ;;;
    R_SUCCEED)).

Definition CreateDirectory_native (fs : FsFileSystem) (path : string)
    (ignore_read_only : bool) : M Result :=
  R_UNLESS (ignore_read_only || negb (is_read_only_root path)) Result_FsReadOnly (
    R_TRY (call (fsFsCreateDirectory fs path)) (
    call (fsFsCommit fs) ;;;
    R_SUCCEED)).

Definition CreateDirectory_stdio (path : string) (ignore_read_only : bool)
    : M Result :=
  R_UNLESS (ignore_read_only || negb (is_read_only_root path)) Result_FsReadOnly (
    '(r, errno) <- call (mkdir path ACCESSPERMS) ;;
    if negb (r =? 0) then
      if errno =? EEXIST then ret FsError_PathAlreadyExists
      else fsdev_error
    else R_SUCCEED).

(** [fs ? CreateDirectory(fs, path, ..) : CreateDirectory(path, ..)]. *)
Definition CreateDirectory_either (fs : option FsFileSystem) (path : string)
    (ignore_read_only : bool) : M Result :=
  match fs with
  | Some fs => CreateDirectory_native fs path ignore_read_only
  | None => CreateDirectory_stdio path ignore_read_only
  end.

(** The [for (dir : split(path_view, '/'))] loop; [path] is the buffer
    being extended. *)
Fixpoint CreateDirectoryRecursively_loop (fs : option FsFileSystem)
    (ignore_read_only : bool) (path : string) (dirs : list string)
    : M Result :=
  match dirs with
  | [] => R_SUCCEED
  | dir :: dirs' =>
      if is_empty dir then
        CreateDirectoryRecursively_loop fs ignore_read_only path dirs'
      else
        let path := path +:+ dir in
        rc <- CreateDirectory_either fs path ignore_read_only ;;
        if R_FAILED rc && negb (rc =? FsError_PathAlreadyExists) then ret rc
        else
          CreateDirectoryRecursively_loop fs ignore_read_only
            (path +:+ "/") dirs'
  end.

(** Start of the walk: the root marker and the view left to split. *)
Definition walk_start (_path : string) : string * string :=
  match strchr _path colon with
  | Some i =>
      let len := S i in
      (take len _path +:+ "/", drop len _path)
  | None => ("/"%string, _path)
  end.

Definition CreateDirectoryRecursively_native (fs : option FsFileSystem)
    (_path : string) (ignore_read_only : bool) : M Result :=
  R_UNLESS (ignore_read_only || negb (is_read_only_root _path)) Result_FsReadOnly (
    (* try and create the directory / see if it already exists before the loop. *)
    rc <- CreateDirectory_either fs _path ignore_read_only ;;
    if R_SUCCEEDED rc || (rc =? FsError_PathAlreadyExists) then R_SUCCEED
    else
      let '(path, path_view) := walk_start _path in
      CreateDirectoryRecursively_loop fs ignore_read_only path
        (views_split path_view slash)).

Definition CreateDirectoryRecursivelyWithPath_native
    (fs : option FsFileSystem) (_path : string) (ignore_read_only : bool)
    : M Result :=
  R_UNLESS (ignore_read_only || negb (is_read_only_root _path)) Result_FsReadOnly (
    (* strip file name form path. *)
    match strrchr _path slash with
    | None => R_SUCCEED
    | Some last_slash =>
        let new_path := take last_slash _path in
        R_TRY (CreateDirectoryRecursively_native fs new_path ignore_read_only)
          R_SUCCEED
    end).

Definition DeleteFile_native (fs : FsFileSystem) (path : string)
    (ignore_read_only : bool) : M Result :=
  R_UNLESS (ignore_read_only || negb (is_read_only path)) Result_FsReadOnly (
    R_TRY (call (fsFsDeleteFile fs path)) (
    call (fsFsCommit fs) ;;;
    R_SUCCEED)).

Definition DeleteDirectory_native (fs : FsFileSystem) (path : string)
    (ignore_read_only : bool) : M Result :=
  R_UNLESS (ignore_read_only || negb (is_read_only path)) Result_FsReadOnly (
    R_TRY (call (fsFsDeleteDirectory fs path)) (
    call (fsFsCommit fs) ;;;
    R_SUCCEED)).

Definition DeleteDirectoryRecursively_native (fs : FsFileSystem)
    (path : string) (ignore_read_only : bool) : M Result :=
  R_UNLESS (ignore_read_only || negb (is_read_only path)) Result_FsReadOnly (
    R_TRY (call (fsFsDeleteDirectoryRecursively fs path)) (
    call (fsFsCommit fs) ;;;
    R_SUCCEED)).

Definition RenameFile_native (fs : FsFileSystem) (src dst : string)
    (ignore_read_only : bool) : M Result :=
  R_UNLESS (ignore_read_only || negb (is_read_only src)) Result_FsReadOnly (
  R_UNLESS (ignore_read_only || negb (is_read_only dst)) Result_FsReadOnly (
    R_TRY (call (fsFsRenameFile fs src dst)) (
    call (fsFsCommit fs) ;;;
    R_SUCCEED))).

Definition RenameDirectory_native (fs : FsFileSystem) (src dst : string)
    (ignore_read_only : bool) : M Result :=
  R_UNLESS (ignore_read_only || negb (is_read_only src)) Result_FsReadOnly (
  R_UNLESS (ignore_read_only || negb (is_read_only dst)) Result_FsReadOnly (
    R_TRY (call (fsFsRenameDirectory fs src dst)) (
    call (fsFsCommit fs) ;;;
    R_SUCCEED))).

Definition CreateFile_stdio (path : string) (size option : Z)
    (ignore_read_only : bool) : M Result :=
  R_UNLESS (ignore_read_only || negb (is_read_only_root path)) Result_FsReadOnly (
    '(fd, errno) <- call (open path (Z.lor O_WRONLY O_CREAT) DEFFILEMODE) ;;
    if fd =? -1 then
      if errno =? EEXIST then ret FsError_PathAlreadyExists
      else fsdev_error
    else
      (* ON_SCOPE_EXIT(close(fd)) *)
      if negb (size =? 0) then
        r <- call (ftruncate fd size) ;;
        call (close fd) ;;;
        R_UNLESS (r =? 0) Result_FsUnknownStdioError R_SUCCEED
      else
        call (close fd) ;;;
        R_SUCCEED).

Definition CreateDirectoryRecursively_stdio (path : string)
    (ignore_read_only : bool) : M Result :=
  R_UNLESS (ignore_read_only || negb (is_read_only_root path)) Result_FsReadOnly (
    CreateDirectoryRecursively_native None path ignore_read_only).

Definition CreateDirectoryRecursivelyWithPath_stdio (path : string)
    (ignore_read_only : bool) : M Result :=
  R_UNLESS (ignore_read_only || negb (is_read_only_root path)) Result_FsReadOnly (
    CreateDirectoryRecursivelyWithPath_native None path ignore_read_only).

Definition DeleteFile_stdio (path : string) (ignore_read_only : bool)
    : M Result :=
  R_UNLESS (ignore_read_only || negb (is_read_only path)) Result_FsReadOnly (
    r <- call (unlink path) ;;
    if negb (r =? 0) then fsdev_error else R_SUCCEED).

Definition DeleteDirectory_stdio (path : string) (ignore_read_only : bool)
    : M Result :=
  R_UNLESS (ignore_read_only || negb (is_read_only path)) Result_FsReadOnly (
    r <- call (rmdir path) ;;
    if negb (r =? 0) then fsdev_error else R_SUCCEED).

Definition RenameFile_stdio (src dst : string) (ignore_read_only : bool)
    : M Result :=
  R_UNLESS (ignore_read_only || negb (is_read_only src)) Result_FsReadOnly (
  R_UNLESS (ignore_read_only || negb (is_read_only dst)) Result_FsReadOnly (
    r <- call (rename src dst) ;;
    if negb (r =? 0) then fsdev_error else R_SUCCEED)).

Definition RenameDirectory_stdio (src dst : string)
    (ignore_read_only : bool) : M Result :=
  R_UNLESS (ignore_read_only || negb (is_read_only src)) Result_FsReadOnly (
  R_UNLESS (ignore_read_only || negb (is_read_only dst)) Result_FsReadOnly (
    RenameFile_stdio src dst ignore_read_only)).
End Fs.

(* ------------------------------------------------------------------ *)
(** ** Recursive delete on the libc backend *)

Definition is_dot_or_dotdot (n : string) : bool :=
  String.eqb n "." || String.eqb n "..".

(** [child.back() != '/']. *)
Fixpoint ends_with_slash (s : string) : bool :=
  match s with
  | EmptyString => false
  | String c EmptyString => Ascii.eqb c slash
  | String _ s' => ends_with_slash s'
  end.

Definition child_path (path n : string) : string :=
  (if ends_with_slash path then path else path +:+ "/") +:+ n.

Section RecursiveDelete.
Context {P : Platform} {DL : DenyLists}.

(** The [while ((entry = readdir(dir)) != nullptr && result == 0)] loop
    of [remove_dir_recursive_impl]; [rec] is the function itself.  Each
    [readdir] costs one unit of fuel; [None] is "fuel exhausted". *)
Fixpoint remove_children (rec : string -> M (option Z)) (fuel : nat)
    (path : string) (dir : Z) (result : Z) : M (option Z) :=
  match fuel with
  | O => ret None
  | S fuel' =>
      entry <- call (readdir dir) ;;
      match entry with
      | None => ret (Some result)
      | Some e =>
          if negb (result =? 0) then ret (Some result)
          else if is_dot_or_dotdot (d_name e) then
            remove_children rec fuel' path dir result
          else
            let child := child_path path (d_name e) in
            (* If d_type is unknown, fall back to lstat. *)
            is_dir <-
              (if d_type e =? DT_DIR then ret true
               else if (d_type e =? DT_UNKNOWN) || (d_type e =? DT_LNK) then
                 '(r, st_mode) <- call (lstat child) ;;
                 ret ((r =? 0) && S_ISDIR st_mode)
               else ret false) ;;
            if is_dir : bool then
              r <- rec child ;;
              match r with
              | None => ret None
              | Some result' => remove_children rec fuel' path dir result'
              end
            else
              u <- call (unlink child) ;;
              remove_children rec fuel' path dir
                (if negb (u =? 0) then -1 else result)
      end
  end.

(** Returns 0 on success, -1 on error. *)
Fixpoint remove_dir_recursive_impl (fuel : nat) (path : string)
    : M (option Z) :=
  match fuel with
  | O => ret None
  | S fuel' =>
      '(r, st_mode) <- call (lstat path) ;;
      if negb (r =? 0) then ret (Some (-1))
      else if negb (S_ISDIR st_mode) then
        (* If it's not a directory, unlink it directly. *)
        u <- call (unlink path) ;;
        ret (Some (if negb (u =? 0) then -1 else 0))
      else
        dir <- call (opendir path) ;;
        if dir =? 0 then ret (Some (-1))
        else
          res <- remove_children (remove_dir_recursive_impl fuel') fuel'
                   path dir 0 ;;
          match res with
          | None => ret None
          | Some result =>
              call (closedir dir) ;;;
              if result =? 0 then
                rd <- call (rmdir path) ;;
                ret (Some (if negb (rd =? 0) then -1 else result))
              else ret (Some result)
          end
  end.

(** recursive delete implemented for stdio path *)
Definition DeleteDirectoryRecursively_stdio (fuel : nat) (path : string)
    (ignore_read_only : bool) : M (option Result) :=
  if ignore_read_only || negb (is_read_only path) then
    r <- remove_dir_recursive_impl fuel path ;;
    match r with
    | None => ret None
    | Some v =>
        if negb (v =? 0) then rc <- fsdev_error ;; ret (Some rc)
        else ret (Some 0)
    end
  else ret (Some Result_FsReadOnly).
End RecursiveDelete.

(* ------------------------------------------------------------------ *)
(** ** File handles *)

(** [fs::Fs] with its two implementations ([IsNative()] tells them
    apart) and the override flag it was built with. *)
Inductive Fs :=
| FsNative (m_fs : FsFileSystem) (m_ignore_read_only : bool)
| FsStdio (m_ignore_read_only : bool).

Definition IsNative (fs : Fs) : bool :=
  match fs with FsNative _ _ => true | FsStdio _ => false end.

Record File := mkFile {
  m_fs : option Fs;
  m_native : FsFile;
  m_stdio : Z;
  m_stdio_off : Z;
  m_mode : Z
}.

Definition File_default : File := mkFile None 0 0 0 0.

Definition serviceIsActive (h : Z) : bool := negb (h =? 0).

(** [std::vector::resize] and a write of [data] at the front of [out]. *)
Definition resize (n : nat) (l : list byte) : list byte :=
  firstn n l ++ repeat x00 (n - List.length l).
Definition write_front (data out : list byte) : list byte :=
  data ++ skipn (List.length data) out.

Section Handles.
Context {P : Platform} {DL : DenyLists}.

Definition OpenFile (fs : Fs) (path : string) (mode : Z) (f : File)
    : M (Result * File) :=
  let f := mkFile (Some fs) (m_native f) (m_stdio f) (m_stdio_off f) mode in
  match fs with
  | FsNative h _ =>
      '(rc, n) <- call (fsFsOpenFile h path mode) ;;
      let f := mkFile (m_fs f) n (m_stdio f) (m_stdio_off f) (m_mode f) in
      if R_FAILED rc then ret (rc, f) else ret (0, f)
  | FsStdio _ =>
      p <- (if has_flag mode FsOpenMode_Read && has_flag mode FsOpenMode_Write
            then call (fopen path "rb+")
            else if has_flag mode FsOpenMode_Read
            then call (fopen path "rb")
            else if has_flag mode FsOpenMode_Write
            (* not possible to open file with just write and not append
               or create or truncate. So rw it is! *)
            then call (fopen path "rb+")
            else ret (m_stdio f)) ;;
      let f := mkFile (m_fs f) (m_native f) p (m_stdio_off f) (m_mode f) in
      if p =? 0 then ret (Result_FsUnknownStdioError, f) else ret (0, f)
  end.

(** [File::Read]: the result code, the bytes placed in [buf],
    [*bytes_read], and the handle afterwards. *)
Definition File_Read (f : File) (off read_size option : Z)
    : M (Result * list byte * Z * File) :=
  match m_fs f with
  | None => ret (Result_FsNotActive, [], 0, f)
  | Some fs =>
      if IsNative fs then
        '(rc, buf) <- call (fsFileRead (m_native f) off read_size option) ;;
        let bytes_read := Z.of_nat (List.length buf) in
        if R_FAILED rc then ret (rc, buf, bytes_read, f)
        else ret (0, buf, bytes_read, f)
      else
        f <- (if negb (m_stdio_off f =? off) then
                call (fseek (m_stdio f) off SEEK_SET) ;;;
                ret (mkFile (m_fs f) (m_native f) (m_stdio f) off (m_mode f))
              else ret f) ;;
        buf <- call (fread (m_stdio f) read_size) ;;
        let bytes_read := Z.of_nat (List.length buf) in
        (* if we read less bytes than expected, check if there was an
           error (ignoring eof). *)
        failed <-
          (if bytes_read <? read_size then
             e <- call (feof (m_stdio f)) ;;
             if e =? 0 then
               r <- call (ferror (m_stdio f)) ;;
               ret (negb (r =? 0))
             else ret false
           else ret false) ;;
        if failed : bool then
          ret (Result_FsUnknownStdioError, buf, bytes_read, f)
        else
          ret (0, buf, bytes_read,
               mkFile (m_fs f) (m_native f) (m_stdio f)
                      (m_stdio_off f + bytes_read) (m_mode f))
  end.

Definition File_Write (f : File) (off : Z) (buf : list byte) (option : Z)
    : M (Result * File) :=
  let write_size := Z.of_nat (List.length buf) in
  match m_fs f with
  | None => ret (Result_FsNotActive, f)
  | Some fs =>
      if IsNative fs then
        rc <- call (fsFileWrite (m_native f) off buf option) ;;
        if R_FAILED rc then ret (rc, f) else ret (0, f)
      else
        f <- (if negb (m_stdio_off f =? off) then
                call (fseek (m_stdio f) off SEEK_SET) ;;;
                ret (mkFile (m_fs f) (m_native f) (m_stdio f) off (m_mode f))
              else ret f) ;;
        result <- call (fwrite (m_stdio f) buf) ;;
        if result =? write_size then
          ret (0, mkFile (m_fs f) (m_native f) (m_stdio f)
                         (m_stdio_off f + write_size) (m_mode f))
        else ret (Result_FsUnknownStdioError, f)
  end.

Definition File_SetSize (f : File) (sz : Z) : M Result :=
  match m_fs f with
  | None => ret Result_FsNotActive
  | Some fs =>
      if IsNative fs then
        R_TRY (call (fsFileSetSize (m_native f) sz)) R_SUCCEED
      else
        fd <- call (fileno (m_stdio f)) ;;
        R_UNLESS (0 <? fd) Result_FsUnknownStdioError (
          r <- call (ftruncate fd sz) ;;
          R_UNLESS (r =? 0) Result_FsUnknownStdioError R_SUCCEED)
  end.

Definition File_GetSize (f : File) : M (Result * Z) :=
  match m_fs f with
  | None => ret (Result_FsNotActive, 0)
  | Some fs =>
      if IsNative fs then
        '(rc, out) <- call (fsFileGetSize (m_native f)) ;;
        if R_FAILED rc then ret (rc, out) else ret (0, out)
      else
        fd <- call (fileno (m_stdio f)) ;;
        '(r, st_size) <- call (fstat fd) ;;
        if r =? 0 then ret (0, st_size)
        else ret (Result_FsUnknownStdioError, 0)
  end.

(** Modelled from the spec: [Fs::Commit] of fs.hpp, which is not among
    the sources; "closing a native-backend handle triggers a
    backend-level commit", and the libc backend has none. *)
Definition Fs_Commit (fs : Fs) : M unit :=
  match fs with
  | FsNative h _ => call (fsFsCommit h) ;;; ret tt
  | FsStdio _ => ret tt
  end.

(** [File::Close], also run by the destructor. *)
Definition File_Close (f : File) : M File :=
  match m_fs f with
  | None => ret f
  | Some fs =>
      if IsNative fs then
        if serviceIsActive (m_native f) then
          call (fsFileClose (m_native f)) ;;;
          (if has_flag (m_mode f) FsOpenMode_Write then Fs_Commit fs
           else ret tt) ;;;
          ret (mkFile (m_fs f) 0 (m_stdio f) (m_stdio_off f) (m_mode f))
        else ret f
      else
        if negb (m_stdio f =? 0) then
          call (fclose (m_stdio f)) ;;;
          ret (mkFile (m_fs f) (m_native f) 0 (m_stdio_off f) (m_mode f))
        else ret f
  end.
End Handles.

(* ------------------------------------------------------------------ *)
(** ** Whole-file operations *)

Section WholeFile.
Context {P : Platform} {DL : DenyLists}.

(** Modelled from the spec: [FsNative::CreateFile] of fs.hpp, which is
    not among the sources; the facade "applies PathPolicy before every
    mutating call" by forwarding to the free function with the flag the
    instance was built with. *)
Definition Fs_CreateFile (fs : Fs) (path : string) (size option : Z)
    : M Result :=
  match fs with
  | FsNative h ign => CreateFile_native h path size option ign
  | FsStdio ign => CreateFile_stdio path size option ign
  end.

(** Leave the scope of [File f]: the destructor closes it. *)
Definition leave {A} (f : File) (a : A) : M A :=
  File_Close f ;;; ret a.

Definition read_entire_file_native (_fs : FsFileSystem) (path : string)
    (out : list byte) : M (Result * list byte) :=
  let fs := FsNative _fs true in
  if R_FAILED (GetFsOpenResult _fs) then ret (GetFsOpenResult _fs, out)
  else
    '(rc, f) <- OpenFile fs path FsOpenMode_Read File_default ;;
    if R_FAILED rc then leave f (rc, out)
    else
      '(rc, size) <- File_GetSize f ;;
      if R_FAILED rc then leave f (rc, out)
      else if size <? 0 then leave f (Result_FsUnknownStdioError, out)
      else
        let out := resize (Z.to_nat size) out in
        let out_size := Z.of_nat (List.length out) in
        '(rc, buf, bytes_read, f) <-
          File_Read f 0 out_size FsReadOption_None ;;
        let out := write_front buf out in
        if R_FAILED rc then leave f (rc, out)
        else if negb (bytes_read =? out_size) then leave f (1, out)
        else leave f (0, out).

Definition write_entire_file_native (_fs : FsFileSystem) (path : string)
    (input : list byte) (ignore_read_only : bool) : M Result :=
  R_UNLESS (ignore_read_only || negb (is_read_only path)) Result_FsReadOnly (
    let fs := FsNative _fs ignore_read_only in
    let size := Z.of_nat (List.length input) in
    if R_FAILED (GetFsOpenResult _fs) then ret (GetFsOpenResult _fs)
    else
      rc <- Fs_CreateFile fs path size 0 ;;
      if R_FAILED rc && negb (rc =? FsError_PathAlreadyExists) then ret rc
      else
        '(rc, f) <- OpenFile fs path FsOpenMode_Write File_default ;;
        if R_FAILED rc then leave f rc
        else
          rc <- File_SetSize f size ;;
          if R_FAILED rc then leave f rc
          else
            '(rc, f) <- File_Write f 0 input FsWriteOption_None ;;
            if R_FAILED rc then leave f rc
            else leave f 0).

Definition copy_entire_file_native (fs : FsFileSystem) (dst src : string)
    (ignore_read_only : bool) : M Result :=
  R_UNLESS (ignore_read_only || negb (is_read_only dst)) Result_FsReadOnly (
    '(rc, data) <- read_entire_file_native fs src [] ;;
    if R_FAILED rc then ret rc
    else write_entire_file_native fs dst data ignore_read_only).

(** [ON_SCOPE_EXIT(std::fclose(f))] on the way out. *)
Definition closing {A} (f : Z) (m : M A) : M A :=
  a <- m ;; call (fclose f) ;;; ret a.

Definition read_entire_file_stdio (path : string) (out : list byte)
    : M (Result * list byte) :=
  f <- call (fopen path "rb") ;;
  if f =? 0 then rc <- fsdev_error ;; ret (rc, out)
  else closing f (
    sk <- call (fseek f 0 SEEK_END) ;;
    if negb (sk =? 0) then rc <- fsdev_error ;; ret (rc, out)
    else
      pos <- call (ftell f) ;;
      if pos <? 0 then rc <- fsdev_error ;; ret (rc, out)
      else
        let size := Z.to_nat pos in
        call (rewind f) ;;;
        let out := resize size out in
        let out_size := List.length out in
        buf <- call (fread f (Z.of_nat out_size)) ;;
        let read := List.length buf in
        let out := write_front buf out in
        if negb (Nat.eqb read out_size) then
          fe <- call (ferror f) ;;
          if negb (fe =? 0) then rc <- fsdev_error ;; ret (rc, out)
          else
            (* partial read due to EOF is tolerated but should resize
               their vector *)
            ret (0, resize read out)
        else ret (0, out)).

Definition write_entire_file_stdio (path : string) (input : list byte)
    (ignore_read_only : bool) : M Result :=
  R_UNLESS (ignore_read_only || negb (is_read_only path)) Result_FsReadOnly (
    f <- call (fopen path "wb") ;;
    if f =? 0 then fsdev_error
    else closing f (
      written <- call (fwrite f input) ;;
      if negb (written =? Z.of_nat (List.length input)) then fsdev_error
      else R_SUCCEED)).

Definition copy_entire_file_stdio (dst src : string)
    (ignore_read_only : bool) : M Result :=
  R_UNLESS (ignore_read_only || negb (is_read_only dst)) Result_FsReadOnly (
    '(rc, data) <- read_entire_file_stdio src [] ;;
    if R_FAILED rc then ret rc
    else write_entire_file_stdio dst data ignore_read_only).
End WholeFile.

(* ------------------------------------------------------------------ *)
(** ** Directory handles *)

Record Dir := mkDir {
  dir_fs : option Fs;      (* m_fs *)
  dir_native : FsDir;      (* m_native *)
  dir_stdio : Z;           (* m_stdio, a DIR* *)
  dir_mode : Z             (* m_mode *)
}.

Section DirHandles.
Context {P : Platform}.

(** The libc branch of [Dir::Read]: one [readdir] per unit of fuel;
    [buf] holds the [*total_entries] entries stored so far. *)
Fixpoint Dir_Read_stdio (fuel : nat) (d : Dir) (max_entries : Z)
    (buf : list FsDirectoryEntry) : M (option (list FsDirectoryEntry)) :=
  match fuel with
  | O => ret None
  | S fuel' =>
      e <- call (readdir (dir_stdio d)) ;;
      match e with
      | None => ret (Some buf)
      | Some de =>
          let store (ty : Z) :=
            let buf := buf ++ [{| name := d_name de; type := ty |}] in
            if max_entries <=? Z.of_nat (List.length buf) then ret (Some buf)
            else Dir_Read_stdio fuel' d max_entries buf in
          if is_dot_or_dotdot (d_name de) then
            Dir_Read_stdio fuel' d max_entries buf
          else if d_type de =? DT_DIR then
            if negb (has_flag (dir_mode d) FsDirOpenMode_ReadDirs) then
              Dir_Read_stdio fuel' d max_entries buf
            else store FsDirEntryType_Dir
          else if d_type de =? DT_REG then
            if negb (has_flag (dir_mode d) FsDirOpenMode_ReadFiles) then
              Dir_Read_stdio fuel' d max_entries buf
            else store FsDirEntryType_File
          else
            (* We don't have full path here easily; fall back to
               treating it as file *)
            store FsDirEntryType_File
      end
  end.

Definition Dir_Read (fuel : nat) (d : Dir) (max_entries : Z)
    : M (option (Result * list FsDirectoryEntry)) :=
  match dir_fs d with
  | None => ret (Some (Result_FsNotActive, []))
  | Some fs =>
      if IsNative fs then
        '(rc, buf) <- call (fsDirRead (dir_native d) max_entries) ;;
        ret (Some (rc, buf))
      else
        r <- Dir_Read_stdio fuel d max_entries [] ;;
        ret (option_map (fun buf => (0, buf)) r)
  end.

(** The libc branch of [Dir::ReadAll]. *)
Fixpoint Dir_ReadAll_stdio (fuel : nat) (d : Dir)
    (buf : list FsDirectoryEntry) : M (option (list FsDirectoryEntry)) :=
  match fuel with
  | O => ret None
  | S fuel' =>
      e <- call (readdir (dir_stdio d)) ;;
      match e with
      | None => ret (Some buf)
      | Some de =>
          if is_dot_or_dotdot (d_name de) then
            Dir_ReadAll_stdio fuel' d buf
          else if d_type de =? DT_DIR then
            if negb (has_flag (dir_mode d) FsDirOpenMode_ReadDirs) then
              Dir_ReadAll_stdio fuel' d buf
            else
              Dir_ReadAll_stdio fuel' d
                (buf ++ [{| name := d_name de; type := FsDirEntryType_Dir |}])
          else if d_type de =? DT_REG then
            if negb (has_flag (dir_mode d) FsDirOpenMode_ReadFiles) then
              Dir_ReadAll_stdio fuel' d buf
            else
              Dir_ReadAll_stdio fuel' d
                (buf ++ [{| name := d_name de; type := FsDirEntryType_File |}])
          else
            (* unknown type: logged, then [continue] *)
            Dir_ReadAll_stdio fuel' d buf
      end
  end.

Definition Dir_ReadAll (fuel : nat) (d : Dir)
    : M (option (Result * list FsDirectoryEntry)) :=
  match dir_fs d with
  | None => ret (Some (Result_FsNotActive, []))
  | Some fs =>
      if IsNative fs then
        '(rc, count) <- call (fsDirGetEntryCount (dir_native d)) ;;
        if R_FAILED rc then ret (Some (rc, []))
        else
          '(rc, buf) <- call (fsDirRead (dir_native d) count) ;;
          if R_FAILED rc then ret (Some (rc, buf))
          else ret (Some (0, buf))
      else
        r <- Dir_ReadAll_stdio fuel d [] ;;
        ret (option_map (fun buf => (0, buf)) r)
  end.
End DirHandles.

(* ------------------------------------------------------------------ *)
(** ** AppendPath, on the path buffers themselves *)

(** libnx: [#define FS_MAX_PATH 0x301]; an [FsPath] is [char s[FS_MAX_PATH]]. *)
Definition FS_MAX_PATH : nat := 769.

Definition NUL : ascii := Ascii.zero.

(** The C string held in a buffer: its characters before the first NUL. *)
Fixpoint c_str (buf : list ascii) : string :=
  match buf with
  | [] => EmptyString
  | c :: buf' => if Ascii.eqb c NUL then EmptyString else String c (c_str buf')
  end.

(** [snprintf(dst, size, ...)] where [text] is the expanded format: at
    most [size - 1] characters are stored, then a NUL. *)
Definition snprintf (dst : list ascii) (size : nat) (text : string)
    : list ascii :=
  match size with
  | O => dst
  | S m =>
      let t := list_ascii_of_string (take m text) in
      t ++ NUL :: skipn (S (List.length t)) dst
  end.

(** [while (file_path[0] == '/') file_path++;] *)
Fixpoint strip_leading_slashes (s : string) : string :=
  match s with
  | String c s' => if Ascii.eqb c slash then strip_leading_slashes s' else s
  | EmptyString => EmptyString
  end.

Definition AppendPath (root_path _file_path : list ascii) : list ascii :=
  (* strip leading '/' in file path. *)
  let file_path := strip_leading_slashes (c_str _file_path) in
  let path := repeat NUL FS_MAX_PATH in
  let root := c_str root_path in
  let root_len := String.length root in
  if Nat.eqb root_len 0 then
    snprintf path FS_MAX_PATH file_path
  else if negb (ends_with_slash root) then
    snprintf path FS_MAX_PATH (root +:+ "/" +:+ file_path)
  else
    snprintf path FS_MAX_PATH (root +:+ file_path).

(** A buffer holding [s], as the constructor of [FsPath] from a C string
    leaves it. *)
Definition FsPath_of (s : string) : list ascii :=
  snprintf (repeat NUL FS_MAX_PATH) FS_MAX_PATH s.

(* ------------------------------------------------------------------ *)
(** ** hasher.cpp *)

Definition to_u64 (z : Z) : Z := z mod 2 ^ 64.
Definition to_s64 (z : Z) : Z := (z + 2 ^ 63) mod 2 ^ 64 - 2 ^ 63.

(** [MemSource::Read] over the span [m_data]: the result code, the bytes
    [memcpy] places in [buf], and what is stored through [bytes_read]
    when that pointer is not null.  A [memcpy] count past the end of the
    span reads out of bounds in C; the model stops at the end of the
    span.  That happens only for a negative [size] at an offset inside
    the span, where the count is [(size_t)size]; what the model copies
    there is not the behaviour of the code, only the count is. *)
Definition MemSource_Read (m_data : list byte) (off size : Z)
    (bytes_read : bool) : Result * list byte * option Z :=
  let report (n : Z) := if bytes_read then Some n else None in
  if off <? 0 then (0, [], report 0)
  else
    let avail := to_s64 (to_s64 (Z.of_nat (List.length m_data)) - off) in
    if avail <=? 0 then (0, [], report 0)
    else
      let to_read := Z.min size avail in
      (0,
       firstn (Z.to_nat (to_u64 to_read)) (skipn (Z.to_nat off) m_data),
       report (to_u64 to_read)).

Definition MemSource_Size (m_data : list byte) : Result * Z :=
  (0, to_s64 (Z.of_nat (List.length m_data))).

(** [BaseSource]: a source with some internal state. *)
Class BaseSource (S : Type) := {
  Size : S -> (Result * Z) * S;
  Read : Z -> Z -> S -> (Result * list byte * Z) * S
}.

#[global] Instance MemSource : BaseSource (list byte) := {|
  Size := fun m => (MemSource_Size m, m);
  Read := fun off size m =>
    let '(rc, buf, br) := MemSource_Read m off size true in
    ((rc, buf, match br with Some n => n | None => 0 end), m)
|}.

(** [HashSource]: an accumulator with [Update] and the finalize step [Get]. *)
Class HashSource (H : Type) := {
  Update : list byte -> Z -> H -> H;
  Get : H -> string
}.

(** What a run of [Hash] did, in order. *)
Inductive HashEvent :=
| EvSize
| EvRead (off size : Z)
| EvUpdate (size : Z)
| EvGet.

(** [thread::Transfer] (threaded_file_transfer.hpp) is not among the
    sources.  All it is given are the two callbacks, so one run of it is
    a strategy: a final result code, or a call of the read or of the
    write callback followed by what it does with the answer. *)
Inductive TransferPlan :=
| TDone (rc : Result)
| TRead (off size : Z) (k : Result -> list byte -> Z -> TransferPlan)
| TWrite (data : list byte) (off size : Z) (k : Result -> TransferPlan).

Record HashState (S H : Type) := mkHashState {
  hs_source : S;
  hs_hash : H;
  hs_out : string;
  hs_log : list HashEvent
}.
Arguments mkHashState {S H}.
Arguments hs_source {S H}.
Arguments hs_hash {S H}.
Arguments hs_out {S H}.
Arguments hs_log {S H}.

Section Hash.
Context {S H ProgressBox : Type} {BS : BaseSource S} {HS : HashSource H}.
Variable Transfer : ProgressBox -> Z -> TransferPlan.

(** Running a transfer with the two lambdas of [Hash] as callbacks. *)
Fixpoint run_transfer (p : TransferPlan) (st : HashState S H)
    : Result * HashState S H :=
  match p with
  | TDone rc => (rc, st)
  | TRead off size k =>
      (* return source->Read(data, off, size, bytes_read); *)
      let '((rc, data, bytes_read), src) := Read off size (hs_source st) in
      run_transfer (k rc data bytes_read)
        (mkHashState src (hs_hash st) (hs_out st)
           (hs_log st ++ [EvRead off size]))
  | TWrite data off size k =>
      (* hash->Update(data, size); R_SUCCEED(); *)
      run_transfer (k 0)
        (mkHashState (hs_source st) (Update data size (hs_hash st))
           (hs_out st) (hs_log st ++ [EvUpdate size]))
  end.

Definition Hash (pbox : ProgressBox) (st : HashState S H)
    : Result * HashState S H :=
  let '((rc, file_size), src) := Size (hs_source st) in
  let st := mkHashState src (hs_hash st) (hs_out st)
              (hs_log st ++ [EvSize]) in
  if R_FAILED rc then (rc, st)
  else
    let '(rc, st) := run_transfer (Transfer pbox file_size) st in
    if R_FAILED rc then (rc, st)
    else
      (0, mkHashState (hs_source st) (hs_hash st) (Get (hs_hash st))
            (hs_log st ++ [EvGet])).
End Hash.

(** Modelled from the spec: the driving loop of [thread::Transfer], which
    is not among the sources: "repeatedly pull fixed-size chunks from
    [source.Read] at increasing offsets, feeding each chunk to
    [algorithm.Update], until the cumulative offset reaches the size or a
    read returns zero bytes with no error"; the loop "consults an
    externally owned cancellation flag before pulling the next chunk".
    [stop_after] is the number of chunks after which the flag is found
    set ([None]: never), [cancelled] the code reported then. *)
Fixpoint chunked_transfer (chunks : nat) (chunk_size : Z) (cancelled : Result)
    (stop_after : option nat) (off size : Z) : TransferPlan :=
  match chunks with
  | O => TDone 0
  | Datatypes.S chunks' =>
      if size <=? off then TDone 0
      else
        match stop_after with
        | Some O => TDone cancelled
        | _ =>
            TRead off (Z.min chunk_size (size - off)) (fun rc data bytes_read =>
              if R_FAILED rc then TDone rc
              else if bytes_read =? 0 then TDone 0
              else
                TWrite data off bytes_read (fun rc =>
                  if R_FAILED rc then TDone rc
                  else
                    chunked_transfer chunks' chunk_size cancelled
                      (option_map Nat.pred stop_after)
                      (off + bytes_read) size))
        end
  end.

(* ------------------------------------------------------------------ *)
(** ** MemFs: an in-memory world

    A small model of the storage both backends sit on, used to run the
    operations on concrete trees: a table of nodes keyed by device and
    path components, descriptors, [FILE] and [DIR] streams.  libc calls
    fail with [errno]; the native calls fail with the service's codes. *)

Module MemFs.

Inductive node :=
| NDir
| NFile (content : list byte).

(** A resolved path: the device (up to and including its colon, or
    empty) followed by the non-empty components. *)
Definition key := list string.

Fixpoint key_eqb (a b : key) : bool :=
  match a, b with
  | [], [] => true
  | x :: a', y :: b' => String.eqb x y && key_eqb a' b'
  | _, _ => false
  end.

Record stream := mkStream {
  s_key : key;
  s_pos : nat;
  s_eof : bool;
  s_err : bool
}.

Record t := mk {
  nodes : list (key * node);
  fds : list (Z * key);              (* descriptors and native sessions *)
  files : list (Z * stream);         (* FILE streams *)
  dirs : list (Z * list dirent);     (* DIR streams: entries left *)
  next_handle : Z;
  last_result : Result;              (* what fsdevGetLastResult reports *)
  reports_d_type : bool;             (* does readdir fill in d_type *)
  io_fault : bool                    (* do stream reads fail *)
}.

Definition empty : t := mk [] [] [] [] 3 0 true false.

Definition with_nodes (s : t) (n : list (key * node)) : t :=
  mk n (fds s) (files s) (dirs s) (next_handle s) (last_result s)
     (reports_d_type s) (io_fault s).
Definition with_last (s : t) (rc : Result) : t :=
  mk (nodes s) (fds s) (files s) (dirs s) (next_handle s) rc
     (reports_d_type s) (io_fault s).
Definition with_fds (s : t) (l : list (Z * key)) : t :=
  mk (nodes s) l (files s) (dirs s) (next_handle s) (last_result s)
     (reports_d_type s) (io_fault s).
Definition with_files (s : t) (l : list (Z * stream)) : t :=
  mk (nodes s) (fds s) l (dirs s) (next_handle s) (last_result s)
     (reports_d_type s) (io_fault s).
Definition with_dirs (s : t) (l : list (Z * list dirent)) : t :=
  mk (nodes s) (fds s) (files s) l (next_handle s) (last_result s)
     (reports_d_type s) (io_fault s).
Definition fresh (s : t) : Z * t :=
  (next_handle s,
   mk (nodes s) (fds s) (files s) (dirs s) (next_handle s + 1)
      (last_result s) (reports_d_type s) (io_fault s)).

Fixpoint lookup (k : key) (l : list (key * node)) : option node :=
  match l with
  | [] => None
  | (k', n) :: l' => if key_eqb k k' then Some n else lookup k l'
  end.

Definition remove (k : key) (l : list (key * node)) : list (key * node) :=
  filter (fun e => negb (key_eqb k (fst e))) l.

Fixpoint zlookup {A} (h : Z) (l : list (Z * A)) : option A :=
  match l with
  | [] => None
  | (h', a) :: l' => if h =? h' then Some a else zlookup h l'
  end.

Definition zremove {A} (h : Z) (l : list (Z * A)) : list (Z * A) :=
  filter (fun e => negb (h =? fst e)) l.

Definition split_device (path : string) : string * string :=
  match strchr path colon with
  | Some i => (take (S i) path, drop (S i) path)
  | None => (EmptyString, path)
  end.

Definition components (s : string) : list string :=
  filter (fun c => negb (is_empty c)) (split_on slash s).

Definition resolve (path : string) : key :=
  let (dev, rest) := split_device path in
  dev :: components rest.

(** The root of a device always exists, as a directory. *)
Definition node_at (k : key) (s : t) : option node :=
  match k with
  | [] => None
  | [_] => Some NDir
  | _ => lookup k (nodes s)
  end.

Definition parent (k : key) : key := removelast k.

(** Creating [path] as node [n]: 0, or the [errno] of the failure. *)
Definition create (path : string) (n : node) (s : t) : Z * t :=
  if is_empty path then (ENOENT, s)
  else
    let k := resolve path in
    match node_at k s with
    | Some _ => (EEXIST, s)
    | None =>
        match node_at (parent k) s with
        | Some NDir => (0, with_nodes s ((k, n) :: nodes s))
        | Some (NFile _) => (ENOTDIR, s)
        | None => (ENOENT, s)
        end
    end.

(** The storage service's code for an [errno]
    (path not found: 0x202, path already exists: 0x402). *)
Definition service_code (errno : Z) : Result :=
  if errno =? 0 then 0
  else if errno =? EEXIST then 0x402
  else 0x202.

(** A failed libc call: -1, [errno], and the code is remembered. *)
Definition libc_result (r : Z * t) : (Z * Z) * t :=
  let (errno, s) := r in
  if errno =? 0 then ((0, 0), s)
  else ((-1, errno), with_last s (service_code errno)).

Definition set_content (k : key) (c : list byte) (s : t) : t :=
  with_nodes s ((k, NFile c) :: remove k (nodes s)).

Definition content_of (k : key) (s : t) : list byte :=
  match lookup k (nodes s) with
  | Some (NFile c) => c
  | _ => []
  end.

Definition has_children (k : key) (s : t) : bool :=
  existsb (fun e => key_eqb (parent (fst e)) k) (nodes s).

Definition entries_of (k : key) (s : t) : list dirent :=
  flat_map (fun e =>
    if key_eqb (parent (fst e)) k then
      [{| d_name := last (fst e) EmptyString;
          d_type := if reports_d_type s then
                      match snd e with NDir => DT_DIR | NFile _ => DT_REG end
                    else DT_UNKNOWN |}]
    else []) (nodes s).

Definition open_file (path : string) (flags : Z) (s : t) : (Z * Z) * t :=
  if is_empty path then libc_result (ENOENT, s)
  else
    let k := resolve path in
    match node_at k s with
    | Some NDir => libc_result (EISDIR, s)
    | Some (NFile _) =>
        if has_flag flags O_CREAT && has_flag flags O_EXCL
        then libc_result (EEXIST, s)
        else let (fd, s) := fresh s in
             ((fd, 0), with_fds s ((fd, k) :: fds s))
    | None =>
        if has_flag flags O_CREAT then
          let (errno, s) := create path (NFile []) s in
          if errno =? 0 then
            let (fd, s) := fresh s in
            ((fd, 0), with_fds s ((fd, k) :: fds s))
          else libc_result (errno, s)
        else libc_result (ENOENT, s)
    end.

Definition fopen_file (path mode : string) (s : t) : Z * t :=
  if is_empty path then (0, s)
  else
    let k := resolve path in
    let start (s : t) :=
      let (h, s) := fresh s in
      (h, with_files (with_fds s ((h, k) :: fds s))
            ((h, mkStream k 0 false false) :: files s)) in
    match node_at k s with
    | Some NDir => (0, s)
    | Some (NFile _) =>
        if String.eqb mode "wb" then start (set_content k [] s) else start s
    | None =>
        if String.eqb mode "wb" then
          let (errno, s) := create path (NFile []) s in
          if errno =? 0 then start s else (0, s)
        else (0, s)
    end.

Definition update_stream (h : Z) (st : stream) (s : t) : t :=
  with_files s ((h, st) :: zremove h (files s)).

Definition exec (A : Type) (c : Call A) (s : t) : A * t :=
  match c in Call A return A * t with
  | fsFsCreateFile _ path size _ =>
      let (errno, s) := create path (NFile (repeat x00 (Z.to_nat size))) s in
      (service_code errno, s)
  | fsFsCommit _ => (0, s)
  | fsFsCreateDirectory _ path =>
      let (errno, s) := create path NDir s in (service_code errno, s)
  | fsFsDeleteFile _ path =>
      match node_at (resolve path) s with
      | Some (NFile _) => (0, with_nodes s (remove (resolve path) (nodes s)))
      | _ => (0x202, s)
      end
  | fsFsDeleteDirectory _ path =>
      match lookup (resolve path) (nodes s) with
      | Some NDir =>
          if has_children (resolve path) s then (0x1002, s)
          else (0, with_nodes s (remove (resolve path) (nodes s)))
      | _ => (0x202, s)
      end
  | fsFsDeleteDirectoryRecursively _ _ => (0x202, s)
  | fsFsRenameFile _ _ _ => (0x202, s)
  | fsFsRenameDirectory _ _ _ => (0x202, s)
  | fsFsOpenFile _ path _ =>
      match node_at (resolve path) s with
      | Some (NFile _) =>
          let (h, s) := fresh s in
          ((0, h), with_fds s ((h, resolve path) :: fds s))
      | _ => ((0x202, 0), s)
      end
  | fsFileRead f off read_size _ =>
      match zlookup f (fds s) with
      | Some k =>
          ((0, firstn (Z.to_nat read_size)
                 (skipn (Z.to_nat off) (content_of k s))), s)
      | None => ((0x202, []), s)
      end
  | fsFileWrite f off buf _ =>
      match zlookup f (fds s) with
      | Some k =>
          let c := content_of k s in
          let pre := resize (Z.to_nat off) c in
          (0, set_content k
                (pre ++ buf ++ skipn (List.length pre + List.length buf) c) s)
      | None => (0x202, s)
      end
  | fsFileSetSize f sz =>
      match zlookup f (fds s) with
      | Some k => (0, set_content k (resize (Z.to_nat sz) (content_of k s)) s)
      | None => (0x202, s)
      end
  | fsFileGetSize f =>
      match zlookup f (fds s) with
      | Some k => ((0, Z.of_nat (List.length (content_of k s))), s)
      | None => ((0x202, 0), s)
      end
  | fsFileClose f => (tt, with_fds s (zremove f (fds s)))
  | fsDirRead _ _ => ((0x202, []), s)
  | fsDirGetEntryCount _ => ((0x202, 0), s)
  | open path flags _ => open_file path flags s
  | close fd => (0, with_fds s (zremove fd (fds s)))
  | ftruncate fd size =>
      match zlookup fd (fds s) with
      | Some k => (0, set_content k (resize (Z.to_nat size) (content_of k s)) s)
      | None => (-1, s)
      end
  | mkdir path _ => libc_result (create path NDir s)
  | unlink path =>
      match node_at (resolve path) s with
      | Some (NFile _) => (0, with_nodes s (remove (resolve path) (nodes s)))
      | _ => (-1, with_last s 0x202)
      end
  | rmdir path =>
      match lookup (resolve path) (nodes s) with
      | Some NDir =>
          if has_children (resolve path) s then (-1, with_last s 0x1002)
          else (0, with_nodes s (remove (resolve path) (nodes s)))
      | _ => (-1, with_last s 0x202)
      end
  | rename _ _ => (-1, with_last s 0x202)
  | lstat path =>
      match node_at (resolve path) s with
      | Some NDir => ((0, S_IFDIR), s)
      | Some (NFile _) => ((0, S_IFREG), s)
      | None => ((-1, 0), with_last s 0x202)
      end
  | fstat fd =>
      match zlookup fd (fds s) with
      | Some k => ((0, Z.of_nat (List.length (content_of k s))), s)
      | None => ((-1, 0), s)
      end
  | opendir path =>
      match node_at (resolve path) s with
      | Some NDir =>
          let (h, s) := fresh s in
          (h, with_dirs s ((h, entries_of (resolve path) s) :: dirs s))
      | _ => (0, with_last s 0x202)
      end
  | readdir dir =>
      match zlookup dir (dirs s) with
      | Some (e :: rest) =>
          (Some e, with_dirs s ((dir, rest) :: zremove dir (dirs s)))
      | _ => (None, s)
      end
  | closedir dir => (0, with_dirs s (zremove dir (dirs s)))
  | fopen path mode => fopen_file path mode s
  | fclose f =>
      (0, with_files (with_fds s (zremove f (fds s))) (zremove f (files s)))
  | fseek f off whence =>
      match zlookup f (files s) with
      | Some st =>
          let base := if whence =? SEEK_END
                      then Z.of_nat (List.length (content_of (s_key st) s))
                      else 0 in
          (0, update_stream f
                (mkStream (s_key st) (Z.to_nat (base + off)) false (s_err st)) s)
      | None => (-1, s)
      end
  | ftell f =>
      match zlookup f (files s) with
      | Some st => (Z.of_nat (s_pos st), s)
      | None => (-1, s)
      end
  | rewind f =>
      match zlookup f (files s) with
      | Some st => (tt, update_stream f (mkStream (s_key st) 0 false false) s)
      | None => (tt, s)
      end
  | fread f size =>
      match zlookup f (files s) with
      | Some st =>
          if io_fault s then
            ([], update_stream f
                   (mkStream (s_key st) (s_pos st) (s_eof st) true) s)
          else
            let data := firstn (Z.to_nat size)
                          (skipn (s_pos st) (content_of (s_key st) s)) in
            (data,
             update_stream f
               (mkStream (s_key st) (s_pos st + List.length data)
                  (s_eof st || (Z.of_nat (List.length data) <? size))
                  (s_err st)) s)
      | None => ([], s)
      end
  | feof f =>
      match zlookup f (files s) with
      | Some st => (if s_eof st then 1 else 0, s)
      | None => (0, s)
      end
  | ferror f =>
      match zlookup f (files s) with
      | Some st => (if s_err st then 1 else 0, s)
      | None => (0, s)
      end
  | fwrite f buf =>
      match zlookup f (files s) with
      | Some st =>
          let c := content_of (s_key st) s in
          let pre := resize (s_pos st) c in
          (Z.of_nat (List.length buf),
           update_stream f
             (mkStream (s_key st) (s_pos st + List.length buf)
                (s_eof st) (s_err st))
             (set_content (s_key st)
                (pre ++ buf ++ skipn (List.length pre + List.length buf) c) s))
      | None => (0, s)
      end
  | fileno f => (f, s)
  | fsdevGetLastResult => (last_result s, s)
  end.

End MemFs.

(** The platform over [MemFs], for given values of the application's
    result codes. *)
Definition memfs (read_only unknown_stdio not_active : Result) : Platform := {|
  World := MemFs.t;
  exec := MemFs.exec;
  Result_FsReadOnly := read_only;
  Result_FsUnknownStdioError := unknown_stdio;
  Result_FsNotActive := not_active;
  GetFsOpenResult := fun _ => 0
|}.

(** Sample values for the codes, used where a run is evaluated. *)
Definition sample : Platform := memfs 0x10001 0x10002 0x10003.

(** Running a computation from a world, with an empty trace. *)
Definition run {P : Platform} {A} (m : M A) (w : World) : A * State :=
  m (w, []).

(* ------------------------------------------------------------------ *)
(** ** The mutating operations, as one family

    A value of [MutatingOp] names an operation together with its
    arguments and the backend it is run on; [perform] runs it and
    [violates] is the read-only predicate that operation applies. *)

Inductive Backend :=
| Native (fs : FsFileSystem)
| Stdio.

Inductive MutatingOp :=
| OpCreateFile (b : Backend) (path : string) (size option : Z)
| OpCreateDirectory (b : Backend) (path : string)
| OpCreateDirectoryRecursively (b : Backend) (path : string)
| OpCreateDirectoryRecursivelyWithPath (b : Backend) (path : string)
| OpDeleteFile (b : Backend) (path : string)
| OpDeleteDirectory (b : Backend) (path : string)
| OpDeleteDirectoryRecursively (b : Backend) (fuel : nat) (path : string)
| OpRenameFile (b : Backend) (src dst : string)
| OpRenameDirectory (b : Backend) (src dst : string)
| Op_write_entire_file (b : Backend) (path : string) (input : list byte)
| Op_copy_entire_file (b : Backend) (dst src : string).

Section Family.
Context {P : Platform} {DL : DenyLists}.

Definition some {A} (m : M A) : M (option A) := a <- m ;; ret (Some a).

Definition perform (op : MutatingOp) (ignore_read_only : bool)
    : M (option Result) :=
  match op with
  | OpCreateFile (Native fs) path size option =>
      some (CreateFile_native fs path size option ignore_read_only)
  | OpCreateFile Stdio path size option =>
      some (CreateFile_stdio path size option ignore_read_only)
  | OpCreateDirectory (Native fs) path =>
      some (CreateDirectory_native fs path ignore_read_only)
  | OpCreateDirectory Stdio path =>
      some (CreateDirectory_stdio path ignore_read_only)
  | OpCreateDirectoryRecursively (Native fs) path =>
      some (CreateDirectoryRecursively_native (Some fs) path ignore_read_only)
  | OpCreateDirectoryRecursively Stdio path =>
      some (CreateDirectoryRecursively_stdio path ignore_read_only)
  | OpCreateDirectoryRecursivelyWithPath (Native fs) path =>
      some (CreateDirectoryRecursivelyWithPath_native (Some fs) path
              ignore_read_only)
  | OpCreateDirectoryRecursivelyWithPath Stdio path =>
      some (CreateDirectoryRecursivelyWithPath_stdio path ignore_read_only)
  | OpDeleteFile (Native fs) path =>
      some (DeleteFile_native fs path ignore_read_only)
  | OpDeleteFile Stdio path =>
      some (DeleteFile_stdio path ignore_read_only)
  | OpDeleteDirectory (Native fs) path =>
      some (DeleteDirectory_native fs path ignore_read_only)
  | OpDeleteDirectory Stdio path =>
      some (DeleteDirectory_stdio path ignore_read_only)
  | OpDeleteDirectoryRecursively (Native fs) _ path =>
      some (DeleteDirectoryRecursively_native fs path ignore_read_only)
  | OpDeleteDirectoryRecursively Stdio fuel path =>
      DeleteDirectoryRecursively_stdio fuel path ignore_read_only
  | OpRenameFile (Native fs) src dst =>
      some (RenameFile_native fs src dst ignore_read_only)
  | OpRenameFile Stdio src dst =>
      some (RenameFile_stdio src dst ignore_read_only)
  | OpRenameDirectory (Native fs) src dst =>
      some (RenameDirectory_native fs src dst ignore_read_only)
  | OpRenameDirectory Stdio src dst =>
      some (RenameDirectory_stdio src dst ignore_read_only)
  | Op_write_entire_file (Native fs) path input =>
      some (write_entire_file_native fs path input ignore_read_only)
  | Op_write_entire_file Stdio path input =>
      some (write_entire_file_stdio path input ignore_read_only)
  | Op_copy_entire_file (Native fs) dst src =>
      some (copy_entire_file_native fs dst src ignore_read_only)
  | Op_copy_entire_file Stdio dst src =>
      some (copy_entire_file_stdio dst src ignore_read_only)
  end.

Definition violates (op : MutatingOp) : bool :=
  match op with
  | OpCreateFile _ path _ _
  | OpCreateDirectory _ path
  | OpCreateDirectoryRecursively _ path
  | OpCreateDirectoryRecursivelyWithPath _ path => is_read_only_root path
  | OpDeleteFile _ path
  | OpDeleteDirectory _ path
  | OpDeleteDirectoryRecursively _ _ path
  | Op_write_entire_file _ path _ => is_read_only path
  | OpRenameFile _ src dst
  | OpRenameDirectory _ src dst => is_read_only src || is_read_only dst
  | Op_copy_entire_file _ dst _ => is_read_only dst
  end.
End Family.

(** The creating, and the deleting and renaming operations. *)
Definition is_creation (op : MutatingOp) : bool :=
  match op with
  | OpCreateFile _ _ _ _ | OpCreateDirectory _ _
  | OpCreateDirectoryRecursively _ _
  | OpCreateDirectoryRecursivelyWithPath _ _ => true
  | _ => false
  end.

Definition is_delete_or_rename (op : MutatingOp) : bool :=
  match op with
  | OpDeleteFile _ _ | OpDeleteDirectory _ _
  | OpDeleteDirectoryRecursively _ _ _
  | OpRenameFile _ _ _ | OpRenameDirectory _ _ _ => true
  | _ => false
  end.

(** A policy with the given tables. *)
Definition lists (roots files : list string) : DenyLists :=
  {| READONLY_ROOT_FOLDERS := roots; READONLY_FILES := files |}.

(** The two operations that walk a path with [CreateDirectoryRecursively];
    every other operation has its policy checks at its head only. *)
Definition is_walk (op : MutatingOp) : bool :=
  match op with
  | OpCreateDirectoryRecursively _ _
  | OpCreateDirectoryRecursivelyWithPath _ _ => true
  | _ => false
  end.

(** What [File::Read] on the libc backend is expected to do with a short
    read, in terms of what libc answers: [fread] after the seek (when one
    is needed), then [feof], then [ferror]. *)
Definition short_read_rule {P : Platform} (f : File) (off n option : Z)
    (s : State) : Prop :=
  let w := fst s in
  let w1 := if m_stdio_off f =? off then w
            else snd (exec (fseek (m_stdio f) off SEEK_SET) w) in
  let '(data, w2) := exec (fread (m_stdio f) n) w1 in
  let '(eof, w3) := exec (feof (m_stdio f)) w2 in
  let '(err, _) := exec (ferror (m_stdio f)) w3 in
  let '(rc, buf, bytes_read, _) := fst (File_Read f off n option s) in
  buf = data /\
  bytes_read = Z.of_nat (List.length data) /\
  (R_FAILED rc = true <-> bytes_read < n /\ eof = 0 /\ err <> 0) /\
  (bytes_read < n -> eof <> 0 -> rc = 0).

(** A [MemFs] world holding one file, and a handle opened on it for
    reading through the libc backend. *)
Definition one_file (content : list byte) : MemFs.t :=
  MemFs.with_nodes MemFs.empty [(["" ; "f"]%string, MemFs.NFile content)].

Definition opened_for_read (w : MemFs.t) : File * State :=
  let '((_, f), s) :=
    run (P:=sample) (OpenFile (FsStdio true) "/f" FsOpenMode_Read File_default) w
  in (f, s).

(** [HashCrc32]: the checksum accumulator of hasher.cpp.  The checksum
    function itself, [crc32CalculateWithSeed], belongs to libnx and is a
    parameter; [Get] prints the 32-bit seed as eight lowercase hex
    digits, most significant byte first. *)
Definition hex_digit (n : Z) : ascii :=
  nth (Z.to_nat n) (list_ascii_of_string "0123456789abcdef") "0"%char.

Definition HashCrc32_Get (m_seed : Z) : string :=
  string_of_list_ascii
    (flat_map (fun i =>
       let byte := Z.land (Z.shiftr m_seed ((4 - 1 - i) * 8)) 0xFF in
       [hex_digit (Z.land (Z.shiftr byte 4) 0xF); hex_digit (Z.land byte 0xF)])
     [0; 1; 2; 3]).

Definition HashCrc32 (crc32CalculateWithSeed : Z -> list byte -> Z -> Z)
    : HashSource Z := {|
  Update := fun buf size m_seed => crc32CalculateWithSeed m_seed buf size;
  Get := HashCrc32_Get
|}.

(** A stand-in for the checksum function where a run is evaluated: the
    sum of the bytes, on 32 bits. *)
Definition byte_sum (seed : Z) (buf : list byte) (size : Z) : Z :=
  fold_left (fun acc b => (acc + Z.of_N (Byte.to_N b)) mod 2 ^ 32)
    (firstn (Z.to_nat size) buf) seed.

(** A [MemFs] world whose directory listing does not report entry types
    (as on file systems that leave [d_type] at [DT_UNKNOWN]): [/d] holds
    the directory [/d/sub] and the file [/d/file]. *)
Definition untyped_listing_world : MemFs.t :=
  MemFs.mk
    [ (["" ; "d"; "file"]%string, MemFs.NFile [x01]);
      (["" ; "d"; "sub"]%string, MemFs.NDir);
      (["" ; "d"]%string, MemFs.NDir) ]
    [] [] [] 3 0 false false.

(** [/d] opened through the libc backend for the given mode. *)
Definition opened_dir (mode : Z) : Dir * State :=
  let '(h, s) := call (P:=sample) (opendir "/d") (untyped_listing_world, []) in
  (mkDir (Some (FsStdio true)) 0 h mode, s).

(** Does a trace contain a metadata lookup? *)
Definition is_stat_call (e : Event) : bool :=
  match e with
  | Ev (lstat _) | Ev (fstat _) => true
  | _ => false
  end.

(** A string free of NUL characters, and a run of [k] slashes. *)
Fixpoint no_nul (s : string) : bool :=
  match s with
  | EmptyString => true
  | String c s' => negb (Ascii.eqb c NUL) && no_nul s'
  end.

Fixpoint slashes (k : nat) : string :=
  match k with
  | O => EmptyString
  | Datatypes.S k' => String slash (slashes k')
  end.

(** What [AppendPath] is to produce, before truncation. *)
Definition joined (root file : string) : string :=
  if is_empty root then file
  else if ends_with_slash root then root +:+ file
  else root +:+ "/" +:+ file.


(** Is there a node at [k] in the world [w]? *)
Definition present (k : MemFs.key) (w : MemFs.t) : bool :=
  match MemFs.node_at k w with
  | Some _ => true
  | None => false
  end.

(* ------------------------------------------------------------------ *)
(** ** hasher.cpp: the digests and the file-backed source *)

(** The hex printing loop shared by [HashMd5::Get], [HashSha1::Get] and
    [HashSha256::Get]: two lowercase digits per byte of the digest. *)
Definition digest_hex (hash : list byte) : string :=
  string_of_list_ascii
    (flat_map (fun b =>
       let v := Z.of_N (Byte.to_N b) in
       [hex_digit (Z.land (Z.shiftr v 4) 0xF); hex_digit (Z.land v 0xF)])
     hash).

(** The three digests.  The contexts and their update and finish
    functions belong to mbedtls and libnx and are parameters; finishing
    fills the fixed array [hash] of the digest's size. *)
Definition MD5_HASH_SIZE : nat := 16.
Definition SHA1_HASH_SIZE : nat := 20.
Definition SHA256_HASH_SIZE : nat := 32.

Definition HashMd5 {ctx : Type}
    (mbedtls_md5_update_ret : ctx -> list byte -> Z -> ctx)
    (mbedtls_md5_finish_ret : ctx -> list byte) : HashSource ctx := {|
  Update := fun buf size m_ctx => mbedtls_md5_update_ret m_ctx buf size;
  Get := fun m_ctx =>
    digest_hex (resize MD5_HASH_SIZE (mbedtls_md5_finish_ret m_ctx))
|}.

Definition HashSha1 {ctx : Type}
    (sha1ContextUpdate : ctx -> list byte -> Z -> ctx)
    (sha1ContextGetHash : ctx -> list byte) : HashSource ctx := {|
  Update := fun buf size m_ctx => sha1ContextUpdate m_ctx buf size;
  Get := fun m_ctx =>
    digest_hex (resize SHA1_HASH_SIZE (sha1ContextGetHash m_ctx))
|}.

Definition HashSha256 {ctx : Type}
    (sha256ContextUpdate : ctx -> list byte -> Z -> ctx)
    (sha256ContextGetHash : ctx -> list byte) : HashSource ctx := {|
  Update := fun buf size m_ctx => sha256ContextUpdate m_ctx buf size;
  Get := fun m_ctx =>
    digest_hex (resize SHA256_HASH_SIZE (sha256ContextGetHash m_ctx))
|}.

(** [consteval CalculateHashStrLen]: the characters of a digest of
    [buf_size] bytes, with the terminating NUL. *)
Definition CalculateHashStrLen (buf_size : Z) : Z := buf_size * 2 + 1.

(** Reading hex back: the value of a lowercase hex digit, of a string of
    them (most significant first), and the bytes of a string of pairs. *)
Definition hex_value (c : ascii) : option Z :=
  let n := Z.of_nat (nat_of_ascii c) in
  if (48 <=? n) && (n <=? 57) then Some (n - 48)
  else if (97 <=? n) && (n <=? 102) then Some (n - 87)
  else None.

Fixpoint decode_hex_from (acc : Z) (s : string) : option Z :=
  match s with
  | EmptyString => Some acc
  | String c s' =>
      match hex_value c with
      | Some v => decode_hex_from (acc * 16 + v) s'
      | None => None
      end
  end.

Definition decode_hex (s : string) : option Z := decode_hex_from 0 s.

Fixpoint decode_bytes (s : string) : option (list Z) :=
  match s with
  | EmptyString => Some []
  | String hi (String lo s') =>
      match hex_value hi, hex_value lo, decode_bytes s' with
      | Some h, Some l, Some rest => Some (h * 16 + l :: rest)
      | _, _, _ => None
      end
  | String _ EmptyString => None
  end.

(** [FileSource]: a source reading through a [File] opened when the
    source is built.  [App::IsFileBaseEmummc] (app.hpp) and
    [svcSleepThread] (libnx) are parameters. *)
Record FileSource := mkFileSource {
  src_fs : Fs;                    (* m_fs *)
  src_file : File;                (* m_file *)
  src_open_result : Result;       (* m_open_result *)
  src_is_file_based_emummc : bool (* m_is_file_based_emummc *)
}.

Section FileSourceOps.
Context {P : Platform}.
Variable IsFileBaseEmummc : M bool.
Variable svcSleepThread : Z -> M unit.

Definition FileSource_new (fs : Fs) (path : string) : M FileSource :=
  '(rc, f) <- OpenFile fs path FsOpenMode_Read File_default ;;
  e <- IsFileBaseEmummc ;;
  ret (mkFileSource fs f rc e).

Definition FileSource_Size (src : FileSource) : M (Result * Z) :=
  if R_FAILED (src_open_result src) then ret (src_open_result src, 0)
  else File_GetSize (src_file src).

(** The result code, the bytes read, [*bytes_read], and the source with
    its file handle afterwards. *)
Definition FileSource_Read (src : FileSource) (off size : Z)
    : M (Result * list byte * Z * FileSource) :=
  if R_FAILED (src_open_result src) then
    ret (src_open_result src, [], 0, src)
  else
    '(rc, buf, bytes_read, f) <- File_Read (src_file src) off size 0 ;;
    let src := mkFileSource (src_fs src) f (src_open_result src)
                 (src_is_file_based_emummc src) in
    (if IsNative (src_fs src) && src_is_file_based_emummc src
     then svcSleepThread 2000000 (* 2ms *)
     else ret tt) ;;;
    ret (rc, buf, bytes_read, src).
End FileSourceOps.

(* ------------------------------------------------------------------ *)
(** ** fs.cpp: the rest of the handles *)

(** [Dir::Close], also run by the destructor.  [fsDirClose] (libnx) is a
    parameter. *)
Definition Dir_Close {P : Platform} (fsDirClose : FsDir -> M unit) (d : Dir)
    : M Dir :=
  match dir_fs d with
  | None => ret d
  | Some fs =>
      if IsNative fs then
        if serviceIsActive (dir_native d) then
          fsDirClose (dir_native d) ;;;
          ret (mkDir (dir_fs d) 0 (dir_stdio d) (dir_mode d))
        else ret d
      else
        if negb (dir_stdio d =? 0) then
          call (closedir (dir_stdio d)) ;;;
          ret (mkDir (dir_fs d) (dir_native d) 0 (dir_mode d))
        else ret d
  end.

(** [OpenDirectory].  [fsFsOpenDirectory] (libnx) is a parameter. *)
Definition OpenDirectory {P : Platform}
    (fsFsOpenDirectory : FsFileSystem -> string -> Z -> M (Result * FsDir))
    (fs : Fs) (path : string) (mode : Z) (d : Dir) : M (Result * Dir) :=
  let d := mkDir (Some fs) (dir_native d) (dir_stdio d) mode in
  match fs with
  | FsNative h _ =>
      '(rc, n) <- fsFsOpenDirectory h path mode ;;
      let d := mkDir (dir_fs d) n (dir_stdio d) (dir_mode d) in
      if R_FAILED rc then ret (rc, d) else ret (0, d)
  | FsStdio _ =>
      p <- call (opendir path) ;;
      let d := mkDir (dir_fs d) (dir_native d) p (dir_mode d) in
      if p =? 0 then ret (Result_FsUnknownStdioError, d) else ret (0, d)
  end.

Definition Dir_default : Dir := mkDir None 0 0 0.

(** Kinds of calls, to speak of what a run did. *)
Definition is_fseek (e : Event) : bool :=
  match e with Ev (fseek _ _ _) => true | _ => false end.

Definition is_fopen_for_update_or_read (path : string) (e : Event) : bool :=
  match e with
  | Ev (fopen p m) =>
      String.eqb p path && (String.eqb m "rb" || String.eqb m "rb+")
  | _ => false
  end.

(* ------------------------------------------------------------------ *)
(** ** Listings *)

(** What one [dirent] contributes to the vector of [Dir::ReadAll] and to
    the buffer of [Dir::Read] on the libc backend: the body of the two
    loops, for a handle opened with [mode]. *)
Definition ReadAll_entry (mode : Z) (de : dirent) : list FsDirectoryEntry :=
  if is_dot_or_dotdot (d_name de) then []
  else if d_type de =? DT_DIR then
    if has_flag mode FsDirOpenMode_ReadDirs
    then [{| name := d_name de; type := FsDirEntryType_Dir |}] else []
  else if d_type de =? DT_REG then
    if has_flag mode FsDirOpenMode_ReadFiles
    then [{| name := d_name de; type := FsDirEntryType_File |}] else []
  else [].

Definition Read_entry (mode : Z) (de : dirent) : list FsDirectoryEntry :=
  if is_dot_or_dotdot (d_name de) then []
  else if d_type de =? DT_DIR then
    if has_flag mode FsDirOpenMode_ReadDirs
    then [{| name := d_name de; type := FsDirEntryType_Dir |}] else []
  else if d_type de =? DT_REG then
    if has_flag mode FsDirOpenMode_ReadFiles
    then [{| name := d_name de; type := FsDirEntryType_File |}] else []
  else [{| name := d_name de; type := FsDirEntryType_File |}].

(** An entry a handle opened with [mode] may list: not one of the two
    dot names, and of a kind the mode asks for. *)
Definition admitted (mode : Z) (e : FsDirectoryEntry) : bool :=
  negb (is_dot_or_dotdot (name e)) &&
  (((type e =? FsDirEntryType_Dir) && has_flag mode FsDirOpenMode_ReadDirs)
   || ((type e =? FsDirEntryType_File)
       && has_flag mode FsDirOpenMode_ReadFiles)).

(** The weaker guarantee of [Dir::Read]: a named entry, tagged as a
    directory only under a mode that asks for directories. *)
Definition tagged (mode : Z) (e : FsDirectoryEntry) : bool :=
  negb (is_dot_or_dotdot (name e)) &&
  (((type e =? FsDirEntryType_Dir) && has_flag mode FsDirOpenMode_ReadDirs)
   || (type e =? FsDirEntryType_File)).

(** A [MemFs] world with one open directory stream still holding the
    entries [es], and the libc handle on it. *)
Definition streaming (es : list dirent) : MemFs.t :=
  MemFs.with_dirs MemFs.empty [(7, es)].

Definition stream_handle (mode : Z) : Dir :=
  mkDir (Some (FsStdio true)) 0 7 mode.

(* ------------------------------------------------------------------ *)
(** ** What a run touched *)

(** Every call of a run satisfies [ok]. *)
Definition traces {P : Platform} {A} (ok : Event -> bool) (m : M A) : Prop :=
  forall s, exists evs,
    snd (snd (m s)) = snd s ++ evs /\ forallb ok evs = true.

(** A call of the recursive delete that stays at or below [path]: a
    path-taking call names [path] or something it is a prefix of; the
    calls on an open directory stream take no path. *)
Definition within (path : string) (e : Event) : bool :=
  match e with
  | Ev (lstat p) | Ev (unlink p) | Ev (opendir p) | Ev (rmdir p) =>
      starts_with p path
  | Ev (readdir _) | Ev (closedir _) => true
  | _ => false
  end.

(* ------------------------------------------------------------------ *)
(** ** IsDirEmpty, the libc branch *)

(** The [while (auto d = readdir(dir))] loop of [IsDirEmpty]: [*out]
    starts as [true] and the first entry that is not one of the dot
    names makes it [false] and ends the loop. *)
Fixpoint IsDirEmpty_loop {P : Platform} (fuel : nat) (dir : Z)
    : M (option bool) :=
  match fuel with
  | O => ret None
  | S fuel' =>
      d <- call (readdir dir) ;;
      match d with
      | None => ret (Some true)
      | Some de =>
          if is_dot_or_dotdot (d_name de) then IsDirEmpty_loop fuel' dir
          else ret (Some false)
      end
  end.

(** [IsDirEmpty] for a libc-backed [fs::Fs]: the result code and [*out].
    [Result_FsFailedStdioOpendir] (defines.hpp) is a parameter. *)
Definition IsDirEmpty_stdio {P : Platform}
    (Result_FsFailedStdioOpendir : Result) (fuel : nat) (path : string)
    : M (option (Result * bool)) :=
  dir <- call (opendir path) ;;
  if dir =? 0 then ret (Some (Result_FsFailedStdioOpendir, true))
  else
    r <- IsDirEmpty_loop fuel dir ;;
    match r with
    | None => ret None
    | Some out =>
        (* ON_SCOPE_EXIT(closedir(dir)) *)
        call (closedir dir) ;;; ret (Some (0, out))
    end.

(* ------------------------------------------------------------------ *)
(** ** Hashing a span chunk by chunk *)

(** What at most [chunks] pieces of [chunk] bytes each, taken from the
    front of [data] one after the other, make of the accumulator [h]. *)
Fixpoint feed {H : Type} {HS : HashSource H} (chunks chunk : nat)
    (data : list byte) (h : H) : H :=
  match chunks with
  | O => h
  | Datatypes.S chunks' =>
      match data with
      | [] => h
      | _ =>
          let piece := firstn chunk data in
          feed chunks' chunk (skipn chunk data)
            (Update piece (Z.of_nat (List.length piece)) h)
      end
  end.

(* ------------------------------------------------------------------ *)
(** ** ui/menus/ghdl.cpp: the display name of a direct link *)

(** [std::string::rfind(str)]: index of the last occurrence of [pat]. *)
Fixpoint rfind (s pat : string) : option nat :=
  match s with
  | EmptyString => if is_empty pat then Some O else None
  | String _ s' =>
      match rfind s' pat with
      | Some i => Some (Datatypes.S i)
      | None => if starts_with s pat then Some O else None
      end
  end.

(** What the menu stores in [entry.repo] for an entry that only has a
    [direct_url]: the file name of the URL, without a final [.zip]. *)
Definition direct_link_name (direct_url : string) : string :=
  (* Extract filename from URL for display *)
  match strrchr direct_url slash with
  | Some pos =>
      if (pos + 1 <? String.length direct_url)%nat then
        let repo := drop (pos + 1) direct_url in
        (* Remove .zip extension for cleaner display *)
        if (4 <? String.length repo)%nat then
          match rfind repo ".zip" with
          | Some ext_pos =>
              if (ext_pos =? String.length repo - 4)%nat
              then take ext_pos repo else repo
          | None => repo
          end
        else repo
      else "Direct Link"%string
  | None => "Direct Link"%string
  end.

(* ------------------------------------------------------------------ *)
(** ** Trees of the in-memory world *)

(** [k] names [k'] or a node above it. *)
Fixpoint is_prefix (k k' : MemFs.key) : bool :=
  match k, k' with
  | [], _ => true
  | x :: k1, y :: k1' => String.eqb x y && is_prefix k1 k1'
  | _ :: _, [] => false
  end.

(** A name a directory entry can bear: not empty, free of slashes and
    colons, and not one of the dot names. *)
Definition clean (n : string) : bool :=
  negb (is_empty n)
  && match strchr n slash with None => true | Some _ => false end
  && match strchr n colon with None => true | Some _ => false end
  && negb (is_dot_or_dotdot n).

Fixpoint distinct_keys (l : list MemFs.key) : bool :=
  match l with
  | [] => true
  | k :: l' => negb (existsb (MemFs.key_eqb k) l') && distinct_keys l'
  end.

(** A well-formed tree: every node sits below a device root, under
    clean names, with a directory as its parent, and no key occurs
    twice. *)
Definition wf_tree (w : MemFs.t) : bool :=
  forallb (fun e =>
    (2 <=? List.length (fst e))%nat
    && forallb clean (tl (fst e))
    && ((List.length (fst e) =? 2)%nat
        || match MemFs.lookup (MemFs.parent (fst e)) (MemFs.nodes w) with
           | Some MemFs.NDir => true
           | _ => false
           end)) (MemFs.nodes w)
  && distinct_keys (map fst (MemFs.nodes w)).

(** The open directory streams are older than the next handle. *)
Definition streams_older (w : MemFs.t) : bool :=
  forallb (fun d => fst d <? MemFs.next_handle w) (MemFs.dirs w).

(** The number of nodes at or below [k]. *)
Definition size_below (k : MemFs.key) (w : MemFs.t) : nat :=
  List.length (filter (fun e => is_prefix k (fst e)) (MemFs.nodes w)).

(** The tree without the nodes at or below [k]. *)
Definition without (k : MemFs.key) (l : list (MemFs.key * MemFs.node))
    : list (MemFs.key * MemFs.node) :=
  filter (fun e => negb (is_prefix k (fst e))) l.

(** The entry [readdir] reports for a node. *)
Definition dirent_of (typed : bool) (e : MemFs.key * MemFs.node) : dirent :=
  {| d_name := last (fst e) EmptyString;
     d_type := if typed then
                 match snd e with
                 | MemFs.NDir => DT_DIR
                 | MemFs.NFile _ => DT_REG
                 end
               else DT_UNKNOWN |}.

(** The nodes directly below [k], in the order of the table. *)
Definition children (k : MemFs.key) (l : list (MemFs.key * MemFs.node))
    : list (MemFs.key * MemFs.node) :=
  filter (fun e => MemFs.key_eqb (MemFs.parent (fst e)) k) l.

(** What a delete leaves alone: the descriptors, the file streams, the
    remembered error and the flags; handles are only ever used up. *)
Definition same_handles (w w' : MemFs.t) : Prop :=
  MemFs.fds w' = MemFs.fds w /\
  MemFs.files w' = MemFs.files w /\
  MemFs.last_result w' = MemFs.last_result w /\
  MemFs.reports_d_type w' = MemFs.reports_d_type w /\
  MemFs.io_fault w' = MemFs.io_fault w /\
  MemFs.next_handle w <= MemFs.next_handle w'.

(* ------------------------------------------------------------------ *)
(** ** An operation that is let through

    What the bodies of fs.cpp do after the policy check at their head:
    the call that reaches the backend first, and, for the operations
    that are one backend call, what becomes of its answer. *)

(** [option] as [CreateFile] hands it to the service. *)
Definition create_option (size option : Z) : Z :=
  if 4 * 1024 * 1024 * 1024 <=? size
  then Z.lor option FsCreateOption_BigFile else option.

(** [CreateDirectory] on either backend. *)
Definition create_directory_call (b : Backend) (path : string) : Event :=
  match b with
  | Native fs => Ev (fsFsCreateDirectory fs path)
  | Stdio => Ev (mkdir path ACCESSPERMS)
  end.

(** The shapes of the operations that are one backend call: a service
    call followed by a commit; a libc call answering 0 or -1; [mkdir];
    and [open] followed by [ftruncate] and [close]. *)
Inductive OneCall :=
| Service (fs : FsFileSystem) (c : Call Result)
| Libc (c : Call Z)
| Mkdir (path : string)
| Creat (path : string) (size : Z).

Definition one_call (op : MutatingOp) : option OneCall :=
  match op with
  | OpCreateFile (Native fs) path size option =>
      Some (Service fs (fsFsCreateFile fs path size (create_option size option)))
  | OpCreateFile Stdio path size _ => Some (Creat path size)
  | OpCreateDirectory (Native fs) path =>
      Some (Service fs (fsFsCreateDirectory fs path))
  | OpCreateDirectory Stdio path => Some (Mkdir path)
  | OpDeleteFile (Native fs) path => Some (Service fs (fsFsDeleteFile fs path))
  | OpDeleteFile Stdio path => Some (Libc (unlink path))
  | OpDeleteDirectory (Native fs) path =>
      Some (Service fs (fsFsDeleteDirectory fs path))
  | OpDeleteDirectory Stdio path => Some (Libc (rmdir path))
  | OpDeleteDirectoryRecursively (Native fs) _ path =>
      Some (Service fs (fsFsDeleteDirectoryRecursively fs path))
  | OpRenameFile (Native fs) src dst =>
      Some (Service fs (fsFsRenameFile fs src dst))
  | OpRenameFile Stdio src dst => Some (Libc (rename src dst))
  | OpRenameDirectory (Native fs) src dst =>
      Some (Service fs (fsFsRenameDirectory fs src dst))
  | OpRenameDirectory Stdio src dst => Some (Libc (rename src dst))
  | _ => None
  end.

Section LetThrough.
Context {P : Platform}.

(** The first backend call of an operation that is let through; [None]
    where the operation returns before any call: a path without a slash
    given to [CreateDirectoryRecursivelyWithPath], the whole-file
    operations of a native file system that failed to open, and the
    recursive delete out of fuel. *)
Definition entry_call (op : MutatingOp) : option Event :=
  match op with
  | OpCreateFile (Native fs) path size option =>
      Some (Ev (fsFsCreateFile fs path size (create_option size option)))
  | OpCreateFile Stdio path _ _ =>
      Some (Ev (open path (Z.lor O_WRONLY O_CREAT) DEFFILEMODE))
  | OpCreateDirectory b path
  | OpCreateDirectoryRecursively b path => Some (create_directory_call b path)
  | OpCreateDirectoryRecursivelyWithPath b path =>
      match strrchr path slash with
      | Some last_slash =>
          Some (create_directory_call b (take last_slash path))
      | None => None
      end
  | OpDeleteFile (Native fs) path => Some (Ev (fsFsDeleteFile fs path))
  | OpDeleteFile Stdio path => Some (Ev (unlink path))
  | OpDeleteDirectory (Native fs) path =>
      Some (Ev (fsFsDeleteDirectory fs path))
  | OpDeleteDirectory Stdio path => Some (Ev (rmdir path))
  | OpDeleteDirectoryRecursively (Native fs) _ path =>
      Some (Ev (fsFsDeleteDirectoryRecursively fs path))
  | OpDeleteDirectoryRecursively Stdio fuel path =>
      match fuel with
      | O => None
      | S _ => Some (Ev (lstat path))
      end
  | OpRenameFile (Native fs) src dst => Some (Ev (fsFsRenameFile fs src dst))
  | OpRenameDirectory (Native fs) src dst =>
      Some (Ev (fsFsRenameDirectory fs src dst))
  | OpRenameFile Stdio src dst
  | OpRenameDirectory Stdio src dst => Some (Ev (rename src dst))
  | Op_write_entire_file (Native fs) path input =>
      if R_FAILED (GetFsOpenResult fs) then None
      else
        let size := Z.of_nat (List.length input) in
        Some (Ev (fsFsCreateFile fs path size (create_option size 0)))
  | Op_write_entire_file Stdio path _ => Some (Ev (fopen path "wb"))
  | Op_copy_entire_file (Native fs) _ src =>
      if R_FAILED (GetFsOpenResult fs) then None
      else Some (Ev (fsFsOpenFile fs src FsOpenMode_Read))
  | Op_copy_entire_file Stdio _ src => Some (Ev (fopen src "rb"))
  end.

(** After a failed libc call: the code the storage service remembers
    when that is a failure, the catch-all code otherwise. *)
Definition last_error (s : State) : Result * State :=
  let (rc, w) := exec fsdevGetLastResult (fst s) in
  (if R_FAILED rc then rc else Result_FsUnknownStdioError,
   (w, snd s ++ [Ev fsdevGetLastResult])).

(** What becomes of the backend's answer, written out on the world and
    the trace. *)
Definition answer (k : OneCall) (s : State) : Result * State :=
  match k with
  | Service fs c =>
      let (rc, w1) := exec c (fst s) in
      if R_FAILED rc then (rc, (w1, snd s ++ [Ev c]))
      else
        (0, (snd (exec (fsFsCommit fs) w1),
             (snd s ++ [Ev c]) ++ [Ev (fsFsCommit fs)]))
  | Libc c =>
      let (r, w1) := exec c (fst s) in
      if r =? 0 then (0, (w1, snd s ++ [Ev c]))
      else last_error (w1, snd s ++ [Ev c])
  | Mkdir path =>
      let c := mkdir path ACCESSPERMS in
      let '((r, errno), w1) := exec c (fst s) in
      if r =? 0 then (0, (w1, snd s ++ [Ev c]))
      else if errno =? EEXIST
      then (FsError_PathAlreadyExists, (w1, snd s ++ [Ev c]))
      else last_error (w1, snd s ++ [Ev c])
  | Creat path size =>
      let c := open path (Z.lor O_WRONLY O_CREAT) DEFFILEMODE in
      let '((fd, errno), w1) := exec c (fst s) in
      if fd =? -1 then
        if errno =? EEXIST
        then (FsError_PathAlreadyExists, (w1, snd s ++ [Ev c]))
        else last_error (w1, snd s ++ [Ev c])
      else if size =? 0 then
        (0, (snd (exec (close fd) w1), (snd s ++ [Ev c]) ++ [Ev (close fd)]))
      else
        let (r, w2) := exec (ftruncate fd size) w1 in
        (if r =? 0 then 0 else Result_FsUnknownStdioError,
         (snd (exec (close fd) w2),
          ((snd s ++ [Ev c]) ++ [Ev (ftruncate fd size)]) ++ [Ev (close fd)]))
  end.
End LetThrough.

(** A world holding the file [/switch/prod.keys], which is on the
    exact-path list. *)
Definition keys_world : MemFs.t :=
  MemFs.with_nodes MemFs.empty
    [ (["" ; "switch"; "prod.keys"]%string, MemFs.NFile [x01]);
      (["" ; "switch"]%string, MemFs.NDir) ].

(* ================================================================== *)
(** * Properties *)

Local Open Scope string_scope.
Local Open Scope list_scope.
Local Open Scope Z_scope.

(** ** The policy predicates *)

Lemma append_assoc (a b c : string) : (a +:+ b) +:+ c = a +:+ (b +:+ c).
Proof. induction a as [|x a IH]; simpl; [reflexivity | now rewrite IH]. Qed.

Lemma starts_with_iff (path p : string) :
  starts_with path p = true <-> exists rest, path = p +:+ rest.
Proof.
  revert path; induction p as [|c p IH]; intros path; simpl.
  - split; [intros _; now exists path | reflexivity].
  - destruct path as [|d path].
    + split; [discriminate | intros [rest H]; discriminate].
    + rewrite andb_true_iff, IH, Ascii.eqb_eq. split.
      * intros [-> [rest ->]]. now exists rest.
      * intros [rest H]. injection H as -> ->. split; [reflexivity | now exists rest].
Qed.

Lemma is_read_only_root_iff {DL : DenyLists} (p : string) :
  is_read_only_root p = true <->
  exists e, In e READONLY_ROOT_FOLDERS /\ exists rest, p = e +:+ rest.
Proof.
  unfold is_read_only_root. rewrite existsb_exists.
  split; intros [e [Hin H]]; exists e; split; auto; now apply starts_with_iff.
Qed.

Lemma is_read_only_file_iff {DL : DenyLists} (p : string) :
  is_read_only_file p = true <-> In p READONLY_FILES.
Proof.
  unfold is_read_only_file. rewrite existsb_exists. split.
  - intros [e [Hin H]]. apply String.eqb_eq in H. now subst.
  - intros H. exists p. split; [assumption | apply String.eqb_refl].
Qed.

Lemma is_read_only_orb {DL : DenyLists} (p : string) :
  is_read_only p = is_read_only_root p || is_read_only_file p.
Proof.
  unfold is_read_only.
  destruct (is_read_only_root p), (is_read_only_file p); reflexivity.
Qed.

Lemma is_read_only_root_implies {DL : DenyLists} (p : string) :
  is_read_only p = false -> is_read_only_root p = false.
Proof. rewrite is_read_only_orb. now intros [H _]%orb_false_iff. Qed.

(** ** The policy check of the mutating operations *)

Section PolicyCheck.
Context {P : Platform}.

Lemma CreateDirectoryRecursively_loop_ext (DL1 DL2 : DenyLists)
    (fs : option FsFileSystem) (ign : bool) :
  (forall q s, CreateDirectory_either (DL:=DL1) fs q ign s
             = CreateDirectory_either (DL:=DL2) fs q ign s) ->
  forall dirs path s,
    CreateDirectoryRecursively_loop (DL:=DL1) fs ign path dirs s
    = CreateDirectoryRecursively_loop (DL:=DL2) fs ign path dirs s.
Proof.
  intros Hext dirs. induction dirs as [|dir dirs IH]; intros path s; simpl.
  - reflexivity.
  - destruct (is_empty dir); [apply IH|].
    unfold bind. rewrite Hext.
    destruct (CreateDirectory_either fs (path +:+ dir) ign s) as [rc s1].
    destruct (R_FAILED rc && negb (rc =? FsError_PathAlreadyExists));
      [reflexivity | apply IH].
Qed.

(** With the override set, no operation looks at the deny-lists. *)
Lemma CreateDirectoryRecursively_native_override (DL1 DL2 : DenyLists)
    fs path s :
  CreateDirectoryRecursively_native (DL:=DL1) fs path true s
  = CreateDirectoryRecursively_native (DL:=DL2) fs path true s.
Proof.
  assert (Hext : forall q s0, CreateDirectory_either (DL:=DL1) fs q true s0
                            = CreateDirectory_either (DL:=DL2) fs q true s0)
    by (intros; destruct fs; reflexivity).
  unfold CreateDirectoryRecursively_native, R_UNLESS; simpl.
  unfold bind. rewrite Hext.
  destruct (CreateDirectory_either fs path true s) as [rc s1].
  destruct (R_SUCCEEDED rc || (rc =? FsError_PathAlreadyExists));
    [reflexivity|].
  destruct (walk_start path) as [start view].
  now apply CreateDirectoryRecursively_loop_ext.
Qed.

Lemma perform_override (DL1 DL2 : DenyLists) op s :
  perform (DL:=DL1) op true s = perform (DL:=DL2) op true s.
Proof.
  destruct op as [b ? ? ?|b ?|b ?|b ?|b ?|b ?|b ? ?|b ? ?|b ? ?|b ? ?|b ? ?];
    destruct b; try reflexivity; simpl; unfold some, bind.
  - now rewrite (CreateDirectoryRecursively_native_override DL1 DL2).
  - unfold CreateDirectoryRecursively_stdio, R_UNLESS; simpl.
    now rewrite (CreateDirectoryRecursively_native_override DL1 DL2).
  - unfold CreateDirectoryRecursivelyWithPath_native, R_UNLESS; simpl.
    destruct (strrchr path slash); [|reflexivity].
    unfold R_TRY, bind.
    now rewrite (CreateDirectoryRecursively_native_override DL1 DL2).
  - unfold CreateDirectoryRecursivelyWithPath_stdio,
      CreateDirectoryRecursivelyWithPath_native, R_UNLESS; simpl.
    destruct (strrchr path slash); [|reflexivity].
    unfold R_TRY, bind.
    now rewrite (CreateDirectoryRecursively_native_override DL1 DL2).
Qed.

(** Without the override, a violation returns before anything is done. *)
Lemma perform_violation {DL : DenyLists} op s :
  violates op = true ->
  perform op false s = (Some Result_FsReadOnly, s).
Proof.
  destruct op as [b ? ? ?|b ?|b ?|b ?|b ?|b ?|b ? ?|b ? ?|b ? ?|b ? ?|b ? ?];
    destruct b; simpl; intros H;
    unfold some, bind,
      CreateFile_native, CreateFile_stdio, CreateDirectory_native,
      CreateDirectory_stdio, CreateDirectoryRecursively_native,
      CreateDirectoryRecursively_stdio,
      CreateDirectoryRecursivelyWithPath_native,
      CreateDirectoryRecursivelyWithPath_stdio,
      DeleteFile_native, DeleteFile_stdio, DeleteDirectory_native,
      DeleteDirectory_stdio, DeleteDirectoryRecursively_native,
      DeleteDirectoryRecursively_stdio, RenameFile_native, RenameFile_stdio,
      RenameDirectory_native, RenameDirectory_stdio,
      write_entire_file_native, write_entire_file_stdio,
      copy_entire_file_native, copy_entire_file_stdio, R_UNLESS;
    try (rewrite H; reflexivity);
    (destruct (is_read_only src); simpl in H |- *;
     [reflexivity | rewrite H; reflexivity]).
Qed.
End PolicyCheck.

(** Case analysis on the answer of the next call, or on the next test. *)
Ltac step_exec :=
  match goal with
  | |- context [exec ?c ?w] =>
      let x := fresh "x" in let w' := fresh "w" in
      destruct (exec c w) as [x w'];
      repeat match goal with y : (_ * _)%type |- _ => destruct y end;
      simpl
  | |- context [if ?b then _ else _] => destruct b; simpl
  end.

Section PolicyPass.
Context {P : Platform}.

(** A path that passes the check is handled as under the override. *)
Lemma write_entire_file_native_pass {DL : DenyLists} fs path input s :
  is_read_only path = false ->
  write_entire_file_native fs path input false s
  = write_entire_file_native fs path input true s.
Proof.
  intros H. pose proof (is_read_only_root_implies _ H) as Hr.
  unfold write_entire_file_native, R_UNLESS, Fs_CreateFile,
    CreateFile_native, R_UNLESS.
  rewrite H, Hr; simpl.
  destruct (R_FAILED (GetFsOpenResult fs)); [reflexivity|].
  unfold OpenFile, File_SetSize, File_Write, leave, File_Close, Fs_Commit,
    R_TRY, R_SUCCEED, R_UNLESS, bind, call, ret; simpl.
  repeat (step_exec; try reflexivity).
Qed.

Lemma write_entire_file_stdio_pass {DL : DenyLists} path input s :
  is_read_only path = false ->
  write_entire_file_stdio path input false s
  = write_entire_file_stdio path input true s.
Proof.
  intros H. unfold write_entire_file_stdio, R_UNLESS. now rewrite H.
Qed.

Lemma perform_pass {DL : DenyLists} op s :
  is_walk op = false -> violates op = false ->
  perform op false s = perform op true s.
Proof.
  destruct op as [b ? ? ?|b ?|b ?|b ?|b ?|b ?|b ? ?|b ? ?|b ? ?|b ? ?|b ? ?];
    try discriminate; intros _; destruct b; simpl; intros H;
    unfold some, bind,
      CreateFile_native, CreateFile_stdio, CreateDirectory_native,
      CreateDirectory_stdio,
      DeleteFile_native, DeleteFile_stdio, DeleteDirectory_native,
      DeleteDirectory_stdio, DeleteDirectoryRecursively_native,
      DeleteDirectoryRecursively_stdio, RenameFile_native, RenameFile_stdio,
      RenameDirectory_native, RenameDirectory_stdio,
      copy_entire_file_native, copy_entire_file_stdio, R_UNLESS;
    try (rewrite H; reflexivity);
    try (apply orb_false_iff in H; destruct H as [H1 H2];
         rewrite H1, H2; reflexivity).
  - apply orb_false_iff in H; destruct H as [H1 H2].
    unfold RenameFile_stdio, R_UNLESS. rewrite H1, H2. reflexivity.
  - now rewrite write_entire_file_native_pass.
  - now rewrite write_entire_file_stdio_pass.
  - rewrite H; simpl. unfold bind.
    destruct (read_entire_file_native fs src [] s) as [[rc data] s1].
    destruct (R_FAILED rc); [reflexivity|].
    now rewrite write_entire_file_native_pass.
  - rewrite H; simpl. unfold bind.
    destruct (read_entire_file_stdio src [] s) as [[rc data] s1].
    destruct (R_FAILED rc); [reflexivity|].
    now rewrite write_entire_file_stdio_pass.
Qed.

(** The creating operations never look at the exact-path list. *)
Lemma perform_creation_files (roots files1 files2 : list string) op ign s :
  is_creation op = true ->
  perform (DL:=lists roots files1) op ign s
  = perform (DL:=lists roots files2) op ign s.
Proof.
  destruct op as [b ? ? ?|b ?|b ?|b ?|b ?|b ?|b ? ?|b ? ?|b ? ?|b ? ?|b ? ?];
    try discriminate; intros _; destruct b; reflexivity.
Qed.
End PolicyPass.

Lemma some_inj {P : Platform} {A} (m1 m2 : M A) (s1 s2 : State) :
  some m1 s1 = some m2 s2 -> m1 s1 = m2 s2.
Proof.
  unfold some, bind, ret.
  destruct (m1 s1) as [a1 t1], (m2 s2) as [a2 t2]. congruence.
Qed.

(** C2.  [is_read_only] is the disjunction of the two matching modes;
    [is_read_only_root p] holds exactly when [p] starts with an entry of
    the root deny-list, [is_read_only_file p] exactly when [p] is an
    entry of the exact-path deny-list.  The creating operations
    (CreateFile, CreateDirectory, CreateDirectoryRecursively,
    CreateDirectoryRecursivelyWithPath) depend on the root deny-list
    only: changing the exact-path list changes nothing.  The deleting and
    renaming operations consult both lists: they are refused as soon as
    [is_read_only] holds of a path they are given, and run as under the
    override when it holds of none.  With the tables of fs.cpp: deleting
    ["/switch/prod.keys"], which is on the exact-path list alone, and
    deleting ["/backup/saves"], which is under a protected root alone,
    are both refused, while creating ["/switch/prod.keys"] goes to the
    backend. *)
Theorem C2_matching_modes (P : Platform) :
  (forall (DL : DenyLists) p,
      is_read_only p = is_read_only_root p || is_read_only_file p) /\
  (forall (DL : DenyLists) p,
      is_read_only_root p = true <->
      exists e, In e READONLY_ROOT_FOLDERS /\ exists rest, p = e +:+ rest) /\
  (forall (DL : DenyLists) p,
      is_read_only_file p = true <-> In p READONLY_FILES) /\
  (forall roots files1 files2 op ign (s : State),
      is_creation op = true ->
      perform (DL:=lists roots files1) op ign s
      = perform (DL:=lists roots files2) op ign s) /\
  (forall (DL : DenyLists) op (s : State),
      is_delete_or_rename op = true ->
      (violates op = true ->
       perform op false s = (Some Result_FsReadOnly, s)) /\
      (violates op = false -> perform op false s = perform op true s)) /\
  (forall b (s : State),
      perform (DL:=sphaira_lists) (OpDeleteFile b "/switch/prod.keys") false s
        = (Some Result_FsReadOnly, s) /\
      @is_read_only_root sphaira_lists "/switch/prod.keys" = false /\
      perform (DL:=sphaira_lists) (OpDeleteFile b "/backup/saves") false s
        = (Some Result_FsReadOnly, s) /\
      @is_read_only_file sphaira_lists "/backup/saves" = false /\
      perform (DL:=sphaira_lists) (OpCreateFile b "/switch/prod.keys" 0 0)
        false s
      = perform (DL:=sphaira_lists) (OpCreateFile b "/switch/prod.keys" 0 0)
          true s).
Proof.
  refine (conj _ (conj _ (conj _ (conj _ (conj _ _))))).
  - intros DL p. apply is_read_only_orb.
  - intros DL p. apply is_read_only_root_iff.
  - intros DL p. apply is_read_only_file_iff.
  - intros. now apply perform_creation_files.
  - intros DL op s Hop. split.
    + apply perform_violation.
    + intros Hv. apply perform_pass; [|assumption].
      destruct op; try reflexivity; discriminate.
  - intros b s. refine (conj _ (conj _ (conj _ (conj _ _)))).
    + now apply perform_violation.
    + reflexivity.
    + now apply perform_violation.
    + reflexivity.
    + now apply perform_pass.
Qed.

Lemma C2_matching_modes_witness :
  is_creation (OpCreateDirectory Stdio "/switch/prod.keys") = true /\
  perform (P:=sample) (DL:=lists ["/backup"] ["/switch/prod.keys"])
    (OpCreateDirectory Stdio "/switch/prod.keys") false (MemFs.empty, [])
  = perform (P:=sample) (DL:=lists ["/backup"] [])
    (OpCreateDirectory Stdio "/switch/prod.keys") false (MemFs.empty, []).
Proof.
  split; [reflexivity|].
  apply (proj1 (proj2 (proj2 (proj2 (C2_matching_modes sample))))).
  reflexivity.
Defined.

(** C10.  [copy_entire_file] applies the policy to the destination only.
    A protected destination without the override is refused with
    [Result_FsReadOnly] before anything is read (no call is made).  The
    source plays no part: two policies that agree on the destination
    give the same run, whatever they say of the source. *)
Theorem C10_copy_checks_destination_only (P : Platform)
    (fs : FsFileSystem) (dst src : string) (s : State) :
  (forall DL : DenyLists, is_read_only dst = true ->
      copy_entire_file_native fs dst src false s = (Result_FsReadOnly, s) /\
      copy_entire_file_stdio dst src false s = (Result_FsReadOnly, s)) /\
  (forall (DL1 DL2 : DenyLists) ign,
      @is_read_only DL1 dst = @is_read_only DL2 dst ->
      copy_entire_file_native (DL:=DL1) fs dst src ign s
        = copy_entire_file_native (DL:=DL2) fs dst src ign s /\
      copy_entire_file_stdio (DL:=DL1) dst src ign s
        = copy_entire_file_stdio (DL:=DL2) dst src ign s).
Proof.
  split.
  - intros DL H. split.
    + apply (some_inj _ (ret Result_FsReadOnly)).
      apply (perform_violation (Op_copy_entire_file (Native fs) dst src)), H.
    + apply (some_inj _ (ret Result_FsReadOnly)).
      apply (perform_violation (Op_copy_entire_file Stdio dst src)), H.
  - intros DL1 DL2 [|] H; [split; reflexivity|].
    destruct (@is_read_only DL2 dst) eqn:H2.
    + split.
      * transitivity (ret (P:=P) (@Result_FsReadOnly P) s); [|symmetry];
          apply (some_inj _ (ret Result_FsReadOnly));
          [apply (perform_violation (DL:=DL1)
                    (Op_copy_entire_file (Native fs) dst src)), H
          |apply (perform_violation (DL:=DL2)
                    (Op_copy_entire_file (Native fs) dst src)), H2].
      * transitivity (ret (P:=P) (@Result_FsReadOnly P) s); [|symmetry];
          apply (some_inj _ (ret Result_FsReadOnly));
          [apply (perform_violation (DL:=DL1)
                    (Op_copy_entire_file Stdio dst src)), H
          |apply (perform_violation (DL:=DL2)
                    (Op_copy_entire_file Stdio dst src)), H2].
    + split.
      * transitivity (copy_entire_file_native (DL:=DL1) fs dst src true s);
          [|transitivity (copy_entire_file_native (DL:=DL2) fs dst src true s);
            [reflexivity|symmetry]];
          apply some_inj;
          [apply (perform_pass (DL:=DL1)
                    (Op_copy_entire_file (Native fs) dst src))
          |apply (perform_pass (DL:=DL2)
                    (Op_copy_entire_file (Native fs) dst src))];
          try reflexivity; assumption.
      * transitivity (copy_entire_file_stdio (DL:=DL1) dst src true s);
          [|transitivity (copy_entire_file_stdio (DL:=DL2) dst src true s);
            [reflexivity|symmetry]];
          apply some_inj;
          [apply (perform_pass (DL:=DL1)
                    (Op_copy_entire_file Stdio dst src))
          |apply (perform_pass (DL:=DL2)
                    (Op_copy_entire_file Stdio dst src))];
          try reflexivity; assumption.
Qed.

Lemma C10_copy_checks_destination_only_witness :
  is_read_only "/atmosphere/package3" = true /\
  copy_entire_file_stdio (P:=sample) "/atmosphere/package3"
    "/switch/prod.keys" false (MemFs.empty, [])
  = (@Result_FsReadOnly sample, (MemFs.empty, [])).
Proof.
  split; [reflexivity|].
  apply (proj1 (C10_copy_checks_destination_only sample 1
                  "/atmosphere/package3" "/switch/prod.keys"
                  (MemFs.empty, []))).
  reflexivity.
Defined.

(** ** File::Read *)

(** C3.  On an open handle of the libc backend, for every offset and
    every requested length [n]: [File::Read] fails exactly when fewer
    than [n] bytes were read, the stream is not at end-of-file and its
    error flag is set; in particular a short read at end-of-file is a
    success that reports the [bytes_read < n] bytes read. *)
Theorem C3_short_read (P : Platform) (f : File) (fs : Fs)
    (off n option : Z) (s : State) :
  Result_FsUnknownStdioError <> 0 ->
  m_fs f = Some fs -> IsNative fs = false ->
  short_read_rule f off n option s.
Proof.
  intros Hcode Hfs Hnat. unfold short_read_rule, File_Read.
  rewrite Hfs, Hnat. destruct s as [w t]. unfold bind, call, ret; simpl.
  destruct (m_stdio_off f =? off); simpl;
    [|destruct (exec (fseek (m_stdio f) off SEEK_SET) w) as [sk w1]; simpl];
    match goal with |- context [exec (fread _ _) ?w0] =>
      destruct (exec (fread (m_stdio f) n) w0) as [data w2]; simpl end;
    destruct (exec (feof (m_stdio f)) w2) as [eof w3] eqn:He;
    destruct (exec (ferror (m_stdio f)) w3) as [err w4] eqn:Hr;
    (destruct (Z.of_nat (List.length data) <? n) eqn:Hlt; simpl;
     [ rewrite He; simpl; apply Z.ltb_lt in Hlt;
       destruct (eof =? 0) eqn:He0; simpl;
       [ rewrite Hr; simpl; apply Z.eqb_eq in He0;
         destruct (err =? 0) eqn:Hr0; simpl;
         [ apply Z.eqb_eq in Hr0 | apply Z.eqb_neq in Hr0 ]
       | apply Z.eqb_neq in He0 ]
     | apply Z.ltb_ge in Hlt ]);
    unfold R_FAILED; rewrite ?negb_true_iff, ?Z.eqb_neq, ?Z.eqb_refl;
    repeat split; intros; try reflexivity; try lia; try discriminate;
    try assumption; try (intuition (try lia; try discriminate)).
Qed.

Lemma C3_short_read_witness :
  let '(f, s) := opened_for_read (one_file [x01; x02; x03]) in
  @Result_FsUnknownStdioError sample <> 0 /\
  m_fs f = Some (FsStdio true) /\ IsNative (FsStdio true) = false /\
  short_read_rule (P:=sample) f 0 5 0 s.
Proof.
  split; [simpl; lia|]. split; [reflexivity|]. split; [reflexivity|].
  apply (C3_short_read sample _ (FsStdio true));
    [simpl; lia | reflexivity | reflexivity].
Defined.

(** Five bytes asked of a three-byte file: success, three bytes. *)
Example File_Read_at_eof :
  let '(f, s) := opened_for_read (one_file [x01; x02; x03]) in
  let '(rc, buf, bytes_read, _) := fst (File_Read (P:=sample) f 0 5 0 s) in
  rc = 0 /\ buf = [x01; x02; x03] /\ bytes_read = 3.
Proof. vm_compute. repeat split. Qed.

(** The same read on a failing device: no byte, no end-of-file, the
    error flag set: the read fails. *)
Example File_Read_io_fault :
  let w := one_file [x01; x02; x03] in
  let w := MemFs.mk (MemFs.nodes w) (MemFs.fds w) (MemFs.files w)
             (MemFs.dirs w) (MemFs.next_handle w) (MemFs.last_result w)
             true true in
  let '(f, s) := opened_for_read w in
  let '(rc, _, bytes_read, _) := fst (File_Read (P:=sample) f 0 5 0 s) in
  rc = @Result_FsUnknownStdioError sample /\ bytes_read = 0.
Proof. vm_compute. repeat split. Qed.

(** ** CreateFile on a path that exists *)

(** On [MemFs], whatever the application's codes are: the libc
    [CreateFile] of a path holding a file opens that file
    ([O_WRONLY | O_CREAT], no [O_EXCL]) and reports success. *)
Lemma CreateFile_stdio_existing (ro unk na : Result) {DL : DenyLists}
    (w : MemFs.t) (path : string) (size : Z) (c : list byte)
    (t : list Event) :
  0 < MemFs.next_handle w ->
  is_empty path = false ->
  MemFs.node_at (MemFs.resolve path) w = Some (MemFs.NFile c) ->
  is_read_only_root path = false ->
  fst (CreateFile_stdio (P:=memfs ro unk na) path size 0 false (w, t)) = 0.
Proof.
  intros Hh Hne Hnode Hro.
  unfold CreateFile_stdio, R_UNLESS. rewrite Hro; simpl.
  unfold bind, call; simpl. unfold MemFs.open_file. rewrite Hne, Hnode.
  simpl.
  replace (MemFs.next_handle w =? -1) with false by (symmetry; lia).
  destruct (size =? 0); simpl; [reflexivity|].
  unfold bind, call; simpl. rewrite Z.eqb_refl. reflexivity.
Qed.

(** C4.  [CreateFile] on a path where a file already exists, no policy
    being violated.  The native backend hands back the service's
    [FsError_PathAlreadyExists].  The libc backend does not: [open] is
    called with [O_WRONLY | O_CREAT] and without [O_EXCL], so it opens
    the existing file, the [errno == EEXIST] branch is never taken, the
    file is cut to the requested size and the operation reports success:
    so it is for every path holding a file in every [MemFs] world, and
    in particular on a world holding the three-byte file [/f]. *)
Theorem C4_CreateFile_on_existing_file :
  (forall (ro unk na : Result) (DL : DenyLists) (w : MemFs.t)
          (path : string) (size : Z) (c : list byte) (t : list Event),
     0 < MemFs.next_handle w ->
     is_empty path = false ->
     MemFs.node_at (MemFs.resolve path) w = Some (MemFs.NFile c) ->
     is_read_only_root path = false ->
     fst (CreateFile_stdio (P:=memfs ro unk na) path size 0 false (w, t))
       = 0) /\
  let w := one_file [x01; x02; x03] in
  is_read_only_root "/f" = false /\
  fst (run (P:=sample) (CreateFile_native 1 "/f" 1 0 false) w)
    = FsError_PathAlreadyExists /\
  (let '(rc, (w', trace)) :=
     run (P:=sample) (CreateFile_stdio "/f" 1 0 false) w in
   rc = 0 /\ rc <> FsError_PathAlreadyExists /\
   MemFs.nodes w' = [(["" ; "f"], MemFs.NFile [x01])] /\
   trace = [Ev (open "/f" (Z.lor O_WRONLY O_CREAT) DEFFILEMODE);
            Ev (ftruncate 3 1); Ev (close 3)]) /\
  Z.land (Z.lor O_WRONLY O_CREAT) O_EXCL = 0.
Proof.
  split.
  - intros ro unk na DL w path size c t.
    apply CreateFile_stdio_existing.
  - vm_compute. repeat split; discriminate.
Qed.

(** ** Dir::Read and Dir::ReadAll *)

(** The libc branch of [Dir::Read] calls nothing but [readdir]. *)
Lemma Dir_Read_stdio_trace {P : Platform} (fuel : nat) (d : Dir) (max : Z) :
  forall buf s,
    exists k,
      snd (snd (Dir_Read_stdio fuel d max buf s))
      = snd s ++ repeat (Ev (readdir (dir_stdio d))) k.
Proof.
  induction fuel as [|fuel IH]; intros buf s; simpl.
  - exists O. simpl. now rewrite app_nil_r.
  - unfold bind, call.
    destruct (exec (readdir (dir_stdio d)) (fst s)) as [e w'].
    set (s1 := (w', snd s ++ [Ev (readdir (dir_stdio d))])).
    assert (Hnext : forall buf', exists k,
      snd (snd (Dir_Read_stdio fuel d max buf' s1))
      = snd s ++ repeat (Ev (readdir (dir_stdio d))) k).
    { intros buf'. destruct (IH buf' s1) as [k Hk].
      exists (Datatypes.S k). rewrite Hk. subst s1; simpl.
      now rewrite <- app_assoc. }
    assert (Hstop : forall r : option (list FsDirectoryEntry), exists k,
      snd (snd (ret r s1))
      = snd s ++ repeat (Ev (readdir (dir_stdio d))) k).
    { intros r. exists 1%nat. reflexivity. }
    destruct e as [de|]; [|apply Hstop].
    repeat match goal with
           | |- context [if ?b then _ else _] => destruct b
           end; auto.
Qed.

(** C5.  [Dir::Read] on the libc backend never makes a metadata lookup:
    on any platform its only calls are [readdir].  On a listing whose
    entries carry [DT_UNKNOWN] it tags every such entry as a file, the
    directory [/d/sub] included, although [lstat] knows it for a
    directory, and it does so even when the handle was opened for
    directories only.  [Dir::ReadAll] drops every such entry, again
    without a lookup.  Evaluated on a world whose listing of [/d]
    reports no entry types. *)
Theorem C5_Dir_Read_unknown_type :
  (forall (P : Platform) fuel d max_entries buf (s : State),
     exists k,
       snd (snd (Dir_Read_stdio fuel d max_entries buf s))
       = snd s ++ repeat (Ev (readdir (dir_stdio d))) k) /\
  (let '(d, s) := opened_dir (Z.lor FsDirOpenMode_ReadDirs FsDirOpenMode_ReadFiles) in
   let '(r, (_, trace)) := Dir_Read (P:=sample) 10 d 8 s in
   r = Some (0, [ {| name := "file"; type := FsDirEntryType_File |};
                  {| name := "sub"; type := FsDirEntryType_File |} ]) /\
   existsb is_stat_call trace = false /\
   fst (call (P:=sample) (lstat "/d/sub") s) = (0, S_IFDIR) /\
   S_ISDIR S_IFDIR = true) /\
  (let '(d, s) := opened_dir FsDirOpenMode_ReadDirs in
   fst (Dir_Read (P:=sample) 10 d 8 s)
   = Some (0, [ {| name := "file"; type := FsDirEntryType_File |};
                {| name := "sub"; type := FsDirEntryType_File |} ])) /\
  (let '(d, s) := opened_dir (Z.lor FsDirOpenMode_ReadDirs FsDirOpenMode_ReadFiles) in
   let '(r, (_, trace)) := Dir_ReadAll (P:=sample) 10 d s in
   r = Some (0, []) /\ existsb is_stat_call trace = false).
Proof.
  split.
  - intros P fuel d max_entries buf s. apply Dir_Read_stdio_trace.
  - vm_compute. repeat split.
Qed.

(** ** The hash driving loop *)

Section HashProperties.
Context {S H ProgressBox : Type} {BS : BaseSource S} {HS : HashSource H}.

(** A transfer only reads and updates: it never finalizes and never
    touches the output string. *)
Lemma run_transfer_log (p : TransferPlan) :
  forall st : HashState S H,
    exists evs,
      hs_log (snd (run_transfer p st)) = hs_log st ++ evs /\
      ~ In EvGet evs /\
      hs_out (snd (run_transfer p st)) = hs_out st.
Proof.
  induction p as [rc|off size k IH|data off size k IH]; intros st; simpl.
  - exists []. rewrite app_nil_r. auto.
  - destruct (Read off size (hs_source st)) as [[[rc data] br] src].
    destruct (IH rc data br
                (mkHashState src (hs_hash st) (hs_out st)
                   (hs_log st ++ [EvRead off size]))) as [evs [Hl [Hn Ho]]].
    exists (EvRead off size :: evs). simpl in *.
    rewrite Hl, <- app_assoc. repeat split; auto.
    intros [Hc|Hc]; [discriminate | contradiction].
  - destruct (IH 0
                (mkHashState (hs_source st) (Update data size (hs_hash st))
                   (hs_out st) (hs_log st ++ [EvUpdate size])))
      as [evs [Hl [Hn Ho]]].
    exists (EvUpdate size :: evs). simpl in *.
    rewrite Hl, <- app_assoc. repeat split; auto.
    intros [Hc|Hc]; [discriminate | contradiction].
Qed.
End HashProperties.

(** C7.  For every hash computation, whatever the transfer does with
    its two callbacks: the result is the failure of [Size], else the
    failure of the transfer (a cancellation included), else success; on
    success the finalize step [Get] was run exactly once, as the last
    thing, and the output is what it produced; on any failure [Get] was
    not run at all and the output string is as it was. *)
Theorem C7_finalize_once {S H ProgressBox : Type}
    {BS : BaseSource S} {HS : HashSource H}
    (Transfer : ProgressBox -> Z -> TransferPlan)
    (pbox : ProgressBox) (st : HashState S H) :
  let '(rc, st') := Hash Transfer pbox st in
  (let '((rc_size, file_size), src) := Size (hs_source st) in
   if R_FAILED rc_size then rc = rc_size
   else
     let rc_transfer :=
       fst (run_transfer (Transfer pbox file_size)
              (mkHashState src (hs_hash st) (hs_out st)
                 (hs_log st ++ [EvSize]))) in
     if R_FAILED rc_transfer then rc = rc_transfer else rc = 0) /\
  exists evs,
    hs_log st' = hs_log st ++ evs /\
    (rc = 0 ->
       exists evs0, evs = evs0 ++ [EvGet] /\ ~ In EvGet evs0 /\
                    hs_out st' = Get (hs_hash st')) /\
    (rc <> 0 -> ~ In EvGet evs /\ hs_out st' = hs_out st).
Proof.
  unfold Hash.
  destruct (Size (hs_source st)) as [[rc_size file_size] src].
  destruct (R_FAILED rc_size) eqn:Hsz.
  - split; [reflexivity|]. exists [EvSize]. simpl.
    unfold R_FAILED in Hsz. apply negb_true_iff, Z.eqb_neq in Hsz.
    repeat split; try contradiction.
    intros [Hc|Hc]; [discriminate | contradiction].
  - set (st1 := mkHashState src (hs_hash st) (hs_out st)
                  (hs_log st ++ [EvSize])).
    destruct (run_transfer_log (Transfer pbox file_size) st1)
      as [evs [Hl [Hn Ho]]].
    destruct (run_transfer (Transfer pbox file_size) st1) as [rc_t st2].
    simpl in *. destruct (R_FAILED rc_t) eqn:Ht.
    + split; [reflexivity|]. exists (EvSize :: evs).
      unfold R_FAILED in Ht. apply negb_true_iff, Z.eqb_neq in Ht.
      rewrite Hl. subst st1; simpl. rewrite <- app_assoc.
      repeat split; try contradiction; auto.
      intros [Hc|Hc]; [discriminate | contradiction].
    + split; [reflexivity|]. exists ((EvSize :: evs) ++ [EvGet]).
      simpl. rewrite Hl. subst st1; simpl. rewrite <- !app_assoc.
      repeat split; try (intros; contradiction).
      intros _. exists (EvSize :: evs). repeat split.
      intros [Hc|Hc]; [discriminate | contradiction].
Qed.

(** A run over five bytes in chunks of two: cancelled after the first
    chunk, it returns the cancellation code, has not finalized and has
    left the output alone; not cancelled, it finalizes once, last. *)
Example Hash_cancelled :
  let T := fun (_ : unit) size =>
             chunked_transfer 100 2 0x999 (Some 1%nat) 0 size in
  let '(rc, st) :=
    Hash (HS:=HashCrc32 byte_sum) T tt
      (mkHashState [x01; x02; x03; x04; x05] 0 "" []) in
  rc = 0x999 /\ hs_out st = "" /\
  hs_log st = [EvSize; EvRead 0 2; EvUpdate 2].
Proof. vm_compute. repeat split. Qed.

Example Hash_completed :
  let T := fun (_ : unit) size => chunked_transfer 100 2 0x999 None 0 size in
  let '(rc, st) :=
    Hash (HS:=HashCrc32 byte_sum) T tt
      (mkHashState [x01; x02; x03; x04; x05] 0 "" []) in
  rc = 0 /\ hs_out st = "0000000f" /\
  hs_log st = [EvSize; EvRead 0 2; EvUpdate 2; EvRead 2 2; EvUpdate 2;
               EvRead 4 1; EvUpdate 1; EvGet].
Proof. vm_compute. repeat split. Qed.

(** ** MemSource::Read *)

Lemma to_s64_small (z : Z) : - 2 ^ 63 <= z < 2 ^ 63 -> to_s64 z = z.
Proof.
  intros Hz. unfold to_s64. rewrite Z.mod_small; lia.
Qed.

Lemma to_u64_small (z : Z) : 0 <= z < 2 ^ 64 -> to_u64 z = z.
Proof. intros Hz. unfold to_u64. now apply Z.mod_small. Qed.

(** C8, as the code has it.  Over a span of [S] bytes: for a negative
    offset or one at or past [S], [MemSource::Read] succeeds whatever
    length is requested, copies nothing and reports zero bytes; for an
    offset inside the span and every requested length [n >= 0] it
    succeeds, copies exactly [min n (S - off)] bytes from position [off]
    and reports that count.  Nothing is stored when the [bytes_read]
    pointer is null.  Nothing is said of a negative length at an offset
    inside the span, where the count handed to [memcpy] is past the
    span. *)
Theorem C8_MemSource_Read (m_data : list byte) (off n : Z) :
  Z.of_nat (List.length m_data) < 2 ^ 63 ->
  - 2 ^ 63 <= off < 2 ^ 63 ->
  let S := Z.of_nat (List.length m_data) in
  (off < 0 \/ S <= off ->
     MemSource_Read m_data off n true = (0, [], Some 0) /\
     MemSource_Read m_data off n false = (0, [], None)) /\
  (0 <= off < S -> 0 <= n ->
     let got := firstn (Z.to_nat (Z.min n (S - off)))
                  (skipn (Z.to_nat off) m_data) in
     MemSource_Read m_data off n true = (0, got, Some (Z.min n (S - off))) /\
     MemSource_Read m_data off n false = (0, got, None) /\
     Z.of_nat (List.length got) = Z.min n (S - off)).
Proof.
  intros HS Hoff. cbv zeta. unfold MemSource_Read.
  rewrite (to_s64_small (Z.of_nat (List.length m_data))) by lia.
  destruct (off <? 0) eqn:Hneg.
  - apply Z.ltb_lt in Hneg. split; [now intros _|]. intros H. lia.
  - apply Z.ltb_ge in Hneg.
    rewrite (to_s64_small (Z.of_nat (List.length m_data) - off)) by lia.
    destruct (Z.of_nat (List.length m_data) - off <=? 0) eqn:Hav.
    + apply Z.leb_le in Hav. split; [now intros _|]. intros H. lia.
    + apply Z.leb_gt in Hav. split; [intros [H|H]; lia|].
      intros _ Hn. rewrite to_u64_small by lia.
      split; [reflexivity|]. split; [reflexivity|].
      rewrite length_firstn, length_skipn. lia.
Qed.

Lemma C8_MemSource_Read_witness :
  MemSource_Read [x01; x02; x03; x04] 1 5 true
  = (0, [x02; x03; x04], Some 3) /\
  MemSource_Read [x01; x02; x03; x04] 7 5 true = (0, [], Some 0).
Proof.
  split.
  - exact (proj1 (proj2 (C8_MemSource_Read [x01; x02; x03; x04] 1 5
                           ltac:(simpl; lia) ltac:(lia))
                    ltac:(simpl; lia) ltac:(lia))).
  - exact (proj1 (proj1 (C8_MemSource_Read [x01; x02; x03; x04] 7 5
                           ltac:(simpl; lia) ltac:(lia))
                    ltac:(right; simpl; lia))).
Defined.

(** C8 as stated fails for a negative requested length: asked for [-1]
    bytes at offset 0 of a four-byte span, the code reports
    [2^64 - 1] bytes read, which is not [min (-1) (4 - 0)]. *)
Lemma C8_negative_length_counterexample :
  snd (MemSource_Read [x01; x02; x03; x04] 0 (-1) true)
    = Some 18446744073709551615 /\
  snd (MemSource_Read [x01; x02; x03; x04] 0 (-1) true)
    <> Some (Z.min (-1) (4 - 0)).
Proof.
  assert (H : snd (MemSource_Read [x01; x02; x03; x04] 0 (-1) true)
              = Some 18446744073709551615) by (lazy; reflexivity).
  split; [exact H|]. rewrite H. discriminate.
Qed.

(** ** AppendPath *)

Lemma c_str_no_nul (buf : list ascii) : no_nul (c_str buf) = true.
Proof.
  induction buf as [|c buf IH]; simpl; [reflexivity|].
  destruct (Ascii.eqb c NUL) eqn:E; simpl; [reflexivity|].
  now rewrite E, IH.
Qed.

Lemma no_nul_append (a b : string) :
  no_nul (a +:+ b) = no_nul a && no_nul b.
Proof.
  induction a as [|c a IH]; simpl; [reflexivity|].
  now rewrite IH, andb_assoc.
Qed.

Lemma no_nul_take (m : nat) (s : string) :
  no_nul s = true -> no_nul (take m s) = true.
Proof.
  revert s; induction m as [|m IH]; intros [|c s]; simpl; auto.
  intros [Hc Hs]%andb_true_iff. now rewrite Hc, IH.
Qed.

Lemma strip_leading_slashes_spec (s : string) :
  exists k, s = slashes k +:+ strip_leading_slashes s.
Proof.
  induction s as [|c s [k IH]]; simpl.
  - now exists O.
  - destruct (Ascii.eqb c slash) eqn:E.
    + apply Ascii.eqb_eq in E. subst c.
      exists (Datatypes.S k). simpl. now rewrite <- IH.
    + now exists O.
Qed.

Lemma strip_leading_slashes_head (s : string) :
  starts_with (strip_leading_slashes s) "/" = false.
Proof.
  induction s as [|c s IH]; simpl; [reflexivity|].
  destruct (Ascii.eqb c slash) eqn:E; [exact IH|].
  simpl. unfold slash in E. now rewrite E.
Qed.

Lemma no_nul_strip (s : string) :
  no_nul s = true -> no_nul (strip_leading_slashes s) = true.
Proof.
  destruct (strip_leading_slashes_spec s) as [k Hk].
  intros H. rewrite Hk, no_nul_append in H.
  now apply andb_true_iff in H.
Qed.

Lemma length_take (m : nat) (s : string) :
  (String.length (take m s) <= m)%nat.
Proof.
  revert s; induction m as [|m IH]; intros [|c s]; simpl; try lia.
  specialize (IH s). lia.
Qed.

Lemma length_list_ascii_of_string (s : string) :
  List.length (list_ascii_of_string s) = String.length s.
Proof. induction s; simpl; congruence. Qed.

Lemma c_str_terminated (t : string) (rest : list ascii) :
  no_nul t = true ->
  c_str (list_ascii_of_string t ++ NUL :: rest) = t.
Proof.
  induction t as [|c t IH]; simpl; [reflexivity|].
  intros [Hc Ht]%andb_true_iff. apply negb_true_iff in Hc.
  now rewrite Hc, IH.
Qed.

(** [snprintf] into a buffer of [size] characters: the text cut to
    [size - 1] characters, a NUL right after it, nothing past the end. *)
Lemma snprintf_spec (m : nat) (dst : list ascii) (text : string) :
  List.length dst = Datatypes.S m ->
  no_nul text = true ->
  let res := snprintf dst (Datatypes.S m) text in
  c_str res = take m text /\
  List.length res = Datatypes.S m /\
  nth_error res (String.length (take m text)) = Some NUL.
Proof.
  intros Hlen Hnn. cbv zeta. unfold snprintf.
  pose proof (length_take m text) as Hle.
  repeat split.
  - apply c_str_terminated. now apply no_nul_take.
  - rewrite length_app. cbn [List.length]. rewrite length_skipn.
    rewrite length_list_ascii_of_string. lia.
  - rewrite nth_error_app2; rewrite length_list_ascii_of_string; [|lia].
    now rewrite Nat.sub_diag.
Qed.

Lemma FsPath_snprintf (text : string) :
  no_nul text = true ->
  let res := snprintf (repeat NUL FS_MAX_PATH) FS_MAX_PATH text in
  c_str res = take (FS_MAX_PATH - 1) text /\
  List.length res = FS_MAX_PATH /\
  nth_error res (String.length (take (FS_MAX_PATH - 1) text)) = Some NUL.
Proof.
  intros H.
  exact (snprintf_spec 768 (repeat NUL FS_MAX_PATH) text
           (repeat_length _ _) H).
Qed.

Lemma is_empty_length (s : string) :
  Nat.eqb (String.length s) 0 = is_empty s.
Proof. now destruct s. Qed.

Lemma ends_with_slash_split (r : string) :
  ends_with_slash r = true -> exists r0, r = r0 +:+ "/".
Proof.
  induction r as [|c r IH]; [discriminate|].
  destruct r as [|d r].
  - simpl. intros E. apply Ascii.eqb_eq in E. subst c. now exists EmptyString.
  - intros E. destruct (IH E) as [r0 Hr0]. exists (String c r0).
    simpl. now rewrite <- Hr0.
Qed.

(** C9.  [AppendPath r f] strips every leading '/' of [f] and joins the
    two parts with one '/' between them: none when [r] is empty, none
    added when [r] already ends with one.  The result is a buffer of
    [FS_MAX_PATH] characters holding that text cut to
    [FS_MAX_PATH - 1] characters and followed by a NUL: it is always
    NUL-terminated within its capacity, and a text too long is truncated,
    never written past the end. *)
Theorem C9_AppendPath (r f : list ascii) :
  let root := c_str r in
  let file := strip_leading_slashes (c_str f) in
  let res := AppendPath r f in
  (exists k, c_str f = slashes k +:+ file) /\
  starts_with file "/" = false /\
  (is_empty root = true -> joined root file = file) /\
  (is_empty root = false ->
   exists r0, joined root file = r0 +:+ "/" +:+ file /\
              root = if ends_with_slash root then r0 +:+ "/" else r0) /\
  c_str res = take (FS_MAX_PATH - 1) (joined root file) /\
  List.length res = FS_MAX_PATH /\
  (String.length (c_str res) < FS_MAX_PATH)%nat /\
  nth_error res (String.length (c_str res)) = Some NUL.
Proof.
  cbv zeta.
  split; [apply strip_leading_slashes_spec|].
  split; [apply strip_leading_slashes_head|].
  split; [unfold joined; now intros ->|].
  split.
  { intros Hne. unfold joined. rewrite Hne.
    destruct (ends_with_slash (c_str r)) eqn:E.
    - destruct (ends_with_slash_split _ E) as [r0 Hr0]. exists r0.
      split; [|assumption]. rewrite Hr0 at 1. now rewrite append_assoc.
    - now exists (c_str r). }
  assert (Hf : no_nul (strip_leading_slashes (c_str f)) = true)
    by apply no_nul_strip, c_str_no_nul.
  pose proof (c_str_no_nul r) as Hr.
  assert (Hj : no_nul (joined (c_str r) (strip_leading_slashes (c_str f))) = true).
  { unfold joined. destruct (is_empty (c_str r)); [assumption|].
    destruct (ends_with_slash (c_str r));
      rewrite ?no_nul_append, Hr, Hf; reflexivity. }
  assert (Hres : AppendPath r f
                 = snprintf (repeat NUL FS_MAX_PATH) FS_MAX_PATH
                     (joined (c_str r) (strip_leading_slashes (c_str f)))).
  { unfold AppendPath, joined. rewrite is_empty_length.
    destruct (is_empty (c_str r)); [reflexivity|].
    destruct (ends_with_slash (c_str r)); reflexivity. }
  rewrite Hres.
  destruct (FsPath_snprintf _ Hj) as [Hc [Hl Hn]].
  rewrite Hc. repeat split; try assumption.
  pose proof (length_take (FS_MAX_PATH - 1)
                (joined (c_str r) (strip_leading_slashes (c_str f)))) as Hle.
  assert (0 < FS_MAX_PATH)%nat by (unfold FS_MAX_PATH; lia).
  lia.
Qed.

Example AppendPath_examples :
  c_str (AppendPath (FsPath_of "/a/b") (FsPath_of "//c/d")) = "/a/b/c/d" /\
  c_str (AppendPath (FsPath_of "") (FsPath_of "//c/d")) = "c/d" /\
  c_str (AppendPath (FsPath_of "/a/") (FsPath_of "c")) = "/a/c".
Proof. vm_compute. repeat split. Qed.

(** ** CreateDirectoryRecursively *)

(** *** The walk, on any platform *)

Section Walk.
Context {P : Platform} {DL : DenyLists}.
Variables (fs : option FsFileSystem) (ign : bool).






End Walk.

(** *** Strings: splitting and joining *)

Lemma strchr_append_none (a b : string) (c : ascii) :
  strchr a c = None -> strchr b c = None -> strchr (a +:+ b) c = None.
Proof.
  induction a as [|x a IH]; simpl; [auto|].
  destruct (Ascii.eqb x c); [discriminate|].
  destruct (strchr a c); [discriminate|].
  intros _ Hb. now rewrite (IH eq_refl Hb).
Qed.

Lemma split_on_not_nil (sep : ascii) (s : string) : split_on sep s <> [].
Proof.
  induction s as [|x s IH]; simpl; [discriminate|].
  destruct (Ascii.eqb x sep); [discriminate|].
  destruct (split_on sep s); [contradiction | discriminate].
Qed.


Lemma split_on_single (sep : ascii) (c : string) :
  strchr c sep = None -> split_on sep c = [c].
Proof.
  induction c as [|x c IH]; simpl; [reflexivity|].
  destruct (Ascii.eqb x sep); [discriminate|].
  destruct (strchr c sep); [discriminate|]. intros _.
  now rewrite (IH eq_refl).
Qed.














(** *** Directory creation on [MemFs] *)

Lemma key_eqb_refl (k : MemFs.key) : MemFs.key_eqb k k = true.
Proof.
  induction k as [|x k IH]; simpl; [reflexivity|].
  now rewrite String.eqb_refl, IH.
Qed.




Lemma resolve_not_nil (q : string) : MemFs.resolve q <> [].
Proof.
  unfold MemFs.resolve. now destruct (MemFs.split_device q).
Qed.


Section MemFsWalk.
Variables ro unk na : Result.
Context {DL : DenyLists}.
Let P : Platform := memfs ro unk na.





Hypothesis ro_failed : ro <> 0.
Hypothesis ro_not_exists : ro <> FsError_PathAlreadyExists.





End MemFsWalk.




(* ================================================================== *)
(** * Further properties of hasher.cpp *)

(** ** Hex printing *)

Lemma hex_digit_value (n : Z) :
  0 <= n < 16 -> hex_value (hex_digit n) = Some n.
Proof.
  intros H.
  assert (Hk : (Z.to_nat n < 16)%nat) by lia.
  replace n with (Z.of_nat (Z.to_nat n)) by lia.
  clear H. revert Hk. generalize (Z.to_nat n). intros k Hk.
  do 16 (destruct k as [|k]; [reflexivity|]). lia.
Qed.

Lemma nibbles (v : Z) :
  0 <= v < 256 ->
  0 <= Z.land (Z.shiftr v 4) 0xF < 16 /\
  0 <= Z.land v 0xF < 16 /\
  Z.land (Z.shiftr v 4) 0xF * 16 + Z.land v 0xF = v.
Proof.
  intros H.
  change 0xF with (Z.ones 4). rewrite !Z.land_ones by lia.
  rewrite Z.shiftr_div_pow2 by lia. change (2 ^ 4) with 16.
  pose proof (Z.mod_pos_bound (v / 16) 16 ltac:(lia)).
  pose proof (Z.mod_pos_bound v 16 ltac:(lia)).
  repeat split; try lia.
  rewrite (Z.mod_small (v / 16) 16).
  - pose proof (Z.div_mod v 16 ltac:(lia)). lia.
  - split; [apply Z.div_pos; lia|].
    apply Z.div_lt_upper_bound; lia.
Qed.

Lemma byte_range (b : byte) : 0 <= Z.of_N (Byte.to_N b) < 256.
Proof. destruct b; cbv; split; (discriminate || reflexivity). Qed.

Lemma decode_hex_from_app (a b : list ascii) (acc : Z) :
  decode_hex_from acc (string_of_list_ascii (a ++ b))
  = match decode_hex_from acc (string_of_list_ascii a) with
    | Some acc' => decode_hex_from acc' (string_of_list_ascii b)
    | None => None
    end.
Proof.
  revert acc; induction a as [|c a IH]; intros acc; simpl; [reflexivity|].
  destruct (hex_value c); [apply IH | reflexivity].
Qed.

Lemma length_string_of_list_ascii (l : list ascii) :
  String.length (string_of_list_ascii l) = List.length l.
Proof. induction l; simpl; congruence. Qed.

(** Two digits per byte, and the digits read back as the byte. *)
Lemma digest_hex_length (hash : list byte) :
  String.length (digest_hex hash) = (2 * List.length hash)%nat.
Proof.
  unfold digest_hex. rewrite length_string_of_list_ascii.
  induction hash as [|b hash IH]; simpl; [reflexivity|].
  rewrite IH. lia.
Qed.

Lemma digest_hex_decode (hash : list byte) :
  decode_bytes (digest_hex hash)
  = Some (map (fun b => Z.of_N (Byte.to_N b)) hash).
Proof.
  unfold digest_hex.
  induction hash as [|b hash IH]; [reflexivity|].
  cbn [flat_map app string_of_list_ascii decode_bytes map].
  destruct (nibbles _ (byte_range b)) as [Hh [Hl Hv]].
  rewrite (hex_digit_value _ Hh), (hex_digit_value _ Hl), IH.
  now rewrite Hv.
Qed.

Lemma length_resize (n : nat) (l : list byte) : List.length (resize n l) = n.
Proof.
  unfold resize. rewrite length_app, length_firstn, repeat_length. lia.
Qed.

(** [HashCrc32::Get]: for every 32-bit seed the string has eight
    characters, one less than [CalculateHashStrLen(sizeof(m_seed))], all
    lowercase hex digits, and it reads back as the seed. *)
Theorem HashCrc32_Get_round_trip (m_seed : Z) :
  0 <= m_seed < 2 ^ 32 ->
  Z.of_nat (String.length (HashCrc32_Get m_seed)) = CalculateHashStrLen 4 - 1 /\
  decode_hex (HashCrc32_Get m_seed) = Some m_seed.
Proof.
  intros H. split; [reflexivity|].
  unfold decode_hex, HashCrc32_Get.
  cbn [flat_map app string_of_list_ascii decode_hex_from].
  change ((4 - 1 - 0) * 8) with 24. change ((4 - 1 - 1) * 8) with 16.
  change ((4 - 1 - 2) * 8) with 8. change ((4 - 1 - 3) * 8) with 0.
  change 0xFF with (Z.ones 8).
  rewrite !(Z.land_ones _ 8) by lia.
  rewrite !Z.shiftr_div_pow2 with (n := 24) by lia.
  rewrite !Z.shiftr_div_pow2 with (n := 16) by lia.
  rewrite !Z.shiftr_div_pow2 with (n := 8) by lia.
  rewrite !Z.shiftr_div_pow2 with (n := 0) by lia.
  change (2 ^ 24) with 16777216. change (2 ^ 16) with 65536.
  change (2 ^ 8) with 256. change (2 ^ 0) with 1.
  set (b0 := (m_seed / 16777216) mod 256).
  set (b1 := (m_seed / 65536) mod 256).
  set (b2 := (m_seed / 256) mod 256).
  set (b3 := (m_seed / 1) mod 256).
  assert (R0 : 0 <= b0 < 256) by (apply Z.mod_pos_bound; lia).
  assert (R1 : 0 <= b1 < 256) by (apply Z.mod_pos_bound; lia).
  assert (R2 : 0 <= b2 < 256) by (apply Z.mod_pos_bound; lia).
  assert (R3 : 0 <= b3 < 256) by (apply Z.mod_pos_bound; lia).
  destruct (nibbles b0 R0) as [H0h [H0l E0]].
  destruct (nibbles b1 R1) as [H1h [H1l E1]].
  destruct (nibbles b2 R2) as [H2h [H2l E2]].
  destruct (nibbles b3 R3) as [H3h [H3l E3]].
  rewrite !hex_digit_value by assumption. cbv beta iota.
  f_equal.
  assert (Hseed : m_seed = ((b0 * 256 + b1) * 256 + b2) * 256 + b3).
  { subst b0 b1 b2 b3. change (2 ^ 32) with 4294967296 in H.
    rewrite Z.div_1_r.
    Z.to_euclidean_division_equations. lia. }
  clearbody b0 b1 b2 b3. lia.
Qed.

Lemma HashCrc32_Get_round_trip_witness :
  decode_hex (HashCrc32_Get 0x1a2b3c4d) = Some 0x1a2b3c4d.
Proof.
  exact (proj2 (HashCrc32_Get_round_trip 0x1a2b3c4d ltac:(lia))).
Defined.

(** The three digests print fixed-width strings: 32, 40 and 64
    characters, whatever the finish function hands back, each one less
    than [CalculateHashStrLen] of the digest size; the string reads back,
    pair by pair, as the bytes of the digest array. *)
Theorem digest_Get_fixed_width {ctx : Type}
    (update : ctx -> list byte -> Z -> ctx) (finish : ctx -> list byte)
    (m_ctx : ctx) :
  Z.of_nat (String.length (Get (HashSource := HashMd5 update finish) m_ctx))
    = CalculateHashStrLen 16 - 1 /\
  Z.of_nat (String.length (Get (HashSource := HashSha1 update finish) m_ctx))
    = CalculateHashStrLen 20 - 1 /\
  Z.of_nat (String.length (Get (HashSource := HashSha256 update finish) m_ctx))
    = CalculateHashStrLen 32 - 1 /\
  decode_bytes (Get (HashSource := HashMd5 update finish) m_ctx)
    = Some (map (fun b => Z.of_N (Byte.to_N b))
              (resize MD5_HASH_SIZE (finish m_ctx))) /\
  decode_bytes (Get (HashSource := HashSha1 update finish) m_ctx)
    = Some (map (fun b => Z.of_N (Byte.to_N b))
              (resize SHA1_HASH_SIZE (finish m_ctx))) /\
  decode_bytes (Get (HashSource := HashSha256 update finish) m_ctx)
    = Some (map (fun b => Z.of_N (Byte.to_N b))
              (resize SHA256_HASH_SIZE (finish m_ctx))).
Proof.
  cbn [Get HashMd5 HashSha1 HashSha256].
  rewrite !digest_hex_length, !length_resize, !digest_hex_decode.
  repeat split.
Qed.

(** ** The memory-backed source, read in chunks *)

(** For an offset and a length that are not negative, [MemSource::Read]
    hands back the slice of the span at that offset, of that length or
    as much of it as there is. *)
Lemma MemSource_Read_slice (m_data : list byte) (off n : Z) :
  Z.of_nat (List.length m_data) < 2 ^ 63 ->
  0 <= off < 2 ^ 63 -> 0 <= n ->
  MemSource_Read m_data off n true
  = (0, firstn (Z.to_nat n) (skipn (Z.to_nat off) m_data),
     Some (Z.of_nat (List.length
             (firstn (Z.to_nat n) (skipn (Z.to_nat off) m_data))))).
Proof.
  intros HS Hoff Hn. unfold MemSource_Read.
  rewrite (to_s64_small (Z.of_nat (List.length m_data))) by lia.
  rewrite (to_s64_small (Z.of_nat (List.length m_data) - off)) by lia.
  replace (off <? 0) with false by (symmetry; lia).
  assert (Hlen : List.length (skipn (Z.to_nat off) m_data)
                 = (List.length m_data - Z.to_nat off)%nat)
    by apply length_skipn.
  destruct (Z.of_nat (List.length m_data) - off <=? 0) eqn:Hav.
  - apply Z.leb_le in Hav.
    assert (Hnil : skipn (Z.to_nat off) m_data = [])
      by (apply skipn_all2; lia).
    rewrite Hnil, firstn_nil. reflexivity.
  - apply Z.leb_gt in Hav.
    rewrite to_u64_small by lia.
    assert (Hf : firstn (Z.to_nat (Z.min n (Z.of_nat (List.length m_data) - off)))
                   (skipn (Z.to_nat off) m_data)
                 = firstn (Z.to_nat n) (skipn (Z.to_nat off) m_data)).
    { destruct (Z.le_gt_cases n (Z.of_nat (List.length m_data) - off)).
      - now rewrite Z.min_l by lia.
      - rewrite Z.min_r by lia.
        rewrite !firstn_all2; [reflexivity | lia | lia]. }
    rewrite Hf. f_equal. f_equal.
    rewrite length_firstn, Hlen. lia.
Qed.

(** Reading [n] bytes at [off] and then [m] bytes at [off + n] gives,
    end to end, what one read of [n + m] bytes at [off] gives, and the
    counts add up; reading [Size] bytes at offset 0 gives the whole
    span. *)
Theorem MemSource_Read_chunks (m_data : list byte) (off n m : Z) :
  Z.of_nat (List.length m_data) < 2 ^ 63 ->
  0 <= off -> 0 <= n -> 0 <= m -> off + n < 2 ^ 63 ->
  let '(_, buf1, read1) := MemSource_Read m_data off n true in
  let '(_, buf2, read2) := MemSource_Read m_data (off + n) m true in
  let '(_, buf, read) := MemSource_Read m_data off (n + m) true in
  buf = buf1 ++ buf2 /\
  (exists r1 r2, read1 = Some r1 /\ read2 = Some r2 /\ read = Some (r1 + r2)) /\
  snd (fst (MemSource_Read m_data 0 (snd (MemSource_Size m_data)) true))
    = m_data.
Proof.
  intros HS Hoff Hn Hm Hsum.
  rewrite !MemSource_Read_slice by lia.
  assert (Hcat : firstn (Z.to_nat (n + m)) (skipn (Z.to_nat off) m_data)
                 = firstn (Z.to_nat n) (skipn (Z.to_nat off) m_data)
                   ++ firstn (Z.to_nat m) (skipn (Z.to_nat (off + n)) m_data)).
  { rewrite !Z2Nat.inj_add by lia.
    rewrite (Nat.add_comm (Z.to_nat off)), <- skipn_skipn.
    generalize (skipn (Z.to_nat off) m_data) as l. intros l.
    rewrite <- (firstn_skipn (Z.to_nat n) l) at 1.
    rewrite firstn_app.
    destruct (Nat.le_gt_cases (Z.to_nat n) (List.length l)) as [Hle|Hgt].
    - rewrite length_firstn, Nat.min_l by assumption.
      rewrite firstn_all2 by (rewrite length_firstn; lia).
      f_equal. f_equal. lia.
    - rewrite (skipn_all2 l) by lia. rewrite ?firstn_nil, ?app_nil_r.
      rewrite ?(firstn_all2 l) by lia.
      rewrite ?firstn_all2 by (rewrite ?length_firstn; lia).
      reflexivity. }
  split; [exact Hcat|]. split.
  - do 2 eexists. split; [reflexivity|]. split; [reflexivity|].
    rewrite Hcat, length_app. f_equal. lia.
  - unfold MemSource_Size. cbn [snd].
    rewrite (to_s64_small (Z.of_nat (List.length m_data))) by lia.
    rewrite MemSource_Read_slice by lia.
    cbn [fst snd]. rewrite Nat2Z.id. apply firstn_all.
Qed.

Lemma MemSource_Read_chunks_witness :
  snd (fst (MemSource_Read [x01; x02; x03; x04; x05] 1 4 true))
  = snd (fst (MemSource_Read [x01; x02; x03; x04; x05] 1 3 true))
    ++ snd (fst (MemSource_Read [x01; x02; x03; x04; x05] 4 1 true)).
Proof.
  pose proof (MemSource_Read_chunks [x01; x02; x03; x04; x05] 1 3 1
                ltac:(simpl; lia) ltac:(lia) ltac:(lia) ltac:(lia)
                ltac:(lia)) as H.
  change (1 + 3) with 4 in H. change (3 + 1) with 4 in H.
  destruct (MemSource_Read [x01; x02; x03; x04; x05] 1 3 true)
    as [[rc1 b1] r1].
  destruct (MemSource_Read [x01; x02; x03; x04; x05] 4 1 true)
    as [[rc2 b2] r2].
  destruct (MemSource_Read [x01; x02; x03; x04; x05] 1 4 true)
    as [[rc b] r].
  exact (proj1 H).
Defined.

(** ** The file-backed source *)

(** When the file could not be opened as the source was built, [Size]
    and [Read] report that same failure for ever after, [Read] with zero
    bytes, and neither calls anything, not even the throttling sleep. *)
Theorem FileSource_open_failure_sticks {P : Platform}
    (IsFileBaseEmummc : M bool) (svcSleepThread : Z -> M unit)
    (fs : Fs) (path : string) (s : State) :
  let '(src, _) := FileSource_new IsFileBaseEmummc fs path s in
  src_open_result src
    = fst (fst (OpenFile fs path FsOpenMode_Read File_default s)) /\
  (R_FAILED (src_open_result src) = true ->
   forall (off size : Z) (s' : State),
     FileSource_Size src s' = ((src_open_result src, 0), s') /\
     FileSource_Read svcSleepThread src off size s'
       = ((src_open_result src, [], 0, src), s')).
Proof.
  unfold FileSource_new, bind, ret.
  destruct (OpenFile fs path FsOpenMode_Read File_default s) as [[rc f] s1].
  destruct (IsFileBaseEmummc s1) as [e s2]. cbn [fst src_open_result].
  split; [reflexivity|]. intros Hf off size s'.
  unfold FileSource_Size, FileSource_Read. cbn [src_open_result].
  rewrite Hf. split; reflexivity.
Qed.

Lemma FileSource_open_failure_sticks_witness :
  let '(src, _) :=
    FileSource_new (P:=sample) (ret false) (FsStdio true) "/missing"
      (MemFs.empty, []) in
  R_FAILED (src_open_result src) = true /\
  FileSource_Read (P:=sample) (fun _ => ret tt) src 0 16 (MemFs.empty, [])
  = ((src_open_result src, [], 0, src), (MemFs.empty, [])).
Proof.
  pose proof (FileSource_open_failure_sticks (P:=sample) (ret false)
                (fun _ => ret tt) (FsStdio true) "/missing"
                (MemFs.empty, [])) as H.
  destruct (FileSource_new (P:=sample) (ret false) (FsStdio true) "/missing"
              (MemFs.empty, [])) as [src s1] eqn:E.
  assert (Hf : R_FAILED (src_open_result src) = true).
  { vm_compute in E. injection E as <- _. reflexivity. }
  split; [exact Hf|].
  exact (proj2 (proj2 H Hf 0 16 (MemFs.empty, []))).
Defined.

(* ================================================================== *)
(** * Further properties of fs.cpp *)

(** ** Handles *)

(** Closing twice is closing once: after [Close], a second [Close] calls
    nothing and leaves the handle as it is; for files and for
    directories, on both backends. *)
Theorem Close_idempotent {P : Platform} (fsDirClose : FsDir -> M unit)
    (f : File) (d : Dir) (s : State) :
  (let '(f1, s1) := File_Close f s in File_Close f1 s1 = (f1, s1)) /\
  (let '(d1, s1) := Dir_Close fsDirClose d s in
   Dir_Close fsDirClose d1 s1 = (d1, s1)).
Proof.
  split.
  - unfold File_Close.
    destruct (m_fs f) as [fs|] eqn:Hfs; [|unfold ret; now rewrite Hfs].
    destruct (IsNative fs) eqn:Hn.
    + destruct (serviceIsActive (m_native f)) eqn:Ha.
      * unfold bind.
        destruct (call (fsFileClose (m_native f)) s) as [u s0].
        destruct ((if has_flag (m_mode f) FsOpenMode_Write
                   then Fs_Commit fs else ret tt) s0) as [u' s1].
        unfold ret. cbn [m_fs m_native]. now rewrite Hn.
      * unfold ret. now rewrite Hfs, Hn, Ha.
    + destruct (negb (m_stdio f =? 0)) eqn:Hs.
      * unfold bind. destruct (call (fclose (m_stdio f)) s) as [u s1].
        unfold ret. cbn [m_fs m_stdio]. now rewrite Hn.
      * unfold ret. now rewrite Hfs, Hn, Hs.
  - unfold Dir_Close.
    destruct (dir_fs d) as [fs|] eqn:Hfs; [|unfold ret; now rewrite Hfs].
    destruct (IsNative fs) eqn:Hn.
    + destruct (serviceIsActive (dir_native d)) eqn:Ha.
      * unfold bind. destruct (fsDirClose (dir_native d) s) as [u s1].
        unfold ret. cbn [dir_fs dir_native]. now rewrite Hn.
      * unfold ret. now rewrite Hfs, Hn, Ha.
    + destruct (negb (dir_stdio d =? 0)) eqn:Hs.
      * unfold bind. destruct (call (closedir (dir_stdio d)) s) as [u s1].
        unfold ret. cbn [dir_fs dir_stdio]. now rewrite Hn.
      * unfold ret. now rewrite Hfs, Hn, Hs.
Qed.

(** One [File::Read] on the libc backend: it seeks first exactly when the
    offset asked for is not the tracked one, never otherwise, and after a
    success the tracked offset is the offset just past what was read. *)
Lemma File_Read_stdio_offset {P : Platform} (f : File) (fs : Fs)
    (off n option : Z) (s : State) :
  Result_FsUnknownStdioError <> 0 ->
  m_fs f = Some fs -> IsNative fs = false ->
  let '((rc, _, bytes_read, f1), s1) := File_Read f off n option s in
  m_fs f1 = m_fs f /\
  (rc = 0 -> m_stdio_off f1 = off + bytes_read) /\
  exists evs,
    snd s1 = snd s
             ++ (if m_stdio_off f =? off then []
                 else [Ev (fseek (m_stdio f) off SEEK_SET)])
             ++ evs /\
    existsb is_fseek evs = false.
Proof.
  intros Hcode Hfs Hnat. unfold File_Read. rewrite Hfs, Hnat.
  destruct s as [w t]. unfold bind, call, ret; simpl.
  destruct (m_stdio_off f =? off) eqn:Hoff; simpl;
    [|destruct (exec (fseek (m_stdio f) off SEEK_SET) w) as [sk w1]; simpl];
    match goal with |- context [exec (fread _ _) ?w0] =>
      destruct (exec (fread (m_stdio f) n) w0) as [data w2]; simpl end;
    (destruct (Z.of_nat (List.length data) <? n); simpl;
     [ destruct (exec (feof (m_stdio f)) w2) as [eof w3]; simpl;
       destruct (eof =? 0); simpl;
       [ destruct (exec (ferror (m_stdio f)) w3) as [err w4]; simpl;
         destruct (err =? 0); simpl
       | ]
     | ]);
    (split; [first [reflexivity | assumption | symmetry; assumption]|]);
    (split; [intros; try reflexivity; try contradiction|]);
    try (apply Z.eqb_eq in Hoff; subst off);
    rewrite <- ?app_assoc; simpl;
    eexists; (split; [reflexivity|reflexivity]).
Qed.

(** Reads that follow one another never seek: a read at the tracked
    offset calls no [fseek], and after a successful read the read of the
    next bytes, at the offset just past those read, calls none either. *)
Theorem File_Read_sequential_no_seek {P : Platform} (f : File) (fs : Fs)
    (off n n' option option' : Z) (s : State) :
  Result_FsUnknownStdioError <> 0 ->
  m_fs f = Some fs -> IsNative fs = false ->
  let '((rc, _, bytes_read, f1), s1) := File_Read f off n option s in
  (m_stdio_off f = off ->
   exists evs, snd s1 = snd s ++ evs /\ existsb is_fseek evs = false) /\
  (rc = 0 ->
   let '(_, s2) := File_Read f1 (off + bytes_read) n' option' s1 in
   exists evs, snd s2 = snd s1 ++ evs /\ existsb is_fseek evs = false).
Proof.
  intros Hcode Hfs Hnat.
  pose proof (File_Read_stdio_offset f fs off n option s Hcode Hfs Hnat) as H1.
  destruct (File_Read f off n option s) as [[[[rc buf] br] f1] s1].
  destruct H1 as [Hfs1 [Hoff1 [evs [Ht He]]]]. split.
  - intros Heq. apply Z.eqb_eq in Heq. rewrite Heq in Ht.
    now exists evs.
  - intros Hrc.
    pose proof (File_Read_stdio_offset f1 fs (off + br) n' option' s1 Hcode
                  ltac:(congruence) Hnat) as H2.
    destruct (File_Read f1 (off + br) n' option' s1) as [[[[rc2 b2] br2] f2] s2].
    destruct H2 as [_ [_ [evs2 [Ht2 He2]]]].
    rewrite (Hoff1 Hrc), Z.eqb_refl in Ht2. now exists evs2.
Qed.

Lemma File_Read_sequential_no_seek_witness :
  let '(f, s) := opened_for_read (one_file [x01; x02; x03]) in
  let '((rc, _, bytes_read, f1), s1) := File_Read (P:=sample) f 0 2 0 s in
  rc = 0 /\
  let '(_, s2) := File_Read (P:=sample) f1 (0 + bytes_read) 2 0 s1 in
  exists evs, snd s2 = snd s1 ++ evs /\ existsb is_fseek evs = false.
Proof.
  pose proof (File_Read_sequential_no_seek (P:=sample)
                (fst (opened_for_read (one_file [x01; x02; x03])))
                (FsStdio true) 0 2 2 0 0
                (snd (opened_for_read (one_file [x01; x02; x03])))
                ltac:(simpl; lia) eq_refl eq_refl) as H.
  destruct (opened_for_read (one_file [x01; x02; x03])) as [f s] eqn:E.
  cbn [fst snd] in H.
  destruct (File_Read (P:=sample) f 0 2 0 s) as [[[[rc buf] br] f1] s1] eqn:E1.
  assert (Hrc : rc = 0).
  { vm_compute in E. injection E as <- <-. vm_compute in E1.
    now injection E1 as <- _ _ _ _. }
  split; [exact Hrc|]. exact (proj2 H Hrc).
Defined.

(** One [File::Write] on the libc backend: an [fseek] first exactly when
    the offset asked for is not the tracked one, then a single [fwrite] of
    the whole buffer; success moves the tracked offset past the buffer and
    a failure is [Result_FsUnknownStdioError]. *)
Lemma File_Write_stdio_offset {P : Platform} (f : File) (fs : Fs)
    (off : Z) (buf : list byte) (option : Z) (s : State) :
  Result_FsUnknownStdioError <> 0 ->
  m_fs f = Some fs -> IsNative fs = false ->
  let '((rc, f1), s1) := File_Write f off buf option s in
  m_fs f1 = Some fs /\ m_stdio f1 = m_stdio f /\
  (rc = 0 -> m_stdio_off f1 = off + Z.of_nat (List.length buf)) /\
  (rc <> 0 -> rc = Result_FsUnknownStdioError /\ m_stdio_off f1 = off) /\
  snd s1 = snd s
           ++ (if m_stdio_off f =? off then []
               else [Ev (fseek (m_stdio f) off SEEK_SET)])
           ++ [Ev (fwrite (m_stdio f) buf)].
Proof.
  intros Hcode Hfs Hnat. unfold File_Write. rewrite Hfs, Hnat.
  destruct s as [w t]. unfold bind, call, ret; simpl.
  destruct (m_stdio_off f =? off) eqn:Hoff; simpl;
    [|destruct (exec (fseek (m_stdio f) off SEEK_SET) w) as [sk w1]; simpl];
    match goal with |- context [exec (fwrite _ _) ?w0] =>
      destruct (exec (fwrite (m_stdio f) buf) w0) as [res w2]; simpl end;
    destruct (res =? Z.of_nat (List.length buf)); simpl;
    try (apply Z.eqb_eq in Hoff; subst off);
    rewrite <- ?app_assoc; simpl;
    (split; [first [reflexivity | assumption]|]);
    (split; [reflexivity|]);
    (split; [intros; try reflexivity; try contradiction|]);
    (split; [intros Hrc; try (now contradiction Hrc); now split|]);
    reflexivity.
Qed.

(** Writes that follow one another never seek: after a successful write
    of [buf] at [off], the write at the offset just past it makes the one
    call [fwrite], and a read there calls no [fseek]. *)
Theorem File_Write_sequential_no_seek {P : Platform} (f : File) (fs : Fs)
    (off : Z) (buf buf' : list byte) (n option option' : Z) (s : State) :
  Result_FsUnknownStdioError <> 0 ->
  m_fs f = Some fs -> IsNative fs = false ->
  let '((rc, f1), s1) := File_Write f off buf option s in
  rc = 0 ->
  (let '(_, s2) :=
     File_Write f1 (off + Z.of_nat (List.length buf)) buf' option' s1 in
   snd s2 = snd s1 ++ [Ev (fwrite (m_stdio f) buf')]) /\
  (let '(_, s2) :=
     File_Read f1 (off + Z.of_nat (List.length buf)) n option' s1 in
   exists evs, snd s2 = snd s1 ++ evs /\ existsb is_fseek evs = false).
Proof.
  intros Hcode Hfs Hnat.
  pose proof (File_Write_stdio_offset f fs off buf option s Hcode Hfs Hnat)
    as H1.
  destruct (File_Write f off buf option s) as [[rc f1] s1].
  destruct H1 as [Hfs1 [Hst1 [Hoff1 [_ Ht1]]]]. intros Hrc.
  specialize (Hoff1 Hrc). split.
  - pose proof (File_Write_stdio_offset f1 fs
                  (off + Z.of_nat (List.length buf)) buf' option' s1
                  Hcode Hfs1 Hnat) as H2.
    destruct (File_Write f1 _ buf' option' s1) as [[rc2 f2] s2].
    destruct H2 as [_ [_ [_ [_ Ht2]]]].
    now rewrite Hoff1, Z.eqb_refl, Hst1 in Ht2.
  - pose proof (File_Read_stdio_offset f1 fs
                  (off + Z.of_nat (List.length buf)) n option' s1
                  Hcode Hfs1 Hnat) as H2.
    destruct (File_Read f1 _ n option' s1) as [[[[rc2 b2] br2] f2] s2].
    destruct H2 as [_ [_ [evs [Ht2 He2]]]].
    rewrite Hoff1, Z.eqb_refl in Ht2. now exists evs.
Qed.

Lemma File_Write_sequential_no_seek_witness :
  let '((_, f), s) :=
    run (P:=sample)
      (OpenFile (FsStdio true) "/f" FsOpenMode_Write File_default)
      (one_file [x01; x02; x03]) in
  let '((rc, f1), s1) := File_Write (P:=sample) f 1 [x0a; x0b] 0 s in
  rc = 0 /\
  (let '(_, s2) := File_Write (P:=sample) f1 (1 + 2) [x0c] 0 s1 in
   snd s2 = snd s1 ++ [Ev (fwrite (m_stdio f) [x0c])]) /\
  (let '(_, s2) := File_Read (P:=sample) f1 (1 + 2) 4 0 s1 in
   exists evs, snd s2 = snd s1 ++ evs /\ existsb is_fseek evs = false).
Proof.
  destruct (run (P:=sample)
              (OpenFile (FsStdio true) "/f" FsOpenMode_Write File_default)
              (one_file [x01; x02; x03])) as [[rc0 f] s] eqn:E.
  pose proof (File_Write_sequential_no_seek (P:=sample) f (FsStdio true)
                1 [x0a; x0b] [x0c] 4 0 0 s ltac:(simpl; lia)) as H.
  assert (Hfs : m_fs f = Some (FsStdio true)).
  { vm_compute in E. now injection E as _ <- _. }
  specialize (H Hfs eq_refl).
  destruct (File_Write (P:=sample) f 1 [x0a; x0b] 0 s) as [[rc f1] s1] eqn:E1.
  assert (Hrc : rc = 0).
  { vm_compute in E. injection E as _ <- <-. vm_compute in E1.
    now injection E1 as <- _ _. }
  split; [exact Hrc|]. exact (H Hrc).
Defined.

(** ** Opening a file on the libc backend *)

(** [OpenFile] on the libc backend makes at most one call, an [fopen] of
    the path with mode "rb" or "rb+", never a creating or truncating
    mode; a mode with the write bit always opens "rb+"; the result is
    success exactly when the handle holds a stream afterwards.  With
    neither the read nor the write bit nothing is opened and the stream
    the handle held before is kept. *)
Theorem OpenFile_stdio_modes {P : Platform} {DL : DenyLists}
    (ign : bool) (path : string) (mode : Z) (f : File) (s : State) :
  Result_FsUnknownStdioError <> 0 ->
  let '((rc, f1), s1) := OpenFile (FsStdio ign) path mode f s in
  m_fs f1 = Some (FsStdio ign) /\ m_mode f1 = mode /\
  (rc = 0 <-> m_stdio f1 <> 0) /\
  (rc <> 0 -> rc = Result_FsUnknownStdioError) /\
  exists evs,
    snd s1 = snd s ++ evs /\
    (List.length evs <= 1)%nat /\
    forallb (is_fopen_for_update_or_read path) evs = true /\
    (has_flag mode FsOpenMode_Write = true ->
     evs = [Ev (fopen path "rb+")]) /\
    (has_flag mode FsOpenMode_Read = false ->
     has_flag mode FsOpenMode_Write = false ->
     evs = [] /\ m_stdio f1 = m_stdio f).
Proof.
  intros Hcode. unfold OpenFile. destruct s as [w t].
  unfold bind, call, ret; cbn [m_fs m_native m_stdio m_stdio_off m_mode].
  assert (Hpath : forallb (is_fopen_for_update_or_read path)
                    [Ev (fopen path "rb+")] = true
                  /\ forallb (is_fopen_for_update_or_read path)
                       [Ev (fopen path "rb")] = true).
  { cbn. rewrite String.eqb_refl. now split. }
  destruct Hpath as [Hrw Hr].
  destruct (has_flag mode FsOpenMode_Read) eqn:Hread;
    destruct (has_flag mode FsOpenMode_Write) eqn:Hwrite;
    cbn [andb fst snd];
    try match goal with |- context [exec (fopen path ?m) w] =>
      destruct (exec (fopen path m) w) as [p w1] end;
    cbn [fst snd];
    match goal with |- context [?p =? 0] =>
      destruct (p =? 0) eqn:Hp end;
    cbn [m_fs m_native m_stdio m_stdio_off m_mode fst snd];
    (split; [reflexivity|]); (split; [reflexivity|]);
    (split; [split; intros; try lia; try contradiction|]);
    (split; [intros; try reflexivity; try contradiction|]).
  all: try (eexists; split; [reflexivity|];
            split; [cbn; lia|]; split; [assumption || reflexivity|];
            split; [intros; (reflexivity || discriminate)|];
            intros; (discriminate || (split; reflexivity))).
  all: exists []; rewrite app_nil_r; repeat split; (discriminate || cbn; lia).
Qed.

Lemma OpenFile_stdio_modes_witness :
  let '((rc, f1), s1) :=
    OpenFile (P:=sample) (FsStdio true) "/f" FsOpenMode_Write File_default
      (one_file [x01], []) in
  m_fs f1 = Some (FsStdio true) /\ m_mode f1 = FsOpenMode_Write /\
  (rc = 0 <-> m_stdio f1 <> 0) /\
  (rc <> 0 -> rc = 0x10002) /\
  exists evs,
    snd s1 = [] ++ evs /\
    (List.length evs <= 1)%nat /\
    forallb (is_fopen_for_update_or_read "/f") evs = true /\
    (has_flag FsOpenMode_Write FsOpenMode_Write = true ->
     evs = [Ev (fopen "/f" "rb+")]) /\
    (has_flag FsOpenMode_Write FsOpenMode_Read = false ->
     has_flag FsOpenMode_Write FsOpenMode_Write = false ->
     evs = [] /\ m_stdio f1 = m_stdio File_default).
Proof.
  exact (OpenFile_stdio_modes (P:=sample) true "/f" FsOpenMode_Write
           File_default (one_file [x01], []) ltac:(simpl; lia)).
Defined.

(** ** Listings on the libc backend *)

Lemma forallb_snoc {A} (p : A -> bool) (l : list A) (a : A) :
  forallb p l = true -> p a = true -> forallb p (l ++ [a]) = true.
Proof. intros Hl Ha. rewrite forallb_app, Hl. cbn. now rewrite Ha. Qed.

(** The vector of [Dir::ReadAll] only grows, by admitted entries. *)
Lemma Dir_ReadAll_stdio_admitted {P : Platform} (d : Dir) (fuel : nat) :
  forall (buf : list FsDirectoryEntry) (s : State),
  match Dir_ReadAll_stdio fuel d buf s with
  | (Some out, _) =>
      exists added, out = buf ++ added /\
                    forallb (admitted (dir_mode d)) added = true
  | (None, _) => True
  end.
Proof.
  induction fuel as [|fuel IH]; intros buf s; [exact I|].
  cbn [Dir_ReadAll_stdio]. unfold bind at 1.
  destruct (call (readdir (dir_stdio d)) s) as [[de|] s1].
  2:{ unfold ret. exists []. now rewrite app_nil_r. }
  assert (Hgrow : forall ty,
    negb (is_dot_or_dotdot (d_name de)) = true ->
    ((ty =? FsDirEntryType_Dir) && has_flag (dir_mode d) FsDirOpenMode_ReadDirs
     || (ty =? FsDirEntryType_File)
        && has_flag (dir_mode d) FsDirOpenMode_ReadFiles) = true ->
    match Dir_ReadAll_stdio fuel d
            (buf ++ [{| name := d_name de; type := ty |}]) s1 with
    | (Some out, _) =>
        exists added, out = buf ++ added /\
                      forallb (admitted (dir_mode d)) added = true
    | (None, _) => True
    end).
  { intros ty Hn Hty.
    specialize (IH (buf ++ [{| name := d_name de; type := ty |}]) s1).
    destruct (Dir_ReadAll_stdio fuel d _ s1) as [[out|] s2]; [|exact I].
    destruct IH as [added [-> Hadd]].
    exists ({| name := d_name de; type := ty |} :: added).
    rewrite <- app_assoc. split; [reflexivity|].
    cbn [forallb]. rewrite Hadd, andb_true_r.
    unfold admitted. cbn [name type]. now rewrite Hn, Hty. }
  destruct (is_dot_or_dotdot (d_name de)) eqn:Hdot; [apply IH|].
  destruct (d_type de =? DT_DIR).
  - destruct (has_flag (dir_mode d) FsDirOpenMode_ReadDirs) eqn:Hm;
      cbn [negb]; [|apply IH].
    apply Hgrow; reflexivity.
  - destruct (d_type de =? DT_REG); [|apply IH].
    destruct (has_flag (dir_mode d) FsDirOpenMode_ReadFiles) eqn:Hm;
      cbn [negb]; [|apply IH].
    apply Hgrow; reflexivity.
Qed.

(** The buffer of [Dir::Read] only grows, by tagged entries, and stops
    at [max_entries] once it has room for one. *)
Lemma Dir_Read_stdio_tagged {P : Platform} (d : Dir) (max_entries : Z)
    (fuel : nat) :
  forall (buf : list FsDirectoryEntry) (s : State),
  match Dir_Read_stdio fuel d max_entries buf s with
  | (Some out, _) =>
      (exists added, out = buf ++ added /\
                     forallb (tagged (dir_mode d)) added = true) /\
      Z.of_nat (List.length out)
        <= Z.max (Z.of_nat (List.length buf) + 1) max_entries
  | (None, _) => True
  end.
Proof.
  induction fuel as [|fuel IH]; intros buf s; [exact I|].
  cbn [Dir_Read_stdio]. unfold bind at 1.
  destruct (call (readdir (dir_stdio d)) s) as [[de|] s1].
  2:{ unfold ret. split; [exists []; now rewrite app_nil_r|lia]. }
  assert (Hskip :
    match Dir_Read_stdio fuel d max_entries buf s1 with
    | (Some out, _) =>
        (exists added, out = buf ++ added /\
                       forallb (tagged (dir_mode d)) added = true) /\
        Z.of_nat (List.length out)
          <= Z.max (Z.of_nat (List.length buf) + 1) max_entries
    | (None, _) => True
    end) by apply IH.
  assert (Hstore : forall ty,
    negb (is_dot_or_dotdot (d_name de)) = true ->
    ((ty =? FsDirEntryType_Dir) && has_flag (dir_mode d) FsDirOpenMode_ReadDirs
     || (ty =? FsDirEntryType_File)) = true ->
    match
      (if max_entries
          <=? Z.of_nat
                (List.length (buf ++ [{| name := d_name de; type := ty |}]))
       then ret (Some (buf ++ [{| name := d_name de; type := ty |}]))
       else Dir_Read_stdio fuel d max_entries
              (buf ++ [{| name := d_name de; type := ty |}])) s1
    with
    | (Some out, _) =>
        (exists added, out = buf ++ added /\
                       forallb (tagged (dir_mode d)) added = true) /\
        Z.of_nat (List.length out)
          <= Z.max (Z.of_nat (List.length buf) + 1) max_entries
    | (None, _) => True
    end).
  { intros ty Hn Hty.
    assert (He : tagged (dir_mode d) {| name := d_name de; type := ty |}
                 = true).
    { unfold tagged. cbn [name type]. now rewrite Hn, Hty. }
    set (e := {| name := d_name de; type := ty |}) in *.
    assert (Hlen : Z.of_nat (List.length (buf ++ [e]))
                   = Z.of_nat (List.length buf) + 1).
    { rewrite length_app. cbn [List.length]. lia. }
    destruct (max_entries <=? Z.of_nat (List.length (buf ++ [e]))) eqn:Hmax.
    - unfold ret. split; [|lia].
      exists [e]. split; [reflexivity|]. cbn. now rewrite He.
    - apply Z.leb_gt in Hmax.
      specialize (IH (buf ++ [e]) s1).
      destruct (Dir_Read_stdio fuel d max_entries (buf ++ [e]) s1)
        as [[out|] s2]; [|exact I].
      destruct IH as [[added [-> Hadd]] Hb]. split; [|lia].
      exists (e :: added). rewrite <- app_assoc. split; [reflexivity|].
      cbn [forallb]. now rewrite He, Hadd. }
  destruct (is_dot_or_dotdot (d_name de)) eqn:Hdot; [exact Hskip|].
  destruct (d_type de =? DT_DIR).
  - destruct (has_flag (dir_mode d) FsDirOpenMode_ReadDirs) eqn:Hm;
      cbn [negb]; [|exact Hskip].
    apply Hstore; reflexivity.
  - destruct (d_type de =? DT_REG).
    + destruct (has_flag (dir_mode d) FsDirOpenMode_ReadFiles) eqn:Hm;
        cbn [negb]; [|exact Hskip].
      apply Hstore; reflexivity.
    + apply Hstore; reflexivity.
Qed.

(** What a listing through a libc handle holds, whatever the directory
    stream answers: [Dir::ReadAll] gives only entries the mode admits,
    never one of the dot names; [Dir::Read] gives named entries, tagged
    as directories only when the mode asks for directories, and at most
    [max_entries] of them, or one when [max_entries] is below one. *)
Theorem Dir_listing_invariants {P : Platform} (fuel : nat) (d : Dir)
    (fs : Fs) (max_entries : Z) (s : State) :
  dir_fs d = Some fs -> IsNative fs = false ->
  match Dir_ReadAll fuel d s with
  | (Some (rc, out), _) =>
      rc = 0 /\ forallb (admitted (dir_mode d)) out = true
  | (None, _) => True
  end /\
  match Dir_Read fuel d max_entries s with
  | (Some (rc, out), _) =>
      rc = 0 /\ forallb (tagged (dir_mode d)) out = true /\
      Z.of_nat (List.length out) <= Z.max 1 max_entries
  | (None, _) => True
  end.
Proof.
  intros Hfs Hnat. unfold Dir_ReadAll, Dir_Read. rewrite Hfs, Hnat.
  unfold bind, ret. split.
  - pose proof (Dir_ReadAll_stdio_admitted d fuel [] s) as H.
    destruct (Dir_ReadAll_stdio fuel d [] s) as [[out|] s1]; [|exact I].
    destruct H as [added [-> H]]. now split.
  - pose proof (Dir_Read_stdio_tagged d max_entries fuel [] s) as H.
    destruct (Dir_Read_stdio fuel d max_entries [] s) as [[out|] s1];
      [|exact I].
    destruct H as [[added [-> H]] Hb]. cbn [option_map].
    split; [reflexivity|]. split; [exact H|exact Hb].
Qed.

Lemma Dir_listing_invariants_witness :
  let d := stream_handle FsDirOpenMode_ReadFiles in
  let s : State (P:=sample) :=
    (streaming [ {| d_name := "."; d_type := DT_DIR |};
                 {| d_name := "a"; d_type := DT_REG |};
                 {| d_name := "sub"; d_type := DT_DIR |};
                 {| d_name := "b"; d_type := DT_REG |} ], []) in
  (fst (Dir_ReadAll (P:=sample) 9 d s)
   = Some (0, [ {| name := "a"; type := FsDirEntryType_File |};
                {| name := "b"; type := FsDirEntryType_File |} ]) /\
   fst (Dir_Read (P:=sample) 9 d 1 s)
   = Some (0, [ {| name := "a"; type := FsDirEntryType_File |} ])) /\
  (match Dir_ReadAll (P:=sample) 9 d s with
   | (Some (rc, out), _) =>
       rc = 0 /\ forallb (admitted (dir_mode d)) out = true
   | (None, _) => True
   end /\
   match Dir_Read (P:=sample) 9 d 1 s with
   | (Some (rc, out), _) =>
       rc = 0 /\ forallb (tagged (dir_mode d)) out = true /\
       Z.of_nat (List.length out) <= Z.max 1 1
   | (None, _) => True
   end).
Proof.
  intros d s. split; [split; vm_compute; reflexivity|].
  exact (Dir_listing_invariants (P:=sample) 9 d (FsStdio true) 1 s
           eq_refl eq_refl).
Defined.

(** ** Listings of a directory stream of the in-memory world *)

Section StreamListing.
Variables ro unk na : Result.
Variable d : Dir.

Lemma zlookup_head {A} (h : Z) (a : A) (l : list (Z * A)) :
  MemFs.zlookup h ((h, a) :: l) = Some a.
Proof. cbn. now rewrite Z.eqb_refl. Qed.

(** One [readdir] on a stream still holding [es]. *)
Lemma readdir_step (w : MemFs.t) (t : list Event) (es : list dirent) :
  MemFs.zlookup (dir_stdio d) (MemFs.dirs w) = Some es ->
  call (P:=memfs ro unk na) (readdir (dir_stdio d)) (w, t)
  = match es with
    | [] => (None, (w, t ++ [Ev (readdir (dir_stdio d))]))
    | e :: rest =>
        (Some e,
         (MemFs.with_dirs w
            ((dir_stdio d, rest) :: MemFs.zremove (dir_stdio d) (MemFs.dirs w)),
          t ++ [Ev (readdir (dir_stdio d))]))
    end.
Proof.
  intros H. unfold call. cbn. rewrite H. now destruct es.
Qed.

Lemma Dir_ReadAll_stdio_stream (es : list dirent) :
  forall (fuel : nat) (buf : list FsDirectoryEntry)
         (w : MemFs.t) (t : list Event),
  MemFs.zlookup (dir_stdio d) (MemFs.dirs w) = Some es ->
  (List.length es < fuel)%nat ->
  exists w1 t1,
    Dir_ReadAll_stdio (P:=memfs ro unk na) fuel d buf (w, t)
    = (Some (buf ++ flat_map (ReadAll_entry (dir_mode d)) es), (w1, t1)) /\
    MemFs.zlookup (dir_stdio d) (MemFs.dirs w1) = Some [] /\
    MemFs.nodes w1 = MemFs.nodes w.
Proof.
  induction es as [|e rest IH]; intros fuel buf w t Hs Hfuel;
    (destruct fuel as [|fuel]; [cbn in Hfuel; lia|]);
    cbn [Dir_ReadAll_stdio]; unfold bind at 1;
    rewrite (readdir_step w t _ Hs).
  - exists w, (t ++ [Ev (readdir (dir_stdio d))]).
    cbn [flat_map]. rewrite app_nil_r. now repeat split.
  - cbn [List.length] in Hfuel.
    set (w' := MemFs.with_dirs w
                 ((dir_stdio d, rest)
                    :: MemFs.zremove (dir_stdio d) (MemFs.dirs w))).
    assert (Hs' : MemFs.zlookup (dir_stdio d) (MemFs.dirs w') = Some rest)
      by apply zlookup_head.
    assert (Hgo : forall buf',
      exists w1 t1,
        Dir_ReadAll_stdio (P:=memfs ro unk na) fuel d buf'
          (w', t ++ [Ev (readdir (dir_stdio d))])
        = (Some (buf' ++ flat_map (ReadAll_entry (dir_mode d)) rest),
           (w1, t1)) /\
        MemFs.zlookup (dir_stdio d) (MemFs.dirs w1) = Some [] /\
        MemFs.nodes w1 = MemFs.nodes w).
    { intros buf'. apply (IH fuel buf' w' _ Hs'). lia. }
    cbn [flat_map]. unfold ReadAll_entry at 1.
    destruct (is_dot_or_dotdot (d_name e));
      [rewrite app_nil_l; apply Hgo|].
    destruct (d_type e =? DT_DIR).
    + destruct (has_flag (dir_mode d) FsDirOpenMode_ReadDirs); cbn [negb];
        [|rewrite app_nil_l; apply Hgo].
      destruct (Hgo (buf ++ [{| name := d_name e;
                                type := FsDirEntryType_Dir |}]))
        as [w1 [t1 [H1 H2]]].
      exists w1, t1. rewrite H1, <- app_assoc. now split.
    + destruct (d_type e =? DT_REG); [|rewrite app_nil_l; apply Hgo].
      destruct (has_flag (dir_mode d) FsDirOpenMode_ReadFiles); cbn [negb];
        [|rewrite app_nil_l; apply Hgo].
      destruct (Hgo (buf ++ [{| name := d_name e;
                                type := FsDirEntryType_File |}]))
        as [w1 [t1 [H1 H2]]].
      exists w1, t1. rewrite H1, <- app_assoc. now split.
Qed.

Lemma Dir_Read_stdio_stream (max_entries : Z) (es : list dirent) :
  forall (fuel : nat) (buf : list FsDirectoryEntry)
         (w : MemFs.t) (t : list Event),
  MemFs.zlookup (dir_stdio d) (MemFs.dirs w) = Some es ->
  (List.length es < fuel)%nat ->
  Z.of_nat (List.length buf) < max_entries ->
  fst (Dir_Read_stdio (P:=memfs ro unk na) fuel d max_entries buf (w, t))
  = Some (buf ++ firstn (Z.to_nat max_entries - List.length buf)
                   (flat_map (Read_entry (dir_mode d)) es)).
Proof.
  induction es as [|e rest IH]; intros fuel buf w t Hs Hfuel Hroom;
    (destruct fuel as [|fuel]; [cbn in Hfuel; lia|]);
    cbn [Dir_Read_stdio]; unfold bind at 1;
    rewrite (readdir_step w t _ Hs).
  - cbn [flat_map]. now rewrite firstn_nil, app_nil_r.
  - cbn [List.length] in Hfuel.
    set (w' := MemFs.with_dirs w
                 ((dir_stdio d, rest)
                    :: MemFs.zremove (dir_stdio d) (MemFs.dirs w))).
    assert (Hs' : MemFs.zlookup (dir_stdio d) (MemFs.dirs w') = Some rest)
      by apply zlookup_head.
    assert (Hskip :
      fst (Dir_Read_stdio (P:=memfs ro unk na) fuel d max_entries buf
             (w', t ++ [Ev (readdir (dir_stdio d))]))
      = Some (buf ++ firstn (Z.to_nat max_entries - List.length buf)
                       (flat_map (Read_entry (dir_mode d)) rest))).
    { apply (IH fuel buf w' _ Hs'); lia. }
    assert (Hstore : forall x,
      fst ((if max_entries <=? Z.of_nat (List.length (buf ++ [x]))
            then ret (Some (buf ++ [x]))
            else Dir_Read_stdio (P:=memfs ro unk na) fuel d max_entries
                   (buf ++ [x]))
             (w', t ++ [Ev (readdir (dir_stdio d))]))
      = Some (buf ++ firstn (Z.to_nat max_entries - List.length buf)
                       (x :: flat_map (Read_entry (dir_mode d)) rest))).
    { intros x.
      assert (Hlen : List.length (buf ++ [x]) = S (List.length buf)).
      { rewrite length_app. cbn. lia. }
      destruct (max_entries <=? Z.of_nat (List.length (buf ++ [x])))
        eqn:Hmax.
      - apply Z.leb_le in Hmax. unfold ret. cbn [fst].
        replace (Z.to_nat max_entries - List.length buf)%nat with 1%nat
          by lia.
        reflexivity.
      - apply Z.leb_gt in Hmax.
        rewrite (IH fuel (buf ++ [x]) w' _ Hs') by lia.
        rewrite Hlen, <- app_assoc.
        replace (Z.to_nat max_entries - List.length buf)%nat
          with (S (Z.to_nat max_entries - S (List.length buf))) by lia.
        reflexivity. }
    cbn [flat_map]. unfold Read_entry at 1.
    destruct (is_dot_or_dotdot (d_name e)); [exact Hskip|].
    destruct (d_type e =? DT_DIR).
    + destruct (has_flag (dir_mode d) FsDirOpenMode_ReadDirs); cbn [negb];
        [apply Hstore|exact Hskip].
    + destruct (d_type e =? DT_REG).
      * destruct (has_flag (dir_mode d) FsDirOpenMode_ReadFiles);
          cbn [negb]; [apply Hstore|exact Hskip].
      * apply Hstore.
Qed.

End StreamListing.

(** On a directory stream that still holds the entries [es], with fuel
    for one [readdir] more than there are entries: [Dir::ReadAll] returns,
    in stream order, what the loop body makes of each entry, touches no
    node, and leaves the stream at its end, so that a second [ReadAll]
    on the same handle lists nothing; [Dir::Read] with room for at least
    one entry returns the first [max_entries] of what its loop body makes
    of the entries. *)
Theorem Dir_ReadAll_consumes_stream (ro unk na : Result) (d : Dir)
    (ign : bool) (es : list dirent) (fuel : nat) (max_entries : Z)
    (w : MemFs.t) (t : list Event) :
  dir_fs d = Some (FsStdio ign) ->
  MemFs.zlookup (dir_stdio d) (MemFs.dirs w) = Some es ->
  (List.length es < fuel)%nat ->
  let '(r, s1) := Dir_ReadAll (P:=memfs ro unk na) fuel d (w, t) in
  r = Some (0, flat_map (ReadAll_entry (dir_mode d)) es) /\
  MemFs.nodes (fst s1) = MemFs.nodes w /\
  fst (Dir_ReadAll (P:=memfs ro unk na) fuel d s1) = Some (0, []) /\
  (1 <= max_entries ->
   fst (Dir_Read (P:=memfs ro unk na) fuel d max_entries (w, t))
   = Some (0, firstn (Z.to_nat max_entries)
                (flat_map (Read_entry (dir_mode d)) es))).
Proof.
  intros Hfs Hs Hfuel. unfold Dir_ReadAll, Dir_Read. rewrite Hfs.
  cbn [IsNative]. unfold bind at 1.
  destruct (Dir_ReadAll_stdio_stream ro unk na d es fuel [] w t Hs Hfuel)
    as [w1 [t1 [H1 [H2 H3]]]].
  rewrite H1. unfold ret at 1. cbn [option_map app fst].
  split; [reflexivity|]. split; [exact H3|]. split.
  - unfold bind.
    destruct (Dir_ReadAll_stdio_stream ro unk na d [] fuel [] w1 t1 H2
                ltac:(cbn [List.length]; lia))
      as [w2 [t2 [H4 _]]].
    match goal with |- context [let (a, s') := ?x in _] =>
      replace x with
        (Some ([] ++ flat_map (ReadAll_entry (dir_mode d)) []), (w2, t2))
        by (symmetry; exact H4)
    end.
    reflexivity.
  - intros Hmax. unfold bind.
    pose proof (Dir_Read_stdio_stream ro unk na d max_entries es fuel []
                  w t Hs Hfuel ltac:(cbn [List.length]; lia)) as H5.
    match goal with |- context [let (a, s') := ?x in _] =>
      change (fst x = Some ([] ++ firstn
                (Z.to_nat max_entries - List.length (@nil FsDirectoryEntry))
                (flat_map (Read_entry (dir_mode d)) es))) in H5;
      destruct x as [r s2]
    end.
    cbn [fst] in H5. subst r. unfold ret. cbn [fst option_map app List.length].
    now rewrite Nat.sub_0_r.
Qed.

Lemma Dir_ReadAll_consumes_stream_witness :
  let es := [ {| d_name := ".."; d_type := DT_DIR |};
              {| d_name := "sub"; d_type := DT_DIR |};
              {| d_name := "a"; d_type := DT_REG |};
              {| d_name := "l"; d_type := DT_LNK |} ] in
  let d := stream_handle (Z.lor FsDirOpenMode_ReadDirs FsDirOpenMode_ReadFiles) in
  let '(r, s1) := Dir_ReadAll (P:=sample) 5 d (streaming es, []) in
  r = Some (0, [ {| name := "sub"; type := FsDirEntryType_Dir |};
                 {| name := "a"; type := FsDirEntryType_File |} ]) /\
  MemFs.nodes (fst s1) = [] /\
  fst (Dir_ReadAll (P:=sample) 5 d s1) = Some (0, []) /\
  (1 <= 2 ->
   fst (Dir_Read (P:=sample) 5 d 2 (streaming es, []))
   = Some (0, [ {| name := "sub"; type := FsDirEntryType_Dir |};
                {| name := "a"; type := FsDirEntryType_File |} ])).
Proof.
  intros es d.
  exact (Dir_ReadAll_consumes_stream 0x10001 0x10002 0x10003 d true es 5 2
           (streaming es) [] eq_refl eq_refl ltac:(cbn; lia)).
Defined.

(** ** Whole files in the in-memory world *)

Lemma key_eqb_eq (a b : MemFs.key) : MemFs.key_eqb a b = true <-> a = b.
Proof.
  revert b. induction a as [|x a IH]; intros [|y b]; cbn;
    try (split; (discriminate || reflexivity)).
  rewrite andb_true_iff, String.eqb_eq, IH.
  split; [intros [-> ->]; reflexivity | intros [= -> ->]; now split].
Qed.

Lemma key_eqb_sym (a b : MemFs.key) : MemFs.key_eqb a b = MemFs.key_eqb b a.
Proof.
  destruct (MemFs.key_eqb a b) eqn:E1, (MemFs.key_eqb b a) eqn:E2; try reflexivity.
  - apply key_eqb_eq in E1. subst. now rewrite key_eqb_refl in E2.
  - apply key_eqb_eq in E2. subst. now rewrite key_eqb_refl in E1.
Qed.

Lemma lookup_remove_other (k k' : MemFs.key) (l : list (MemFs.key * MemFs.node)) :
  MemFs.key_eqb k' k = false ->
  MemFs.lookup k' (MemFs.remove k l) = MemFs.lookup k' l.
Proof.
  intros Hk. unfold MemFs.remove.
  induction l as [|[k0 n0] l IH]; [reflexivity|].
  cbn [filter fst]. destruct (MemFs.key_eqb k k0) eqn:E; cbn [negb MemFs.lookup].
  - apply key_eqb_eq in E. subst k0. now rewrite Hk.
  - now rewrite IH.
Qed.

Lemma node_at_file (k : MemFs.key) (w : MemFs.t) (c : list byte) :
  MemFs.node_at k w = Some (MemFs.NFile c) ->
  MemFs.lookup k (MemFs.nodes w) = Some (MemFs.NFile c).
Proof.
  destruct k as [|a [|b k]]; cbn; intros H; (discriminate || exact H).
Qed.

Lemma write_front_resize (c out : list byte) :
  write_front c (resize (List.length c) out) = c.
Proof.
  unfold write_front. rewrite skipn_all2 by (rewrite length_resize; lia).
  apply app_nil_r.
Qed.

Lemma node_at_head (k : MemFs.key) (n : MemFs.node)
    (l : list (MemFs.key * MemFs.node)) (w : MemFs.t) :
  (2 <= List.length k)%nat -> MemFs.nodes w = (k, n) :: l ->
  MemFs.node_at k w = Some n.
Proof.
  intros Hk Hn. unfold MemFs.node_at. rewrite Hn.
  destruct k as [|a [|b k]]; cbn in Hk; try lia.
  cbn [MemFs.lookup]. now rewrite key_eqb_refl.
Qed.

Lemma node_at_not_root (k : MemFs.key) (w : MemFs.t) :
  k <> [] -> MemFs.node_at k w <> Some MemFs.NDir ->
  (2 <= List.length k)%nat.
Proof.
  destruct k as [|a [|b k]]; cbn; intros H1 H2; try lia;
    [now contradiction H1 | now contradiction H2].
Qed.

Section MemFsWholeFile.
Variables ro unk na : Result.
Context {DL : DenyLists}.

Lemma read_entire_file_stdio_content (path : string) (out c : list byte)
    (w : MemFs.t) (t : list Event) :
  MemFs.node_at (MemFs.resolve path) w = Some (MemFs.NFile c) ->
  is_empty path = false ->
  0 < MemFs.next_handle w -> MemFs.io_fault w = false ->
  exists w1 t1,
    read_entire_file_stdio (P:=memfs ro unk na) path out (w, t)
    = ((0, c), (w1, t1)) /\
    MemFs.nodes w1 = MemFs.nodes w /\
    MemFs.next_handle w1 = MemFs.next_handle w + 1 /\
    MemFs.io_fault w1 = false.
Proof.
  intros Hnode Hne Hh Hio.
  pose proof (node_at_file _ _ _ Hnode) as Hlook.
  unfold read_entire_file_stdio, closing, bind, call.
  cbn [exec memfs fst snd MemFs.exec].
  unfold MemFs.fopen_file. rewrite Hne, Hnode.
  assert (Hz : (MemFs.next_handle w =? 0) = false) by (apply Z.eqb_neq; lia).
  assert (Hpos : (Z.of_nat (List.length c) <? 0) = false)
    by (apply Z.ltb_ge; lia).
  repeat (progress (cbn; unfold MemFs.content_of;
    rewrite ?Z.eqb_refl, ?Hz, ?Hio, ?Hlook, ?Hpos, ?Z.add_0_r, ?Nat2Z.id,
            ?length_resize, ?firstn_all, ?Nat.eqb_refl)).
  change (firstn (List.length c) out
          ++ repeat x00 (List.length c - List.length out))
    with (resize (List.length c) out).
  rewrite write_front_resize. unfold ret.
  do 2 eexists. split; [reflexivity|]. cbn. auto.
Qed.

Lemma fsdev_error_failed (w : MemFs.t) (t : list Event) :
  unk <> 0 -> fst (fsdev_error (P:=memfs ro unk na) (w, t)) <> 0.
Proof.
  intros Hunk. unfold fsdev_error, R_TRY, bind, call, ret. cbn.
  destruct (R_FAILED (MemFs.last_result w)) eqn:E; cbn; [|exact Hunk].
  unfold R_FAILED in E. intros H0. rewrite H0 in E. discriminate.
Qed.

Lemma write_entire_file_stdio_content (path : string) (input : list byte)
    (ign : bool) (w : MemFs.t) (t : list Event) :
  ro <> 0 -> unk <> 0 -> 0 < MemFs.next_handle w ->
  forall w1 t1,
  write_entire_file_stdio (P:=memfs ro unk na) path input ign (w, t)
  = (0, (w1, t1)) ->
  is_empty path = false /\
  MemFs.node_at (MemFs.resolve path) w1 = Some (MemFs.NFile input) /\
  (forall k', MemFs.key_eqb k' (MemFs.resolve path) = false ->
              MemFs.lookup k' (MemFs.nodes w1) = MemFs.lookup k' (MemFs.nodes w)) /\
  MemFs.next_handle w1 = MemFs.next_handle w + 1 /\
  MemFs.io_fault w1 = MemFs.io_fault w.
Proof.
  intros Hro Hunk Hh w1 t1.
  unfold write_entire_file_stdio, R_UNLESS.
  destruct (ign || negb (is_read_only path)); [|intros [= E _ _]; now contradiction Hro].
  unfold closing, bind, call.
  cbn [exec memfs fst snd MemFs.exec].
  unfold MemFs.fopen_file.
  assert (Hz : (MemFs.next_handle w =? 0) = false) by (apply Z.eqb_neq; lia).
  destruct (is_empty path) eqn:Hne.
  { cbn [Z.eqb]. intros H. pose proof (fsdev_error_failed w (t ++ [Ev (fopen path "wb")]) Hunk) as F.
    apply (f_equal fst) in H. destruct (F H). }
  destruct (MemFs.node_at (MemFs.resolve path) w) as [[|c0]|] eqn:Hnode.
  - cbn [Z.eqb]. intros H. apply (f_equal fst) in H.
    destruct (fsdev_error_failed _ _ Hunk H).
  - assert (Hlen : (2 <= List.length (MemFs.resolve path))%nat).
    { apply (node_at_not_root _ w); [apply resolve_not_nil|].
      rewrite Hnode. discriminate. }
    repeat (progress (cbn; unfold MemFs.content_of;
      rewrite ?Z.eqb_refl, ?Hz, ?key_eqb_refl, ?skipn_nil, ?app_nil_r)).
    unfold ret. intros [= <- <-]. split; [reflexivity|].
    split; [eapply node_at_head; [exact Hlen|reflexivity]|].
    split; [|split; reflexivity].
    intros k' Hk.
    cbn [MemFs.nodes MemFs.with_files MemFs.with_fds MemFs.update_stream
         MemFs.set_content MemFs.with_nodes MemFs.lookup].
    rewrite ?Hk.
    repeat (rewrite ?lookup_remove_other by assumption;
            cbn [MemFs.lookup]; rewrite ?Hk). reflexivity.
  - assert (Hlen : (2 <= List.length (MemFs.resolve path))%nat).
    { apply (node_at_not_root _ w); [apply resolve_not_nil|].
      rewrite Hnode. discriminate. }
    unfold MemFs.create. rewrite Hne, Hnode.
    destruct (MemFs.node_at (MemFs.parent (MemFs.resolve path)) w)
      as [[|c1]|] eqn:Hpar.
    + repeat (progress (cbn; unfold MemFs.content_of;
        rewrite ?Z.eqb_refl, ?Hz, ?key_eqb_refl, ?skipn_nil, ?app_nil_r)).
      unfold ret. intros [= <- <-]. split; [reflexivity|].
      split; [eapply node_at_head; [exact Hlen|reflexivity]|].
      split; [|split; reflexivity].
      intros k' Hk.
      cbn [MemFs.nodes MemFs.with_files MemFs.with_fds MemFs.update_stream
           MemFs.set_content MemFs.with_nodes MemFs.lookup].
      rewrite ?Hk.
      repeat (rewrite ?lookup_remove_other by assumption;
              cbn [MemFs.lookup]; rewrite ?Hk). reflexivity.
    + cbn. intros H. apply (f_equal fst) in H.
      destruct (fsdev_error_failed _ _ Hunk H).
    + cbn. intros H. apply (f_equal fst) in H.
      destruct (fsdev_error_failed _ _ Hunk H).
Qed.

Lemma read_entire_file_native_content (fs : FsFileSystem) (path : string)
    (out c : list byte) (w : MemFs.t) (t : list Event) :
  MemFs.node_at (MemFs.resolve path) w = Some (MemFs.NFile c) ->
  exists w1 t1,
    read_entire_file_native (P:=memfs ro unk na) fs path out (w, t)
    = ((0, c), (w1, t1)) /\
    MemFs.nodes w1 = MemFs.nodes w.
Proof.
  intros Hnode.
  pose proof (node_at_file _ _ _ Hnode) as Hlook.
  unfold read_entire_file_native, leave, OpenFile, File_GetSize, File_Read,
    File_Close, bind, call.
  cbn [exec memfs fst snd MemFs.exec GetFsOpenResult].
  assert (Hpos : (Z.of_nat (List.length c) <? 0) = false)
    by (apply Z.ltb_ge; lia).
  repeat (progress (cbn; unfold MemFs.content_of;
    rewrite ?Z.eqb_refl, ?Hnode, ?Hlook, ?Hpos, ?Z.add_0_r, ?Nat2Z.id,
            ?length_resize, ?firstn_all, ?Nat.eqb_refl)).
  rewrite write_front_resize.
  destruct (serviceIsActive (MemFs.next_handle w)); unfold ret;
    do 2 eexists; (split; [reflexivity|reflexivity]).
Qed.

Lemma write_entire_file_native_content (fs : FsFileSystem) (path : string)
    (input : list byte) (ign : bool) (w : MemFs.t) (t : list Event) :
  ro <> 0 ->
  forall (w1 : MemFs.t) (t1 : list Event),
  write_entire_file_native (P:=memfs ro unk na) fs path input ign (w, t)
  = (0, (w1, t1)) ->
  MemFs.node_at (MemFs.resolve path) w1 = Some (MemFs.NFile input) /\
  (forall k', MemFs.key_eqb k' (MemFs.resolve path) = false ->
              MemFs.lookup k' (MemFs.nodes w1)
              = MemFs.lookup k' (MemFs.nodes w)).
Proof.
  intros Hro w1 t1.
  unfold write_entire_file_native, R_UNLESS.
  destruct (ign || negb (is_read_only path)) eqn:Hpol;
    [|intros [= E _ _]; now contradiction Hro].
  cbn [GetFsOpenResult memfs R_FAILED Z.eqb negb].
  unfold Fs_CreateFile, CreateFile_native, R_UNLESS.
  destruct (ign || negb (is_read_only_root path)) eqn:Hroot.
  2:{ exfalso. destruct ign; [discriminate|]. cbn in Hpol, Hroot.
      unfold is_read_only in Hpol.
      destruct (is_read_only_root path); discriminate. }
  unfold R_TRY, File_SetSize, File_Write, leave, OpenFile, File_Close,
    Fs_Commit, R_SUCCEED, R_TRY, bind, call.
  cbn [exec memfs fst snd MemFs.exec].
  unfold MemFs.create.
  destruct (is_empty path) eqn:Hne.
  { cbn. unfold ret. discriminate. }
  destruct (MemFs.node_at (MemFs.resolve path) w) as [[|c0]|] eqn:Hnode.
  - repeat (progress (cbn; rewrite ?Hnode)). unfold ret. discriminate.
  - assert (Hlen : (2 <= List.length (MemFs.resolve path))%nat).
    { apply (node_at_not_root _ w); [apply resolve_not_nil|].
      rewrite Hnode. discriminate. }
    pose proof (node_at_file _ _ _ Hnode) as Hlook.
    repeat (progress (cbn; unfold MemFs.content_of;
      rewrite ?Z.eqb_refl, ?Hnode, ?Hlook, ?key_eqb_refl, ?Nat2Z.id,
              ?length_resize, ?skipn_all, ?app_nil_r)).
    change (input ++ skipn (List.length input)
                       (resize (List.length input) c0))
      with (write_front input (resize (List.length input) c0)).
    rewrite write_front_resize.
    destruct (serviceIsActive (MemFs.next_handle w)); unfold ret;
      intros [= <- <-];
      (split; [eapply node_at_head; [exact Hlen|reflexivity]|]);
      intros k' Hk;
      cbn [MemFs.nodes MemFs.with_files MemFs.with_fds MemFs.update_stream
           MemFs.set_content MemFs.with_nodes MemFs.lookup fst snd];
      rewrite ?Hk;
      repeat (rewrite ?lookup_remove_other by assumption;
              cbn [MemFs.lookup]; rewrite ?Hk); reflexivity.
  - assert (Hlen : (2 <= List.length (MemFs.resolve path))%nat).
    { apply (node_at_not_root _ w); [apply resolve_not_nil|].
      rewrite Hnode. discriminate. }
    destruct (MemFs.node_at (MemFs.parent (MemFs.resolve path)) w)
      as [[|c1]|] eqn:Hpar;
      [|cbn; unfold ret; discriminate|cbn; unfold ret; discriminate].
    assert (Hnew : forall n,
      MemFs.node_at (MemFs.resolve path)
        (MemFs.with_nodes w ((MemFs.resolve path, n) :: MemFs.nodes w))
      = Some n).
    { intros n. eapply node_at_head; [exact Hlen|reflexivity]. }
    repeat (progress (cbn; unfold MemFs.content_of;
      rewrite ?Z.eqb_refl, ?Hnew, ?key_eqb_refl, ?Nat2Z.id,
              ?length_resize, ?skipn_all, ?app_nil_r)).
    change (input ++ skipn (List.length input)
                       (resize (List.length input) (repeat x00 (List.length input))))
      with (write_front input (resize (List.length input) (repeat x00 (List.length input)))).
    rewrite write_front_resize.
    destruct (serviceIsActive (MemFs.next_handle w)); unfold ret;
      intros [= <- <-];
      (split; [eapply node_at_head; [exact Hlen|reflexivity]|]);
      intros k' Hk;
      cbn [MemFs.nodes MemFs.with_files MemFs.with_fds MemFs.update_stream
           MemFs.set_content MemFs.with_nodes MemFs.lookup fst snd];
      rewrite ?Hk;
      repeat (rewrite ?lookup_remove_other by assumption;
              cbn [MemFs.lookup]; rewrite ?Hk); reflexivity.
Qed.

(** A whole-file read that reports success read a file that was there,
    and all of it. *)
Lemma read_entire_file_stdio_success (path : string) (out data : list byte)
    (w w1 : MemFs.t) (t t1 : list Event) :
  unk <> 0 -> 0 < MemFs.next_handle w -> MemFs.io_fault w = false ->
  read_entire_file_stdio (P:=memfs ro unk na) path out (w, t)
  = ((0, data), (w1, t1)) ->
  MemFs.node_at (MemFs.resolve path) w = Some (MemFs.NFile data) /\
  MemFs.nodes w1 = MemFs.nodes w /\
  MemFs.next_handle w1 = MemFs.next_handle w + 1 /\
  MemFs.io_fault w1 = false.
Proof.
  intros Hunk Hh Hio.
  assert (Hfail : forall s : State (P:=memfs ro unk na),
            fst (fsdev_error s) <> 0).
  { intros [w0 t0]. now apply fsdev_error_failed. }
  destruct (is_empty path) eqn:Hne;
    [|destruct (MemFs.node_at (MemFs.resolve path) w) as [[|c]|] eqn:Hnode].
  3:{ destruct (read_entire_file_stdio_content path out c w t Hnode Hne Hh Hio)
        as [w2 [t2 [E H]]].
      rewrite E. intros [= <- <- <-]. now split. }
  all: unfold read_entire_file_stdio, bind at 1, call;
    cbn [exec memfs fst snd MemFs.exec]; unfold MemFs.fopen_file;
    rewrite Hne, ?Hnode; cbn [String.eqb Ascii.eqb Bool.eqb Z.eqb];
    unfold bind, ret;
    match goal with |- context [fsdev_error ?s] =>
      pose proof (Hfail s) as F; destruct (fsdev_error s) as [a s']
    end; cbn [fst] in F; intros [= -> _ _]; now contradiction F.
Qed.

Lemma read_entire_file_native_success (fs : FsFileSystem) (path : string)
    (out data : list byte) (w w1 : MemFs.t) (t t1 : list Event) :
  read_entire_file_native (P:=memfs ro unk na) fs path out (w, t)
  = ((0, data), (w1, t1)) ->
  MemFs.node_at (MemFs.resolve path) w = Some (MemFs.NFile data) /\
  MemFs.nodes w1 = MemFs.nodes w.
Proof.
  destruct (MemFs.node_at (MemFs.resolve path) w) as [[|c]|] eqn:Hnode.
  2:{ destruct (read_entire_file_native_content fs path out c w t Hnode)
        as [w2 [t2 [E H]]].
      rewrite E. intros [= <- <- <-]. now split. }
  all: unfold read_entire_file_native, leave, OpenFile, File_Close, bind, call;
    cbn [exec memfs fst snd MemFs.exec GetFsOpenResult];
    repeat (progress (cbn; rewrite ?Hnode)); unfold ret; discriminate.
Qed.

End MemFsWholeFile.

(** What [write_entire_file] wrote, [read_entire_file] reads back, on
    either backend: after a write that reported success, reading the same
    path succeeds and returns exactly the bytes written, whatever the
    vector held before and whatever the file held before; and no other
    node of the tree has changed. *)
Theorem write_then_read_entire_file (ro unk na : Result) {DL : DenyLists}
    (fs : FsFileSystem) (path : string) (input out : list byte) (ign : bool)
    (w : MemFs.t) (t : list Event) :
  ro <> 0 -> unk <> 0 ->
  0 < MemFs.next_handle w -> MemFs.io_fault w = false ->
  (let '(rc, s1) :=
     write_entire_file_stdio (P:=memfs ro unk na) path input ign (w, t) in
   rc = 0 ->
   fst (read_entire_file_stdio (P:=memfs ro unk na) path out s1)
   = (0, input) /\
   forall k', MemFs.key_eqb k' (MemFs.resolve path) = false ->
              MemFs.lookup k' (MemFs.nodes (fst s1))
              = MemFs.lookup k' (MemFs.nodes w)) /\
  (let '(rc, s1) :=
     write_entire_file_native (P:=memfs ro unk na) fs path input ign (w, t) in
   rc = 0 ->
   fst (read_entire_file_native (P:=memfs ro unk na) fs path out s1)
   = (0, input) /\
   forall k', MemFs.key_eqb k' (MemFs.resolve path) = false ->
              MemFs.lookup k' (MemFs.nodes (fst s1))
              = MemFs.lookup k' (MemFs.nodes w)).
Proof.
  intros Hro Hunk Hh Hio. split.
  - destruct (write_entire_file_stdio (P:=memfs ro unk na) path input ign
                (w, t)) as [rc [w1 t1]] eqn:E.
    intros ->.
    apply (write_entire_file_stdio_content ro unk na path input ign w t
             Hro Hunk Hh) in E.
    destruct E as [Hne [Hnode [Hframe [Hh1 Hio1]]]].
    destruct (read_entire_file_stdio_content ro unk na path out input w1 t1
                Hnode Hne ltac:(lia) ltac:(congruence))
      as [w2 [t2 [E2 _]]].
    cbn [fst]. split; [|exact Hframe].
    exact (f_equal fst E2).
  - destruct (write_entire_file_native (P:=memfs ro unk na) fs path input ign
                (w, t)) as [rc [w1 t1]] eqn:E.
    intros ->.
    apply (write_entire_file_native_content ro unk na fs path input ign w t
             Hro) in E.
    destruct E as [Hnode Hframe].
    destruct (read_entire_file_native_content ro unk na fs path out input
                w1 t1 Hnode) as [w2 [t2 [E2 _]]].
    cbn [fst]. split; [|exact Hframe].
    exact (f_equal fst E2).
Qed.

Lemma write_then_read_entire_file_witness :
  (let '(rc, s1) :=
     write_entire_file_stdio (P:=sample) "/f" [x0a; x0b] false
       (one_file [x01; x02; x03], []) in
   rc = 0 /\
   fst (read_entire_file_stdio (P:=sample) "/f" [xff] s1)
   = (0, [x0a; x0b])) /\
  (let '(rc, s1) :=
     write_entire_file_native (P:=sample) 1 "/g" [x0a; x0b] false
       (one_file [x01; x02; x03], []) in
   rc = 0 /\
   fst (read_entire_file_native (P:=sample) 1 "/g" [xff] s1)
   = (0, [x0a; x0b])).
Proof.
  split.
  - pose proof (proj1 (write_then_read_entire_file 0x10001 0x10002 0x10003
                  1 "/f" [x0a; x0b] [xff] false (one_file [x01; x02; x03]) []
                  ltac:(lia) ltac:(lia) ltac:(cbn; lia) eq_refl)) as H.
    change (memfs 0x10001 0x10002 0x10003) with sample in H.
    destruct (write_entire_file_stdio (P:=sample) "/f" [x0a; x0b] false
                (one_file [x01; x02; x03], [])) as [rc s1] eqn:E.
    assert (Hrc : rc = 0).
    { vm_compute in E. now injection E as <- _. }
    split; [exact Hrc|]. exact (proj1 (H Hrc)).
  - pose proof (proj2 (write_then_read_entire_file 0x10001 0x10002 0x10003
                  1 "/g" [x0a; x0b] [xff] false (one_file [x01; x02; x03]) []
                  ltac:(lia) ltac:(lia) ltac:(cbn; lia) eq_refl)) as H.
    change (memfs 0x10001 0x10002 0x10003) with sample in H.
    destruct (write_entire_file_native (P:=sample) 1 "/g" [x0a; x0b] false
                (one_file [x01; x02; x03], [])) as [rc s1] eqn:E.
    assert (Hrc : rc = 0).
    { vm_compute in E. now injection E as <- _. }
    split; [exact Hrc|]. exact (proj1 (H Hrc)).
Defined.

(** [copy_entire_file] that reports success has copied: the source was
    a file, the destination now is a file with the bytes the source held
    when the copy began (also when both name the same file), and no node
    other than the destination has changed. *)
Theorem copy_entire_file_copies (ro unk na : Result) {DL : DenyLists}
    (fs : FsFileSystem) (dst src : string) (ign : bool)
    (w : MemFs.t) (t : list Event) :
  ro <> 0 -> unk <> 0 ->
  0 < MemFs.next_handle w -> MemFs.io_fault w = false ->
  (let '(rc, s1) :=
     copy_entire_file_stdio (P:=memfs ro unk na) dst src ign (w, t) in
   rc = 0 ->
   exists c,
     MemFs.node_at (MemFs.resolve src) w = Some (MemFs.NFile c) /\
     MemFs.node_at (MemFs.resolve dst) (fst s1) = Some (MemFs.NFile c) /\
     forall k', MemFs.key_eqb k' (MemFs.resolve dst) = false ->
                MemFs.lookup k' (MemFs.nodes (fst s1))
                = MemFs.lookup k' (MemFs.nodes w)) /\
  (let '(rc, s1) :=
     copy_entire_file_native (P:=memfs ro unk na) fs dst src ign (w, t) in
   rc = 0 ->
   exists c,
     MemFs.node_at (MemFs.resolve src) w = Some (MemFs.NFile c) /\
     MemFs.node_at (MemFs.resolve dst) (fst s1) = Some (MemFs.NFile c) /\
     forall k', MemFs.key_eqb k' (MemFs.resolve dst) = false ->
                MemFs.lookup k' (MemFs.nodes (fst s1))
                = MemFs.lookup k' (MemFs.nodes w)).
Proof.
  intros Hro Hunk Hh Hio. split.
  - destruct (copy_entire_file_stdio (P:=memfs ro unk na) dst src ign (w, t))
      as [rc [w2 t2]] eqn:E.
    intros ->. revert E. unfold copy_entire_file_stdio, R_UNLESS.
    destruct (ign || negb (is_read_only dst));
      [|intros [= E _ _]; now contradiction Hro].
    unfold bind at 1.
    destruct (read_entire_file_stdio (P:=memfs ro unk na) src [] (w, t))
      as [[rc data] [w1 t1]] eqn:E1.
    destruct (R_FAILED rc) eqn:Hrc.
    { unfold ret. intros [= -> _ _]. discriminate. }
    unfold R_FAILED in Hrc. apply negb_false_iff, Z.eqb_eq in Hrc. subst rc.
    apply (read_entire_file_stdio_success ro unk na src [] data w w1 t t1
             Hunk Hh Hio) in E1.
    destruct E1 as [Hsrc [Hn1 [Hh1 Hio1]]].
    intros E2.
    apply (write_entire_file_stdio_content ro unk na dst data ign w1 t1
             Hro Hunk ltac:(lia)) in E2.
    destruct E2 as [_ [Hdst [Hframe _]]].
    exists data. cbn [fst]. split; [exact Hsrc|]. split; [exact Hdst|].
    intros k' Hk. rewrite (Hframe k' Hk). now rewrite Hn1.
  - destruct (copy_entire_file_native (P:=memfs ro unk na) fs dst src ign
                (w, t)) as [rc [w2 t2]] eqn:E.
    intros ->. revert E. unfold copy_entire_file_native, R_UNLESS.
    destruct (ign || negb (is_read_only dst));
      [|intros [= E _ _]; now contradiction Hro].
    unfold bind at 1.
    destruct (read_entire_file_native (P:=memfs ro unk na) fs src [] (w, t))
      as [[rc data] [w1 t1]] eqn:E1.
    destruct (R_FAILED rc) eqn:Hrc.
    { unfold ret. intros [= -> _ _]. discriminate. }
    unfold R_FAILED in Hrc. apply negb_false_iff, Z.eqb_eq in Hrc. subst rc.
    apply (read_entire_file_native_success ro unk na fs src [] data w w1 t t1)
      in E1.
    destruct E1 as [Hsrc Hn1].
    intros E2.
    apply (write_entire_file_native_content ro unk na fs dst data ign w1 t1
             Hro) in E2.
    destruct E2 as [Hdst Hframe].
    exists data. cbn [fst]. split; [exact Hsrc|]. split; [exact Hdst|].
    intros k' Hk. rewrite (Hframe k' Hk). now rewrite Hn1.
Qed.

Lemma copy_entire_file_copies_witness :
  (let '(rc, s1) :=
     copy_entire_file_stdio (P:=sample) "/g" "/f" false
       (one_file [x01; x02; x03], []) in
   rc = 0 /\
   MemFs.node_at (MemFs.resolve "/g") (fst s1)
   = Some (MemFs.NFile [x01; x02; x03])) /\
  (let '(rc, s1) :=
     copy_entire_file_native (P:=sample) 1 "/f" "/f" false
       (one_file [x01; x02; x03], []) in
   rc = 0 /\
   MemFs.node_at (MemFs.resolve "/f") (fst s1)
   = Some (MemFs.NFile [x01; x02; x03])).
Proof.
  split.
  - pose proof (proj1 (copy_entire_file_copies 0x10001 0x10002 0x10003
                  1 "/g" "/f" false (one_file [x01; x02; x03]) []
                  ltac:(lia) ltac:(lia) ltac:(cbn; lia) eq_refl)) as H.
    change (memfs 0x10001 0x10002 0x10003) with sample in H.
    destruct (copy_entire_file_stdio (P:=sample) "/g" "/f" false
                (one_file [x01; x02; x03], [])) as [rc s1] eqn:E.
    assert (Hrc : rc = 0).
    { vm_compute in E. now injection E as <- _. }
    split; [exact Hrc|].
    destruct (H Hrc) as [c [Hs [Hd _]]].
    vm_compute in Hs. injection Hs as <-. exact Hd.
  - pose proof (proj2 (copy_entire_file_copies 0x10001 0x10002 0x10003
                  1 "/f" "/f" false (one_file [x01; x02; x03]) []
                  ltac:(lia) ltac:(lia) ltac:(cbn; lia) eq_refl)) as H.
    change (memfs 0x10001 0x10002 0x10003) with sample in H.
    destruct (copy_entire_file_native (P:=sample) 1 "/f" "/f" false
                (one_file [x01; x02; x03], [])) as [rc s1] eqn:E.
    assert (Hrc : rc = 0).
    { vm_compute in E. now injection E as <- _. }
    split; [exact Hrc|].
    destruct (H Hrc) as [c [Hs [Hd _]]].
    vm_compute in Hs. injection Hs as <-. exact Hd.
Defined.

(** ** What the recursive creation leaves behind *)

Section MemFsWalkPost.
Variables ro unk na : Result.
Context {DL : DenyLists}.




End MemFsWalkPost.




(** ** The recursive delete of the libc backend *)

Section Traces.
Context {P : Platform}.

Lemma traces_ret {A} (ok : Event -> bool) (a : A) : traces ok (ret a).
Proof. intros s. exists []. now rewrite app_nil_r. Qed.

Lemma traces_call {A} (ok : Event -> bool) (c : Call A) :
  ok (Ev c) = true -> traces ok (call c).
Proof.
  intros H s. exists [Ev c]. unfold call.
  destruct (exec c (fst s)) as [a w']. cbn. now rewrite H.
Qed.

Lemma traces_bind {A B} (ok : Event -> bool) (m : M A) (k : A -> M B) :
  traces ok m -> (forall a, traces ok (k a)) -> traces ok (bind m k).
Proof.
  intros Hm Hk s. unfold bind.
  destruct (Hm s) as [e1 [H1 O1]].
  destruct (m s) as [a s1]. cbn [snd] in H1.
  destruct (Hk a s1) as [e2 [H2 O2]].
  exists (e1 ++ e2). rewrite H2, H1, app_assoc. split; [reflexivity|].
  now rewrite forallb_app, O1, O2.
Qed.

Lemma traces_weaken {A} (ok ok' : Event -> bool) (m : M A) :
  (forall e, ok e = true -> ok' e = true) -> traces ok m -> traces ok' m.
Proof.
  intros Hw Hm s. destruct (Hm s) as [evs [H O]]. exists evs.
  split; [exact H|]. rewrite forallb_forall in O |- *. auto.
Qed.

End Traces.

Lemma starts_with_refl (p : string) : starts_with p p = true.
Proof.
  induction p as [|c p IH]; cbn; [reflexivity|]. now rewrite Ascii.eqb_refl.
Qed.

Lemma starts_with_append (p rest : string) :
  starts_with (p +:+ rest) p = true.
Proof. apply starts_with_iff. now exists rest. Qed.

Lemma starts_with_trans (a b c : string) :
  starts_with a b = true -> starts_with b c = true -> starts_with a c = true.
Proof.
  rewrite !starts_with_iff. intros [r1 ->] [r2 ->].
  exists (r2 +:+ r1). apply append_assoc.
Qed.

Lemma child_path_below (path n : string) :
  starts_with (child_path path n) path = true.
Proof.
  unfold child_path. destruct (ends_with_slash path).
  - apply starts_with_append.
  - rewrite append_assoc. apply starts_with_append.
Qed.

Lemma within_below (path child : string) (e : Event) :
  starts_with child path = true ->
  within child e = true -> within path e = true.
Proof.
  intros Hc. destruct e as [A c]. destruct c; cbn; try discriminate;
    try reflexivity; intros H; now apply (starts_with_trans _ child).
Qed.

Section RecursiveDeleteProperties.
Context {P : Platform}.

(** The loop over the children, given that the recursive call on a path
    below [path] stays below it. *)
Lemma remove_children_within (rec : string -> M (option Z)) (path : string)
    (dir : Z) :
  (forall child, starts_with child path = true ->
                 traces (within child) (rec child)) ->
  forall (fuel : nat) (result : Z),
    traces (within path) (remove_children rec fuel path dir result).
Proof.
  intros Hrec. induction fuel as [|fuel IH]; intros result;
    [apply traces_ret|].
  cbn [remove_children].
  apply traces_bind; [now apply traces_call|]. intros [e|];
    [|apply traces_ret].
  destruct (negb (result =? 0)); [apply traces_ret|].
  destruct (is_dot_or_dotdot (d_name e)); [apply IH|].
  pose proof (child_path_below path (d_name e)) as Hc.
  apply traces_bind.
  - destruct (d_type e =? DT_DIR); [apply traces_ret|].
    destruct ((d_type e =? DT_UNKNOWN) || (d_type e =? DT_LNK));
      [|apply traces_ret].
    apply traces_bind; [now apply traces_call|].
    intros [r st_mode]. apply traces_ret.
  - intros [|].
    + apply traces_bind.
      * apply (traces_weaken (within (child_path path (d_name e)))).
        -- intros ev. now apply within_below.
        -- now apply Hrec.
      * intros [result'|]; [apply IH|apply traces_ret].
    + apply traces_bind; [now apply traces_call|]. intros u. apply IH.
Qed.

Lemma remove_dir_recursive_impl_within (fuel : nat) :
  forall path, traces (within path) (remove_dir_recursive_impl fuel path).
Proof.
  induction fuel as [|fuel IH]; intros path; [apply traces_ret|].
  cbn [remove_dir_recursive_impl].
  pose proof (starts_with_refl path) as Hp.
  apply traces_bind; [now apply traces_call|]. intros [r st_mode].
  destruct (negb (r =? 0)); [apply traces_ret|].
  destruct (negb (S_ISDIR st_mode)).
  - apply traces_bind; [now apply traces_call|]. intros u. apply traces_ret.
  - apply traces_bind; [now apply traces_call|]. intros dir.
    destruct (dir =? 0); [apply traces_ret|].
    apply traces_bind.
    + apply remove_children_within. intros child _. apply IH.
    + intros [result|]; [|apply traces_ret].
      apply traces_bind; [now apply traces_call|]. intros _.
      destruct (result =? 0); [|apply traces_ret].
      apply traces_bind; [now apply traces_call|]. intros rd.
      apply traces_ret.
Qed.

(** The loop hands on 0 or -1. *)
Lemma remove_children_result (rec : string -> M (option Z)) (path : string)
    (dir : Z) :
  (forall child s, match fst (rec child s) with
                   | Some v => v = 0 \/ v = -1
                   | None => True
                   end) ->
  forall (fuel : nat) (result : Z) s,
    result = 0 \/ result = -1 ->
    match fst (remove_children rec fuel path dir result s) with
    | Some v => v = 0 \/ v = -1
    | None => True
    end.
Proof.
  intros Hrec. induction fuel as [|fuel IH]; intros result s Hres;
    [exact I|].
  cbn [remove_children]. unfold bind at 1.
  destruct (call (readdir dir) s) as [[e|] s1]; [|exact Hres].
  destruct (negb (result =? 0)); [exact Hres|].
  destruct (is_dot_or_dotdot (d_name e)); [now apply IH|].
  unfold bind at 1.
  destruct ((if d_type e =? DT_DIR then ret true
             else if (d_type e =? DT_UNKNOWN) || (d_type e =? DT_LNK)
             then
               ' (r, st_mode) <- call (lstat (child_path path (d_name e)));;
               ret ((r =? 0) && S_ISDIR st_mode)
             else ret false) s1) as [[|] s2].
  - unfold bind at 1.
    pose proof (Hrec (child_path path (d_name e)) s2) as Hr.
    destruct (rec (child_path path (d_name e)) s2) as [[result'|] s3];
      cbn [fst] in Hr; [|exact I].
    now apply IH.
  - unfold bind at 1.
    destruct (call (unlink (child_path path (d_name e))) s2) as [u s3].
    apply IH. destruct (negb (u =? 0)); auto.
Qed.

Lemma remove_dir_recursive_impl_result (fuel : nat) :
  forall path s,
    match fst (remove_dir_recursive_impl fuel path s) with
    | Some v => v = 0 \/ v = -1
    | None => True
    end.
Proof.
  induction fuel as [|fuel IH]; intros path s; [exact I|].
  cbn [remove_dir_recursive_impl]. unfold bind at 1.
  destruct (call (lstat path) s) as [[r st_mode] s1].
  destruct (negb (r =? 0)); [cbn; auto|].
  destruct (negb (S_ISDIR st_mode)).
  - unfold bind. destruct (call (unlink path) s1) as [u s2].
    unfold ret. cbn [fst]. destruct (negb (u =? 0)); auto.
  - unfold bind at 1. destruct (call (opendir path) s1) as [dir s2].
    destruct (dir =? 0); [cbn; auto|].
    unfold bind at 1.
    pose proof (remove_children_result (remove_dir_recursive_impl fuel)
                  path dir IH fuel 0 s2 (or_introl eq_refl)) as Hc.
    destruct (remove_children (remove_dir_recursive_impl fuel) fuel path
                dir 0 s2) as [[result|] s3]; cbn [fst] in Hc; [|exact I].
    unfold bind at 1. destruct (call (closedir dir) s3) as [cd s4].
    destruct Hc as [-> | ->].
    + cbn [Z.eqb]. unfold bind.
      destruct (call (rmdir path) s4) as [rd s5].
      unfold ret. cbn [fst]. destruct (negb (rd =? 0)); auto.
    + cbn. auto.
Qed.

End RecursiveDeleteProperties.

(** The recursive delete of the libc backend stays inside the tree it is
    given: whatever the world answers and however much fuel there is,
    every [lstat], [unlink], [opendir] and [rmdir] it makes names [path]
    itself or a path that [path] is a prefix of, and it makes no other
    kind of call than these and [readdir] and [closedir]; its result is
    0 or -1 (or the fuel ran out).  [DeleteDirectoryRecursively] adds to
    this only the look at the last error, and with non-zero error codes
    it reports success only when the helper returned 0. *)
Theorem remove_dir_recursive_impl_confined {P : Platform} {DL : DenyLists}
    (fuel : nat) (path : string) (ign : bool) (s : State) :
  (let '(r, s1) := remove_dir_recursive_impl fuel path s in
   match r with Some v => v = 0 \/ v = -1 | None => True end /\
   exists evs, snd s1 = snd s ++ evs /\ forallb (within path) evs = true) /\
  (let '(r, s1) := DeleteDirectoryRecursively_stdio fuel path ign s in
   exists evs,
     snd s1 = snd s ++ evs /\
     forallb (fun e => within path e
                       || match e with Ev fsdevGetLastResult => true
                          | _ => false end) evs = true /\
     (Result_FsReadOnly <> 0 -> Result_FsUnknownStdioError <> 0 ->
      r = Some 0 ->
      fst (remove_dir_recursive_impl fuel path s) = Some 0)).
Proof.
  pose proof (remove_dir_recursive_impl_within fuel path s) as Ht.
  pose proof (remove_dir_recursive_impl_result fuel path s) as Hr.
  split.
  - destruct (remove_dir_recursive_impl fuel path s) as [r s1].
    cbn [fst snd] in *. split; [exact Hr|exact Ht].
  - unfold DeleteDirectoryRecursively_stdio.
    destruct (ign || negb (is_read_only path)).
    2:{ unfold ret. exists []. rewrite app_nil_r.
        split; [reflexivity|]. split; [reflexivity|].
        intros H0 _ [= E]. now contradiction H0. }
    unfold bind at 1.
    destruct (remove_dir_recursive_impl fuel path s) as [r s1].
    cbn [fst snd] in *. destruct Ht as [evs [Ht Hok]].
    assert (Hok' : forallb (fun e => within path e
                       || match e with Ev fsdevGetLastResult => true
                          | _ => false end) evs = true).
    { rewrite forallb_forall in Hok |- *. intros e He.
      now rewrite (Hok e He). }
    destruct r as [v|].
    2:{ unfold ret. exists evs. repeat split; try assumption. discriminate. }
    destruct (negb (v =? 0)) eqn:Hv.
    + unfold fsdev_error, R_TRY, bind, call.
      destruct (exec fsdevGetLastResult (fst s1)) as [lr w1]. cbn [fst snd].
      destruct (R_FAILED lr) eqn:Hlr; unfold ret; cbn [fst snd];
        exists (evs ++ [Ev fsdevGetLastResult]);
        rewrite Ht, <- app_assoc; (split; [reflexivity|]);
        (split; [rewrite forallb_app, Hok'; reflexivity|]);
        intros H0 H1 [= E].
      * unfold R_FAILED in Hlr. rewrite E in Hlr. discriminate.
      * now contradiction H1.
    + unfold ret. exists evs. cbn [snd].
      repeat split; try assumption.
      intros _ _ _. apply negb_false_iff, Z.eqb_eq in Hv. now subst.
Qed.

(** ** IsDirEmpty on the libc backend *)

Lemma IsDirEmpty_loop_trace {P : Platform} (dir : Z) (fuel : nat) :
  forall s, exists k,
    snd (snd (IsDirEmpty_loop fuel dir s))
    = snd s ++ repeat (Ev (readdir dir)) k.
Proof.
  induction fuel as [|fuel IH]; intros s.
  - exists O. cbn. now rewrite app_nil_r.
  - cbn [IsDirEmpty_loop]. unfold bind, call.
    destruct (exec (readdir dir) (fst s)) as [[de|] w1].
    + destruct (is_dot_or_dotdot (d_name de)).
      * destruct (IH (w1, snd s ++ [Ev (readdir dir)])) as [k Hk].
        exists (S k). rewrite Hk. cbn [snd repeat].
        now rewrite <- app_assoc.
      * exists 1%nat. reflexivity.
    + exists 1%nat. reflexivity.
Qed.

Lemma IsDirEmpty_loop_stream (ro unk na : Result) (h : Z)
    (es : list dirent) :
  forall (fuel : nat) (w : MemFs.t) (t : list Event),
  MemFs.zlookup h (MemFs.dirs w) = Some es ->
  (List.length es < fuel)%nat ->
  exists (w1 : MemFs.t) (t1 : list Event),
    IsDirEmpty_loop (P:=memfs ro unk na) fuel h (w, t)
    = (Some (forallb (fun e => is_dot_or_dotdot (d_name e)) es), (w1, t1)) /\
    MemFs.nodes w1 = MemFs.nodes w.
Proof.
  induction es as [|e rest IH]; intros fuel w t Hs Hfuel;
    (destruct fuel as [|fuel]; [cbn in Hfuel; lia|]);
    cbn [IsDirEmpty_loop]; unfold bind at 1;
    pose proof (readdir_step ro unk na (mkDir None 0 h 0) w t _ Hs) as R;
    cbn [dir_stdio] in R; rewrite R; clear R.
  - do 2 eexists. split; reflexivity.
  - cbn [forallb]. destruct (is_dot_or_dotdot (d_name e)); cbn [andb].
    + cbn [List.length] in Hfuel.
      destruct (IH fuel
                  (MemFs.with_dirs w ((h, rest) :: MemFs.zremove h (MemFs.dirs w)))
                  (t ++ [Ev (readdir h)]) (zlookup_head _ _ _)
                  ltac:(lia)) as [w1 [t1 [E Hn]]].
      exists w1, t1. split; [exact E|exact Hn].
    + do 2 eexists. split; reflexivity.
Qed.

Lemma has_children_entries (k : MemFs.key) (w : MemFs.t) :
  MemFs.has_children k w = false -> MemFs.entries_of k w = [].
Proof.
  unfold MemFs.has_children, MemFs.entries_of.
  induction (MemFs.nodes w) as [|e l IH]; [reflexivity|].
  cbn [existsb flat_map]. intros H. apply orb_false_iff in H.
  destruct H as [H1 H2]. now rewrite H1, (IH H2).
Qed.

(** [IsDirEmpty] on the libc backend.  Whatever the world answers: the
    run opens the directory once, then only reads the stream it was
    given, and when it returns after a successful [opendir] its last call
    closes that stream; when [opendir] fails it reports the error and
    leaves [*out] at [true].  On the in-memory tree, with a directory at
    the path and fuel for one [readdir] more than it has entries: the
    call succeeds, answers [true] exactly when every entry bears a dot
    name (so for a directory without children), and changes no node;
    where there is no directory it fails with [*out] left at [true]. *)
Theorem IsDirEmpty_stdio_scans (ro unk na code : Result)
    (fuel : nat) (path : string) (w : MemFs.t) (t : list Event) :
  (forall (P : Platform) (s : State),
     let dir := fst (exec (opendir path) (fst s)) in
     let '(r, s1) := IsDirEmpty_stdio code fuel path s in
     exists k,
       snd s1 = snd s ++ Ev (opendir path)
                  :: (if dir =? 0 then []
                      else repeat (Ev (readdir dir)) k
                           ++ match r with
                              | Some _ => [Ev (closedir dir)]
                              | None => []
                              end) /\
       (dir = 0 -> r = Some (code, true))) /\
  (0 < MemFs.next_handle w ->
   let '(r, s1) := IsDirEmpty_stdio (P:=memfs ro unk na) code fuel path (w, t) in
   match MemFs.node_at (MemFs.resolve path) w with
   | Some MemFs.NDir =>
       (List.length (MemFs.entries_of (MemFs.resolve path) w) < fuel)%nat ->
       r = Some (0, forallb (fun e => is_dot_or_dotdot (d_name e))
                      (MemFs.entries_of (MemFs.resolve path) w)) /\
       (MemFs.has_children (MemFs.resolve path) w = false ->
        r = Some (0, true)) /\
       MemFs.nodes (fst s1) = MemFs.nodes w
   | _ => r = Some (code, true) /\ MemFs.nodes (fst s1) = MemFs.nodes w
   end).
Proof.
  split.
  - intros P s dir. unfold IsDirEmpty_stdio, bind at 1, call.
    subst dir. destruct (exec (opendir path) (fst s)) as [dir w1].
    cbn [fst snd]. destruct (dir =? 0) eqn:Hd.
    + unfold ret. exists O. split; [reflexivity|]. reflexivity.
    + unfold bind at 1.
      destruct (IsDirEmpty_loop_trace dir fuel
                  (w1, snd s ++ [Ev (opendir path)])) as [k Hk].
      destruct (IsDirEmpty_loop fuel dir (w1, snd s ++ [Ev (opendir path)]))
        as [[out|] s2]; cbn [snd] in Hk.
      * unfold bind, call, ret.
        destruct (exec (closedir dir) (fst s2)) as [cd w3]. cbn [fst snd].
        exists k. rewrite Hk, <- !app_assoc. split; [reflexivity|].
        intros ->. discriminate.
      * unfold ret. exists k. cbn [snd]. rewrite Hk, <- !app_assoc, app_nil_r.
        split; [reflexivity|]. intros ->. discriminate.
  - intros Hh.
    assert (Hz : (MemFs.next_handle w =? 0) = false) by (apply Z.eqb_neq; lia).
    unfold IsDirEmpty_stdio, bind at 1, call.
    cbn [exec memfs fst snd MemFs.exec].
    destruct (MemFs.node_at (MemFs.resolve path) w) as [[|c]|] eqn:Hnode;
      [|cbn; now split|cbn; now split].
    cbn [MemFs.fresh fst snd]. rewrite Hz.
    unfold bind at 1.
    set (h := MemFs.next_handle w).
    assert (Hrun : (List.length (MemFs.entries_of (MemFs.resolve path) w)
                    < fuel)%nat ->
      exists (w1 : MemFs.t) (t1 : list Event),
        IsDirEmpty_loop (P:=memfs ro unk na) fuel h
          (MemFs.with_dirs (snd (MemFs.fresh w))
             ((h, MemFs.entries_of (MemFs.resolve path) w) :: MemFs.dirs w),
           t ++ [Ev (opendir path)])
        = (Some (forallb (fun e => is_dot_or_dotdot (d_name e))
                   (MemFs.entries_of (MemFs.resolve path) w)), (w1, t1)) /\
        MemFs.nodes w1 = MemFs.nodes w).
    { intros Hfuel.
      apply (IsDirEmpty_loop_stream ro unk na h
               (MemFs.entries_of (MemFs.resolve path) w) fuel
               (MemFs.with_dirs (snd (MemFs.fresh w))
                  ((h, MemFs.entries_of (MemFs.resolve path) w)
                     :: MemFs.dirs w))
               (t ++ [Ev (opendir path)]));
        [apply zlookup_head | exact Hfuel]. }
    match goal with |- context [IsDirEmpty_loop ?f ?hh ?st] =>
      destruct (IsDirEmpty_loop f hh st) as [r0 [w2 t2]] eqn:E0
    end.
    assert (Hres : (List.length (MemFs.entries_of (MemFs.resolve path) w)
                    < fuel)%nat ->
      r0 = Some (forallb (fun e => is_dot_or_dotdot (d_name e))
                   (MemFs.entries_of (MemFs.resolve path) w)) /\
      MemFs.nodes w2 = MemFs.nodes w).
    { intros Hfuel. destruct (Hrun Hfuel) as [w1 [t1 [E Hn]]].
      pose proof (eq_trans (eq_sym E0) E) as EE.
      injection EE as -> -> _. now split. }
    clear Hrun E0.
    destruct r0 as [out|]; cbn; intros Hfuel;
      destruct (Hres Hfuel) as [Hr Hn]; [|discriminate].
    injection Hr as ->. split; [reflexivity|]. split; [|exact Hn].
    intros Hc. rewrite (has_children_entries _ _ Hc). reflexivity.
Qed.

Lemma IsDirEmpty_stdio_scans_witness :
  fst (IsDirEmpty_stdio (P:=sample) 7 5 "/d/sub" (untyped_listing_world, []))
  = Some (0, true) /\
  fst (IsDirEmpty_stdio (P:=sample) 7 5 "/d" (untyped_listing_world, []))
  = Some (0, false).
Proof.
  split.
  - pose proof (proj2 (IsDirEmpty_stdio_scans 0x10001 0x10002 0x10003 7 5
                         "/d/sub" untyped_listing_world [])
                  ltac:(cbn; lia)) as H.
    change (memfs 0x10001 0x10002 0x10003) with sample in H.
    destruct (IsDirEmpty_stdio (P:=sample) 7 5 "/d/sub"
                (untyped_listing_world, [])) as [r s1].
    cbn in H. destruct (H ltac:(lia)) as [_ [Hr _]].
    exact (Hr eq_refl).
  - pose proof (proj2 (IsDirEmpty_stdio_scans 0x10001 0x10002 0x10003 7 5
                         "/d" untyped_listing_world [])
                  ltac:(cbn; lia)) as H.
    change (memfs 0x10001 0x10002 0x10003) with sample in H.
    destruct (IsDirEmpty_stdio (P:=sample) 7 5 "/d"
                (untyped_listing_world, [])) as [r s1].
    cbn in H. destruct (H ltac:(lia)) as [Hr _].
    exact Hr.
Defined.

(** ** Hashing a span in memory *)

Lemma feed_step {H : Type} {HS : HashSource H} (chunks chunk : nat)
    (data : list byte) (h : H) :
  data <> [] ->
  feed (Datatypes.S chunks) chunk data h
  = feed chunks chunk (skipn chunk data)
      (Update (firstn chunk data)
         (Z.of_nat (List.length (firstn chunk data))) h).
Proof. destruct data; [contradiction|reflexivity]. Qed.

Lemma feed_nil {H : Type} {HS : HashSource H} (chunks chunk : nat) (h : H) :
  feed chunks chunk [] h = h.
Proof. now destruct chunks. Qed.

Lemma feed_whole {H : Type} {HS : HashSource H} (chunk : nat) :
  (forall (a b : list byte) (x : H),
     Update (a ++ b) (Z.of_nat (List.length (a ++ b))) x
     = Update b (Z.of_nat (List.length b))
         (Update a (Z.of_nat (List.length a)) x)) ->
  (0 < chunk)%nat ->
  forall (chunks : nat) (data : list byte) (h : H),
    data <> [] -> (List.length data <= chunks)%nat ->
    feed chunks chunk data h = Update data (Z.of_nat (List.length data)) h.
Proof.
  intros Hhom Hc. induction chunks as [|chunks IH]; intros data h Hd Hn.
  - destruct data; [contradiction|cbn in Hn; lia].
  - rewrite feed_step by assumption.
    destruct (skipn chunk data) as [|b rest] eqn:Es.
    + rewrite feed_nil.
      assert (Hf : firstn chunk data = data).
      { rewrite <- (firstn_skipn chunk data) at 2.
        now rewrite Es, app_nil_r. }
      now rewrite Hf.
    + rewrite <- Es. rewrite IH.
      * rewrite <- Hhom. now rewrite firstn_skipn.
      * rewrite Es. discriminate.
      * rewrite length_skipn.
        destruct data; [contradiction|cbn [List.length] in *; lia].
Qed.

Section HashSpan.
Context {H : Type} {HS : HashSource H}.
Variables (chunk_size cancelled : Z) (m_data : list byte).
Hypothesis short : Z.of_nat (List.length m_data) < 2 ^ 63.
Hypothesis positive : 0 < chunk_size.

(** The transfer from offset [off] on: every piece from there to the
    end of the span reaches [Update], in order. *)
Lemma run_transfer_span (chunks : nat) :
  forall (off : Z) (h : H) (out : string) (log : list HashEvent),
  0 <= off <= Z.of_nat (List.length m_data) ->
  (List.length m_data - Z.to_nat off <= chunks)%nat ->
  exists log',
    run_transfer
      (chunked_transfer chunks chunk_size cancelled None off
         (Z.of_nat (List.length m_data)))
      (mkHashState m_data h out log)
    = (0, mkHashState m_data
            (feed chunks (Z.to_nat chunk_size)
               (skipn (Z.to_nat off) m_data) h)
            out log').
Proof.
  induction chunks as [|chunks IH]; intros off h out log Hoff Hn.
  - exists log. reflexivity.
  - cbn [chunked_transfer].
    destruct (Z.of_nat (List.length m_data) <=? off) eqn:Hend.
    + apply Z.leb_le in Hend.
      rewrite skipn_all2 by lia. exists log. reflexivity.
    + apply Z.leb_gt in Hend.
      set (n := Z.min chunk_size (Z.of_nat (List.length m_data) - off)).
      assert (Hn0 : 0 < n) by (unfold n; lia).
      cbn [run_transfer Read MemSource hs_source hs_hash hs_out hs_log].
      rewrite (MemSource_Read_slice m_data off n) by lia.
      set (rest := skipn (Z.to_nat off) m_data).
      assert (Hrest : List.length rest
                      = (List.length m_data - Z.to_nat off)%nat).
      { unfold rest. apply length_skipn. }
      assert (Hpiece : firstn (Z.to_nat n) rest
                       = firstn (Z.to_nat chunk_size) rest).
      { unfold n. destruct (Z.min_spec chunk_size
                              (Z.of_nat (List.length m_data) - off))
          as [[_ ->] | [Hge ->]]; [reflexivity|].
        rewrite !firstn_all2 by lia. reflexivity. }
      assert (Hlen : Z.of_nat (List.length (firstn (Z.to_nat n) rest)) = n).
      { rewrite length_firstn, Hrest. unfold n. lia. }
      rewrite Hlen.
      replace (R_FAILED 0) with false by reflexivity.
      replace (n =? 0) with false by (symmetry; apply Z.eqb_neq; lia).
      cbn [run_transfer hs_source hs_hash hs_out hs_log].
      replace (R_FAILED 0) with false by reflexivity.
      cbn [option_map].
      destruct (IH (off + n) (Update (firstn (Z.to_nat n) rest) n h) out
                  ((log ++ [EvRead off n]) ++ [EvUpdate n])
                  ltac:(unfold n; lia) ltac:(lia)) as [log' E].
      exists log'. rewrite E. f_equal. f_equal.
      fold rest.
      rewrite feed_step
        by (intros Hnil; rewrite Hnil in Hrest; cbn [List.length] in Hrest;
            lia).
      rewrite <- Hpiece, Hlen. f_equal.
      unfold rest. rewrite skipn_skipn.
      destruct (Z.le_gt_cases chunk_size
                  (Z.of_nat (List.length m_data) - off)) as [Hle|Hgt].
      * f_equal. unfold n. lia.
      * rewrite !skipn_all2 by (unfold n; lia). reflexivity.
Qed.

End HashSpan.

(** Hashing a span in memory, with the transfer pulling chunks of
    [chunk_size] bytes and as many chunks allowed as the span has bytes:
    the hash computation succeeds, every byte of the span reaches
    [Update] exactly once and in order, cut into consecutive pieces of
    [chunk_size] bytes (the last one shorter), and the output is [Get]
    of the accumulator that results.  For an accumulator that treats two
    updates as one update with the concatenation, the result does not
    depend on the chunk size: it is that of one update with the whole
    span. *)
Theorem Hash_feeds_whole_span {H ProgressBox : Type} {HS : HashSource H}
    (chunks : nat) (chunk_size cancelled : Z) (pbox : ProgressBox)
    (m_data : list byte) (h : H) (out : string) (log : list HashEvent) :
  Z.of_nat (List.length m_data) < 2 ^ 63 -> 0 < chunk_size ->
  (List.length m_data <= chunks)%nat ->
  let '(rc, st') :=
    Hash (fun (_ : ProgressBox) size =>
            chunked_transfer chunks chunk_size cancelled None 0 size)
      pbox (mkHashState m_data h out log) in
  rc = 0 /\
  hs_hash st' = feed chunks (Z.to_nat chunk_size) m_data h /\
  hs_out st' = Get (hs_hash st') /\
  ((forall (a b : list byte) (x : H),
      Update (a ++ b) (Z.of_nat (List.length (a ++ b))) x
      = Update b (Z.of_nat (List.length b))
          (Update a (Z.of_nat (List.length a)) x)) ->
   m_data <> [] ->
   hs_hash st' = Update m_data (Z.of_nat (List.length m_data)) h).
Proof.
  intros Hshort Hpos Hn. unfold Hash.
  cbn [Size MemSource hs_source hs_hash hs_out hs_log].
  unfold MemSource_Size. rewrite to_s64_small by lia.
  replace (R_FAILED 0) with false by reflexivity.
  destruct (run_transfer_span chunk_size cancelled m_data Hshort Hpos chunks
              0 h out (log ++ [EvSize]) ltac:(lia) ltac:(cbn; lia))
    as [log' E].
  rewrite E. replace (R_FAILED 0) with false by reflexivity.
  cbn [hs_source hs_hash hs_out hs_log skipn Z.to_nat].
  split; [reflexivity|]. split; [reflexivity|]. split; [reflexivity|].
  intros Hhom Hd. apply feed_whole; [exact Hhom|lia|exact Hd|exact Hn].
Qed.

Lemma Hash_feeds_whole_span_witness :
  let '(rc, st') :=
    Hash (HS:=HashCrc32 byte_sum)
      (fun (_ : unit) size => chunked_transfer 3 2 1 None 0 size)
      tt (mkHashState [x01; x02; x03] 0 EmptyString []) in
  rc = 0 /\ hs_hash st' = 6 /\ hs_out st' = "00000006"%string.
Proof.
  pose proof (Hash_feeds_whole_span (HS:=HashCrc32 byte_sum) 3 2 1 tt
                [x01; x02; x03] 0 EmptyString []
                ltac:(cbn; lia) ltac:(lia) ltac:(cbn; lia)) as W.
  destruct (Hash (HS:=HashCrc32 byte_sum)
              (fun (_ : unit) size => chunked_transfer 3 2 1 None 0 size)
              tt (mkHashState [x01; x02; x03] 0 EmptyString []))
    as [rc st'].
  destruct W as [Hrc [Hh [Ho _]]].
  split; [exact Hrc|]. split; [rewrite Hh; reflexivity|].
  rewrite Ho, Hh. reflexivity.
Defined.

(** ** Setting and reading the size of an open file *)

(** On a file of the in-memory tree opened through either backend with
    the write bit in the mode: [File::SetSize] to [n] succeeds and after
    it [File::GetSize] reports [n]; when the mode has the read bit too,
    reading [n] bytes from the start gives the old content cut or
    zero-filled to [n] bytes.  (A handle opened for reading alone cannot
    be resized: [ftruncate] and the service refuse it.) *)
Theorem File_SetSize_then_GetSize (ro unk na : Result) {DL : DenyLists}
    (fs : Fs) (path : string) (mode n : Z) (c : list byte)
    (w : MemFs.t) (t : list Event) :
  MemFs.node_at (MemFs.resolve path) w = Some (MemFs.NFile c) ->
  is_empty path = false ->
  0 < MemFs.next_handle w -> MemFs.io_fault w = false ->
  has_flag mode FsOpenMode_Write = true ->
  0 <= n ->
  let '((rc0, f), s0) :=
    OpenFile (P:=memfs ro unk na) fs path mode File_default (w, t) in
  let '(rc1, s1) := File_SetSize f n s0 in
  let '((rc2, size), s2) := File_GetSize f s1 in
  let '((rc3, buf, bytes_read, _), _) := File_Read f 0 n 0 s2 in
  rc0 = 0 /\ rc1 = 0 /\ rc2 = 0 /\ size = n /\
  (has_flag mode FsOpenMode_Read = true ->
   rc3 = 0 /\ buf = resize (Z.to_nat n) c /\ bytes_read = n).
Proof.
  intros Hnode Hne Hh Hio Hmode Hn.
  pose proof (node_at_file _ _ _ Hnode) as Hlook.
  assert (Hz : (MemFs.next_handle w =? 0) = false) by (apply Z.eqb_neq; lia).
  assert (Hpos : (0 <? MemFs.next_handle w) = true) by (apply Z.ltb_lt; lia).
  assert (Hnn : (n <? n) = false) by (apply Z.ltb_irrefl).
  assert (Hfirst : firstn (Z.to_nat n) (resize (Z.to_nat n) c)
                   = resize (Z.to_nat n) c).
  { apply firstn_all2. rewrite length_resize. lia. }
  destruct fs as [h ign | ign].
  - unfold OpenFile, File_SetSize, File_GetSize, File_Read, R_TRY,
      R_SUCCEED, bind, call.
    cbn [exec memfs fst snd MemFs.exec IsNative m_fs m_native].
    rewrite Hnode.
    repeat (progress (cbn; unfold MemFs.content_of;
      rewrite ?Z.eqb_refl, ?Hlook, ?key_eqb_refl, ?Z2Nat.id, ?Nat2Z.id,
              ?length_resize, ?firstn_all by lia)).
    rewrite firstn_all2 by (rewrite length_resize; lia).
    rewrite length_resize.
    repeat split; lia.
  - unfold OpenFile, File_SetSize, File_GetSize, File_Read, R_UNLESS,
      R_SUCCEED, bind, call.
    cbn [exec memfs fst snd MemFs.exec IsNative m_fs m_native m_stdio
         m_stdio_off m_mode File_default].
    rewrite Hmode.
    destruct (has_flag mode FsOpenMode_Read);
      cbn [andb fst snd]; unfold MemFs.fopen_file; cbn [fst snd];
      rewrite Hne, Hnode;
      repeat (progress (cbn; unfold MemFs.content_of;
        rewrite ?Z.eqb_refl, ?Hz, ?Hpos, ?Hio, ?Hlook, ?key_eqb_refl,
                ?Hfirst, ?Z2Nat.id, ?Nat2Z.id, ?length_resize, ?Hnn by lia));
      repeat split; reflexivity.
Qed.

Lemma File_SetSize_then_GetSize_witness :
  let '((rc0, f), s0) :=
    OpenFile (P:=sample) (FsStdio true) "/f"
      (Z.lor FsOpenMode_Read FsOpenMode_Write) File_default
      (one_file [x01; x02; x03], []) in
  let '(rc1, s1) := File_SetSize f 5 s0 in
  let '((rc2, size), s2) := File_GetSize f s1 in
  let '((rc3, buf, bytes_read, _), _) := File_Read f 0 5 0 s2 in
  rc0 = 0 /\ rc1 = 0 /\ rc2 = 0 /\ size = 5 /\
  rc3 = 0 /\ buf = [x01; x02; x03; x00; x00] /\ bytes_read = 5.
Proof.
  pose proof (File_SetSize_then_GetSize 0x10001 0x10002 0x10003
                (FsStdio true) "/f" (Z.lor FsOpenMode_Read FsOpenMode_Write)
                5 [x01; x02; x03] (one_file [x01; x02; x03]) []
                eq_refl eq_refl ltac:(cbn; lia) eq_refl eq_refl ltac:(lia))
    as H.
  vm_compute in H. vm_compute.
  destruct H as [H0 [H1 [H2 [H3 H4]]]].
  destruct (H4 eq_refl) as [H5 [H6 H7]].
  split; [exact H0|]. split; [exact H1|]. split; [exact H2|].
  split; [exact H3|]. split; [exact H5|]. split; [exact H6 | exact H7].
Defined.

(* ================================================================== *)
(** * Properties of ui/menus/ghdl.cpp *)

(** ** Strings *)

Lemma length_append (a b : string) :
  String.length (a +:+ b) = (String.length a + String.length b)%nat.
Proof. induction a as [|x a IH]; cbn; [reflexivity|now rewrite IH]. Qed.

Lemma strrchr_none (s : string) (c : ascii) :
  strrchr s c = None <-> strchr s c = None.
Proof.
  induction s as [|d s IH]; cbn; [tauto|].
  destruct (Ascii.eqb d c).
  - destruct (strrchr s c); split; discriminate.
  - destruct (strrchr s c) as [i|], (strchr s c) as [j|]; cbn; split;
      intros H; try discriminate; try reflexivity; exfalso.
    + destruct IH as [_ IH]. discriminate (IH eq_refl).
    + destruct IH as [IH _]. discriminate (IH eq_refl).
Qed.

Lemma strrchr_last (a b : string) (c : ascii) :
  strchr b c = None -> strrchr (a +:+ String c b) c = Some (String.length a).
Proof.
  intros Hb. apply strrchr_none in Hb.
  induction a as [|x a IH]; cbn.
  - now rewrite Hb, Ascii.eqb_refl.
  - now rewrite IH.
Qed.

Lemma drop_past (a b : string) (c : ascii) :
  drop (String.length a + 1) (a +:+ String c b) = b.
Proof. induction a as [|x a IH]; cbn; [reflexivity|exact IH]. Qed.

Lemma take_append (a b : string) : take (String.length a) (a +:+ b) = a.
Proof.
  induction a as [|x a IH]; cbn; [now destruct b|now rewrite IH].
Qed.

Lemma length_drop (n : nat) (s : string) :
  String.length (drop n s) = (String.length s - n)%nat.
Proof.
  revert s. induction n as [|n IH]; intros [|c s]; cbn; try lia.
  apply IH.
Qed.

Lemma strrchr_bound (s : string) (c : ascii) (pos : nat) :
  strrchr s c = Some pos -> (pos < String.length s)%nat.
Proof.
  revert pos. induction s as [|d s IH]; intros pos; cbn; [discriminate|].
  destruct (strrchr s c) as [i|].
  - intros [= <-]. specialize (IH i eq_refl). lia.
  - destruct (Ascii.eqb d c); [intros [= <-]; lia|discriminate].
Qed.

Lemma strrchr_drop (s : string) (c : ascii) (pos : nat) :
  strrchr s c = Some pos -> strchr (drop (pos + 1) s) c = None.
Proof.
  revert pos. induction s as [|d s IH]; intros pos; cbn; [discriminate|].
  destruct (strrchr s c) as [i|] eqn:E.
  - intros [= <-]. cbn. now apply IH.
  - destruct (Ascii.eqb d c); [|discriminate]. intros [= <-]. cbn.
    now apply strrchr_none.
Qed.

Lemma strchr_take (n : nat) (s : string) (c : ascii) :
  strchr s c = None -> strchr (take n s) c = None.
Proof.
  revert s. induction n as [|n IH]; intros [|d s]; cbn; try reflexivity.
  destruct (Ascii.eqb d c); [discriminate|].
  destruct (strchr s c) eqn:E; [discriminate|]. intros _.
  now rewrite (IH s E).
Qed.

Lemma starts_with_length (s p : string) :
  starts_with s p = true -> (String.length p <= String.length s)%nat.
Proof.
  intros H. apply starts_with_iff in H. destruct H as [rest ->].
  rewrite length_append. lia.
Qed.

Lemma rfind_bound (s pat : string) (i : nat) :
  rfind s pat = Some i -> (i + String.length pat <= String.length s)%nat.
Proof.
  revert i. induction s as [|d s IH]; intros i.
  - cbn. destruct pat; [intros [= <-]; cbn; lia|discriminate].
  - cbn [rfind]. destruct (rfind s pat) as [j|].
    + intros [= <-]. specialize (IH j eq_refl). cbn. lia.
    + destruct (starts_with (String d s) pat) eqn:E; [|discriminate].
      intros [= <-]. now apply starts_with_length.
Qed.

Lemma rfind_occurs (s pat : string) (i : nat) :
  rfind s pat = Some i ->
  exists a b, s = a +:+ (pat +:+ b) /\ String.length a = i.
Proof.
  revert i. induction s as [|d s IH]; intros i.
  - cbn. destruct pat; [|discriminate]. intros [= <-].
    now exists EmptyString, EmptyString.
  - cbn [rfind]. destruct (rfind s pat) as [j|].
    + intros [= <-]. destruct (IH j eq_refl) as [a [b [-> Ha]]].
      exists (String d a), b. cbn. now rewrite Ha.
    + destruct (starts_with (String d s) pat) eqn:E; [|discriminate].
      intros [= <-]. apply starts_with_iff in E. destruct E as [rest E].
      exists EmptyString, rest. now split.
Qed.

Lemma rfind_suffix (stem pat : string) :
  is_empty pat = false ->
  rfind (stem +:+ pat) pat = Some (String.length stem).
Proof.
  intros Hp. induction stem as [|x stem IH].
  - cbn [String.append String.length]. destruct pat as [|c p]; [discriminate|].
    cbn [rfind]. destruct (rfind p (String c p)) as [j|] eqn:E.
    + apply rfind_bound in E. cbn in E. lia.
    + now rewrite starts_with_refl.
  - cbn [String.append rfind String.length]. now rewrite IH.
Qed.

Lemma append_empty_r (s : string) : s +:+ EmptyString = s.
Proof. induction s as [|c s IH]; cbn; [reflexivity|now rewrite IH]. Qed.

Lemma length_zero (s : string) : String.length s = O -> s = EmptyString.
Proof. now destruct s. Qed.

(** The display name of a direct link is never empty and holds no
    slash.  For a URL that ends in a slash-free file name after its last
    slash, it is that file name, without the four characters [.zip] when
    the name ends with them and is longer than them; for a URL without a
    slash, or ending in one, it is ["Direct Link"]. *)
Theorem direct_link_name_spec :
  (forall url,
     is_empty (direct_link_name url) = false /\
     strchr (direct_link_name url) slash = None) /\
  (forall base stem,
     strchr stem slash = None -> is_empty stem = false ->
     direct_link_name (base +:+ "/" +:+ stem +:+ ".zip") = stem) /\
  (forall base name,
     strchr name slash = None -> is_empty name = false ->
     (forall stem, is_empty stem = false -> name <> stem +:+ ".zip") ->
     direct_link_name (base +:+ "/" +:+ name) = name) /\
  (forall url, strchr url slash = None ->
               direct_link_name url = "Direct Link") /\
  (forall base, direct_link_name (base +:+ "/") = "Direct Link").
Proof.
  assert (Hname : forall base name,
    strchr name slash = None -> is_empty name = false ->
    strrchr (base +:+ "/" +:+ name) slash = Some (String.length base) /\
    (String.length base + 1 <? String.length (base +:+ "/" +:+ name))%nat
    = true /\
    drop (String.length base + 1) (base +:+ "/" +:+ name) = name).
  { intros base name Hs Hne.
    change ("/" +:+ name) with (String slash name).
    split; [now apply strrchr_last|]. split; [|apply drop_past].
    apply Nat.ltb_lt. rewrite length_append. cbn [String.length].
    destruct name; [discriminate|]. cbn. lia. }
  split; [|split; [|split; [|split]]].
  - intros url. unfold direct_link_name.
    destruct (strrchr url slash) as [pos|] eqn:Hpos; [|now split].
    destruct (pos + 1 <? String.length url)%nat eqn:Hlt; [|now split].
    apply Nat.ltb_lt in Hlt.
    pose proof (strrchr_drop _ _ _ Hpos) as Hns.
    pose proof (length_drop (pos + 1) url) as Hlen.
    set (repo := drop (pos + 1) url) in *.
    assert (Hrepo : is_empty repo = false /\ strchr repo slash = None).
    { split; [|exact Hns]. destruct repo; [cbn in Hlen; lia|reflexivity]. }
    destruct (4 <? String.length repo)%nat eqn:H4; [|exact Hrepo].
    apply Nat.ltb_lt in H4.
    destruct (rfind repo ".zip") as [ext_pos|] eqn:Hr; [|exact Hrepo].
    destruct (ext_pos =? String.length repo - 4)%nat eqn:He; [|exact Hrepo].
    apply Nat.eqb_eq in He.
    destruct (rfind_occurs _ _ _ Hr) as [a [b [Hab Ha]]].
    split.
    + rewrite Hab, <- Ha, take_append.
      destruct a; [cbn in Ha; lia|reflexivity].
    + now apply strchr_take.
  - intros base stem Hs Hne.
    assert (Hs' : strchr (stem +:+ ".zip") slash = None).
    { apply strchr_append_none; [exact Hs|reflexivity]. }
    assert (Hne' : is_empty (stem +:+ ".zip") = false).
    { destruct stem; [discriminate|reflexivity]. }
    destruct (Hname base (stem +:+ ".zip") Hs' Hne') as [H1 [H2 H3]].
    unfold direct_link_name.
    rewrite H1, H2, H3.
    rewrite length_append. cbn [String.length].
    replace (4 <? String.length stem + 4)%nat with true
      by (symmetry; apply Nat.ltb_lt; destruct stem; [discriminate|cbn; lia]).
    rewrite rfind_suffix by reflexivity.
    replace (String.length stem =? String.length stem + 4 - 4)%nat with true
      by (symmetry; apply Nat.eqb_eq; lia).
    apply take_append.
  - intros base name Hs Hne Hnot.
    destruct (Hname base name Hs Hne) as [H1 [H2 H3]].
    unfold direct_link_name. rewrite H1, H2, H3.
    destruct (4 <? String.length name)%nat eqn:H4; [|reflexivity].
    apply Nat.ltb_lt in H4.
    destruct (rfind name ".zip") as [ext_pos|] eqn:Hr; [|reflexivity].
    destruct (ext_pos =? String.length name - 4)%nat eqn:He; [|reflexivity].
    apply Nat.eqb_eq in He. exfalso.
    destruct (rfind_occurs _ _ _ Hr) as [a [b [Hab Ha]]].
    assert (Hb : b = EmptyString).
    { apply length_zero. apply (f_equal String.length) in Hab.
      rewrite !length_append in Hab. cbn [String.length] in Hab. lia. }
    subst b. apply (Hnot a).
    + destruct a; [cbn in Ha; lia|reflexivity].
    + exact Hab.
  - intros url Hs. unfold direct_link_name.
    apply strrchr_none in Hs. now rewrite Hs.
  - intros base. unfold direct_link_name.
    change (base +:+ "/") with (base +:+ String slash EmptyString).
    rewrite (strrchr_last base EmptyString slash eq_refl).
    rewrite length_append. cbn [String.length].
    now rewrite Nat.ltb_irrefl.
Qed.



(** ** Opening and closing *)

Ltac red_handles :=
  cbn [fst snd m_fs m_native m_stdio m_stdio_off m_mode IsNative File_default].

(** A handle opened from a fresh [File] and then closed.  On the libc
    backend, with the read or the write bit in the mode: the open is one
    [fopen]; the close is one [fclose] of the stream that [fopen]
    returned, and no call at all when the open failed, so a failed open
    leaves nothing to close.  On the native backend: the open is one
    [fsFsOpenFile]; the close of an active session is [fsFileClose] on
    it, followed by a commit of the file system exactly when the mode
    has the write bit.  Either way the handle is left inactive. *)
Theorem OpenFile_Close_pairing {P : Platform} {DL : DenyLists}
    (fs : Fs) (path : string) (mode : Z) (s : State) :
  Result_FsUnknownStdioError <> 0 ->
  has_flag mode FsOpenMode_Read || has_flag mode FsOpenMode_Write = true ->
  let '((rc, f), s1) := OpenFile fs path mode File_default s in
  let '(f2, s2) := File_Close f s1 in
  match fs with
  | FsStdio _ =>
      (exists m, snd s1 = snd s ++ [Ev (fopen path m)]) /\
      snd s2 = snd s1 ++ (if m_stdio f =? 0 then []
                          else [Ev (fclose (m_stdio f))]) /\
      (rc = 0 -> m_stdio f <> 0) /\
      m_stdio f2 = 0
  | FsNative h _ =>
      snd s1 = snd s ++ [Ev (fsFsOpenFile h path mode)] /\
      snd s2 = snd s1
               ++ (if serviceIsActive (m_native f)
                   then Ev (fsFileClose (m_native f))
                        :: (if has_flag mode FsOpenMode_Write
                            then [Ev (fsFsCommit h)] else [])
                   else []) /\
      m_native f2 = 0
  end.
Proof.
  intros Hcode Hmode. destruct s as [w t]. destruct fs as [h ign | ign].
  - unfold OpenFile, File_Close, Fs_Commit, bind, call, ret.
    red_handles.
    destruct (exec (fsFsOpenFile h path mode) w) as [[rc n] w1].
    destruct (R_FAILED rc); red_handles;
      (destruct (serviceIsActive n) eqn:Hact; red_handles;
       [ destruct (exec (fsFileClose n) w1) as [u w2]; red_handles;
         destruct (has_flag mode FsOpenMode_Write); red_handles;
         [ destruct (exec (fsFsCommit h) w2) as [c w3]; red_handles;
           rewrite <- app_assoc
         | ]
       | rewrite app_nil_r ]);
      (split; [reflexivity|]); (split; [reflexivity|]);
      try reflexivity;
      unfold serviceIsActive in Hact;
      now apply negb_false_iff, Z.eqb_eq in Hact.
  - unfold OpenFile, bind, call, ret. red_handles.
    destruct (has_flag mode FsOpenMode_Read);
      destruct (has_flag mode FsOpenMode_Write); try discriminate Hmode;
      cbn [andb];
      match goal with |- context [exec (fopen ?pa ?m) ?w0] =>
        destruct (exec (fopen pa m) w0) as [p w1]
      end;
      red_handles; destruct (p =? 0) eqn:Hp; red_handles;
      unfold File_Close, bind, call, ret; red_handles; rewrite Hp;
      cbn [negb].
    all: try match goal with |- context [exec (fclose ?q) ?w0] =>
           destruct (exec (fclose q) w0) as [u w2]
         end; red_handles;
      rewrite ?app_nil_r;
      (split; [eexists; reflexivity|]); (split; [reflexivity|]);
      (split; [|first [reflexivity | now apply Z.eqb_eq]]);
      first [ intros E; now contradiction Hcode
            | intros _; now apply Z.eqb_neq ].
Qed.

Lemma OpenFile_Close_pairing_witness :
  let '((rc, f), s1) :=
    OpenFile (P:=sample) (FsNative 1 false) "/f" FsOpenMode_Write
      File_default (one_file [x01], []) in
  let '(f2, s2) := File_Close f s1 in
  rc = 0 /\
  snd s2 = [ Ev (fsFsOpenFile 1 "/f" FsOpenMode_Write);
             Ev (fsFileClose (m_native f)); Ev (fsFsCommit 1) ] /\
  m_native f2 = 0.
Proof.
  pose proof (OpenFile_Close_pairing (P:=sample) (FsNative 1 false) "/f"
                FsOpenMode_Write (one_file [x01], [])
                ltac:(cbn; lia) eq_refl) as H.
  destruct (OpenFile (P:=sample) (FsNative 1 false) "/f" FsOpenMode_Write
              File_default (one_file [x01], [])) as [[rc f] s1] eqn:E.
  destruct (File_Close f s1) as [f2 s2].
  destruct H as [H1 [H2 H3]].
  vm_compute in E. injection E as <- <- <-.
  split; [reflexivity|]. split; [|exact H3].
  rewrite H2. reflexivity.
Defined.

(* ================================================================== *)
(** * The recursive delete on a tree *)

(** ** The path of a child *)

Lemma strchr_append_some (p Y : string) (c : ascii) :
  forall i, strchr p c = Some i ->
    strchr (p +:+ Y) c = Some i /\
    take (Datatypes.S i) (p +:+ Y) = take (Datatypes.S i) p /\
    drop (Datatypes.S i) (p +:+ Y) = drop (Datatypes.S i) p +:+ Y.
Proof.
  induction p as [|x p IH]; intros i; [discriminate|]. cbn.
  destruct (Ascii.eqb x c) eqn:E.
  - intros [= <-]. cbn. destruct p, Y; now repeat split.
  - destruct (strchr p c) as [j|] eqn:Hp; [|discriminate].
    intros [= <-]. destruct (IH j eq_refl) as [H1 [H2 H3]].
    rewrite H1. cbn [option_map]. split; [reflexivity|].
    change (take (Datatypes.S (Datatypes.S j)) (String x (p +:+ Y)))
      with (String x (take (Datatypes.S j) (p +:+ Y))).
    change (drop (Datatypes.S (Datatypes.S j)) (String x (p +:+ Y)))
      with (drop (Datatypes.S j) (p +:+ Y)).
    rewrite H2, H3. now split.
Qed.

Lemma split_on_slash (sep : ascii) (a s : string) :
  split_on sep (a +:+ String sep s) = split_on sep a ++ split_on sep s.
Proof.
  induction a as [|x a IH]; cbn.
  - now rewrite Ascii.eqb_refl.
  - rewrite IH. destruct (Ascii.eqb x sep); [reflexivity|].
    pose proof (split_on_not_nil sep a) as Hn.
    destruct (split_on sep a); [contradiction|reflexivity].
Qed.

Lemma components_slash (a s : string) :
  MemFs.components (a +:+ String slash s)
  = MemFs.components a ++ MemFs.components s.
Proof.
  unfold MemFs.components. now rewrite split_on_slash, filter_app.
Qed.

Lemma clean_parts (n : string) :
  clean n = true ->
  is_empty n = false /\ strchr n slash = None /\ strchr n colon = None /\
  is_dot_or_dotdot n = false.
Proof.
  unfold clean. intros H.
  repeat (apply andb_true_iff in H; destruct H as [H ?]).
  destruct (strchr n slash); [discriminate|].
  destruct (strchr n colon); [discriminate|].
  repeat split; now apply negb_true_iff.
Qed.

Lemma components_clean (n : string) :
  clean n = true -> MemFs.components n = [n].
Proof.
  intros H. destruct (clean_parts n H) as [Hne [Hs _]].
  unfold MemFs.components. rewrite split_on_single by assumption.
  cbn. now rewrite Hne.
Qed.

Lemma ends_with_slash_drop (p : string) (i : nat) :
  strchr p colon = Some i -> ends_with_slash p = true ->
  ends_with_slash (drop (Datatypes.S i) p) = true.
Proof.
  revert i. induction p as [|x p IH]; intros i; [discriminate|].
  cbn [strchr]. destruct (Ascii.eqb x colon) eqn:E.
  - intros [= <-]. cbn [drop]. destruct p as [|y p]; [|now destruct p].
    cbn. apply Ascii.eqb_eq in E. subst x. discriminate.
  - destruct (strchr p colon) as [j|] eqn:Hp; [|discriminate].
    intros [= <-] He. cbn [drop].
    destruct p as [|y p]; [discriminate|]. apply (IH j eq_refl). exact He.
Qed.

(** The path built for a child names the node one step below. *)
Lemma resolve_child_path (path n : string) :
  clean n = true ->
  MemFs.resolve (child_path path n) = MemFs.resolve path ++ [n].
Proof.
  intros Hn. destruct (clean_parts n Hn) as [Hne [Hs [Hc _]]].
  assert (Hrest : forall tail rest,
    strchr tail colon = None ->
    MemFs.components (rest +:+ tail +:+ n) = MemFs.components rest ++ [n] ->
    snd (MemFs.split_device path) = rest ->
    MemFs.resolve (path +:+ tail +:+ n) = MemFs.resolve path ++ [n]).
  { intros tail rest Ht Hcomp Hr. unfold MemFs.resolve, MemFs.split_device in *.
    destruct (strchr path colon) as [i|] eqn:Hp.
    - destruct (strchr_append_some path (tail +:+ n) colon i Hp)
        as [H1 [H2 H3]].
      rewrite H1, H2, H3. cbn [snd] in Hr. rewrite Hr. cbn [app].
      now rewrite Hcomp.
    - rewrite (strchr_append_none path (tail +:+ n) colon Hp
                 (strchr_append_none _ _ _ Ht Hc)).
      cbn [snd] in Hr. subst rest. cbn [app]. now rewrite Hcomp. }
  unfold child_path. destruct (ends_with_slash path) eqn:He.
  - change (path +:+ n) with (path +:+ EmptyString +:+ n).
    assert (Hr : ends_with_slash (snd (MemFs.split_device path)) = true).
    { unfold MemFs.split_device.
      destruct (strchr path colon) as [i|] eqn:Hp; cbn [snd];
        [now apply ends_with_slash_drop|exact He]. }
    apply (Hrest EmptyString (snd (MemFs.split_device path)));
      [reflexivity| |reflexivity].
    cbn [String.append].
    destruct (ends_with_slash_split _ Hr) as [r0 ->].
    rewrite append_assoc. change ("/" +:+ n) with (String slash n).
    rewrite components_slash, (components_clean n Hn).
    change (r0 +:+ "/") with (r0 +:+ String slash EmptyString).
    rewrite components_slash. cbn. now rewrite app_nil_r.
  - rewrite append_assoc.
    apply (Hrest "/"%string (snd (MemFs.split_device path)));
      [reflexivity| |reflexivity].
    change ("/" +:+ n) with (String slash n).
    now rewrite components_slash, (components_clean n Hn).
Qed.

(** ** Keys *)

Lemma is_prefix_iff (k k' : MemFs.key) :
  is_prefix k k' = true <-> exists x, k' = k ++ x.
Proof.
  revert k'. induction k as [|a k IH]; intros k'; cbn.
  - split; [intros _; now exists k'|reflexivity].
  - destruct k' as [|b k'].
    + split; [discriminate|intros [x Hx]; discriminate].
    + rewrite andb_true_iff, String.eqb_eq, IH. split.
      * intros [-> [x ->]]. now exists x.
      * intros [x [= -> ->]]. split; [reflexivity|now exists x].
Qed.

Lemma is_prefix_refl (k : MemFs.key) : is_prefix k k = true.
Proof. apply is_prefix_iff. exists []. now rewrite app_nil_r. Qed.

Lemma is_prefix_app (k x : MemFs.key) : is_prefix k (k ++ x) = true.
Proof. apply is_prefix_iff. now exists x. Qed.

Lemma is_prefix_trans (a b c : MemFs.key) :
  is_prefix a b = true -> is_prefix b c = true -> is_prefix a c = true.
Proof.
  rewrite !is_prefix_iff. intros [x ->] [y ->]. exists (x ++ y).
  now rewrite app_assoc.
Qed.

Lemma is_prefix_key_eqb (k k' : MemFs.key) :
  MemFs.key_eqb k k' = true -> is_prefix k k' = true.
Proof. intros H. apply key_eqb_eq in H. subst. apply is_prefix_refl. Qed.

(** Two children of one node: neither is above the other unless they
    are the same. *)
Lemma is_prefix_sibling (k : MemFs.key) (n n' : string) (x : MemFs.key) :
  is_prefix (k ++ [n]) (k ++ n' :: x) = true -> n = n'.
Proof.
  intros H. apply is_prefix_iff in H. destruct H as [y H].
  rewrite <- app_assoc in H. apply app_inv_head in H.
  now injection H.
Qed.

Lemma is_prefix_child_parent (k : MemFs.key) (n : string) :
  is_prefix (k ++ [n]) k = false.
Proof.
  destruct (is_prefix (k ++ [n]) k) eqn:E; [|reflexivity].
  apply is_prefix_iff in E. destruct E as [x E].
  apply (f_equal (@List.length string)) in E.
  rewrite !length_app in E. cbn in E. lia.
Qed.

Lemma parent_child (k : MemFs.key) (n : string) :
  MemFs.parent (k ++ [n]) = k.
Proof. unfold MemFs.parent. apply removelast_last. Qed.

Lemma key_split (k : MemFs.key) :
  k <> [] -> k = MemFs.parent k ++ [last k EmptyString].
Proof. intros H. unfold MemFs.parent. now apply app_removelast_last. Qed.

(** ** Tables of nodes *)

Lemma lookup_In (k : MemFs.key) (n : MemFs.node)
    (l : list (MemFs.key * MemFs.node)) :
  MemFs.lookup k l = Some n -> In (k, n) l.
Proof.
  induction l as [|[k0 n0] l IH]; [discriminate|]. cbn.
  destruct (MemFs.key_eqb k k0) eqn:E.
  - intros [= <-]. apply key_eqb_eq in E. subst. now left.
  - intros H. right. now apply IH.
Qed.

Lemma lookup_distinct (e : MemFs.key * MemFs.node)
    (l : list (MemFs.key * MemFs.node)) :
  distinct_keys (map fst l) = true -> In e l ->
  MemFs.lookup (fst e) l = Some (snd e).
Proof.
  induction l as [|[k0 n0] l IH]; [contradiction|]. cbn.
  intros Hd [<- | Hin]; cbn.
  - now rewrite key_eqb_refl.
  - apply andb_true_iff in Hd. destruct Hd as [Hk Hd].
    destruct (MemFs.key_eqb (fst e) k0) eqn:E; [|now apply IH].
    apply key_eqb_eq in E. subst k0. apply negb_true_iff in Hk.
    assert (Hex : existsb (MemFs.key_eqb (fst e)) (map fst l) = true).
    { apply existsb_exists. exists (fst e). split; [|apply key_eqb_refl].
      now apply in_map. }
    congruence.
Qed.

Lemma lookup_filter (p : MemFs.key -> bool) (k : MemFs.key)
    (l : list (MemFs.key * MemFs.node)) :
  p k = true ->
  MemFs.lookup k (filter (fun e => p (fst e)) l) = MemFs.lookup k l.
Proof.
  intros Hp. induction l as [|[k0 n0] l IH]; [reflexivity|]. cbn.
  destruct (p k0) eqn:E; cbn.
  - now rewrite IH.
  - destruct (MemFs.key_eqb k k0) eqn:Ek; [|exact IH].
    apply key_eqb_eq in Ek. congruence.
Qed.

Lemma distinct_filter (p : MemFs.key * MemFs.node -> bool)
    (l : list (MemFs.key * MemFs.node)) :
  distinct_keys (map fst l) = true ->
  distinct_keys (map fst (filter p l)) = true.
Proof.
  induction l as [|e l IH]; [reflexivity|]. cbn. intros Hd.
  apply andb_true_iff in Hd. destruct Hd as [Hk Hd].
  destruct (p e); [|now apply IH]. cbn. rewrite (IH Hd), andb_true_r.
  apply negb_true_iff in Hk. apply negb_true_iff.
  destruct (existsb (MemFs.key_eqb (fst e)) (map fst (filter p l))) eqn:E;
    [|reflexivity].
  apply existsb_exists in E. destruct E as [k [Hin Hk']].
  apply in_map_iff in Hin. destruct Hin as [e' [<- Hin]].
  apply filter_In in Hin. destruct Hin as [Hin _].
  assert (Hex : existsb (MemFs.key_eqb (fst e)) (map fst l) = true).
  { apply existsb_exists. exists (fst e'). split; [now apply in_map|exact Hk']. }
  congruence.
Qed.

Lemma filter_length_le {A} (p q : A -> bool) (l : list A) :
  (forall a, In a l -> p a = true -> q a = true) ->
  (List.length (filter p l) <= List.length (filter q l))%nat.
Proof.
  induction l as [|a l IH]; intros H; [reflexivity|]. cbn.
  assert (IH' := IH (fun b Hb => H b (or_intror Hb))).
  destruct (p a) eqn:Ep.
  - rewrite (H a (or_introl eq_refl) Ep). cbn. lia.
  - destruct (q a); cbn; lia.
Qed.

Lemma filter_length_lt {A} (p q : A -> bool) (l : list A) (a0 : A) :
  (forall a, In a l -> p a = true -> q a = true) ->
  In a0 l -> p a0 = false -> q a0 = true ->
  (List.length (filter p l) < List.length (filter q l))%nat.
Proof.
  induction l as [|a l IH]; intros H Hin Hp Hq; [contradiction|]. cbn.
  assert (Hle := filter_length_le p q l (fun b Hb => H b (or_intror Hb))).
  destruct Hin as [-> | Hin].
  - rewrite Hp, Hq. cbn. lia.
  - assert (IH' := IH (fun b Hb => H b (or_intror Hb)) Hin Hp Hq).
    destruct (p a) eqn:Ep.
    + rewrite (H a (or_introl eq_refl) Ep). cbn. lia.
    + destruct (q a); cbn; lia.
Qed.

Lemma filter_filter {A} (p q : A -> bool) (l : list A) :
  filter p (filter q l) = filter (fun a => q a && p a) l.
Proof.
  induction l as [|a l IH]; [reflexivity|]. cbn.
  destruct (q a); cbn; [destruct (p a)|]; now rewrite IH.
Qed.

Lemma zremove_older {A} (h : Z) (l : list (Z * A)) :
  forallb (fun d => fst d <? h) l = true -> MemFs.zremove h l = l.
Proof.
  unfold MemFs.zremove. induction l as [|d l IH]; [reflexivity|]. cbn.
  intros H. apply andb_true_iff in H. destruct H as [Hd Hl].
  apply Z.ltb_lt in Hd.
  replace (h =? fst d) with false by (symmetry; apply Z.eqb_neq; lia).
  cbn. now rewrite IH.
Qed.

Lemma entries_of_children (k : MemFs.key) (w : MemFs.t) :
  MemFs.entries_of k w
  = map (dirent_of (MemFs.reports_d_type w)) (children k (MemFs.nodes w)).
Proof.
  unfold MemFs.entries_of, children.
  induction (MemFs.nodes w) as [|e l IH]; [reflexivity|]. cbn.
  destruct (MemFs.key_eqb (MemFs.parent (fst e)) k); cbn; now rewrite IH.
Qed.

(** ** Well-formed trees *)

Lemma wf_node (w : MemFs.t) (e : MemFs.key * MemFs.node) :
  wf_tree w = true -> In e (MemFs.nodes w) ->
  (2 <= List.length (fst e))%nat /\
  forallb clean (tl (fst e)) = true /\
  (List.length (fst e) = 2%nat \/
   MemFs.lookup (MemFs.parent (fst e)) (MemFs.nodes w) = Some MemFs.NDir).
Proof.
  unfold wf_tree. intros H Hin. apply andb_true_iff in H.
  destruct H as [H _]. rewrite forallb_forall in H. specialize (H e Hin).
  apply andb_true_iff in H. destruct H as [H H3].
  apply andb_true_iff in H. destruct H as [H1 H2].
  apply Nat.leb_le in H1. split; [exact H1|]. split; [exact H2|].
  apply orb_true_iff in H3. destruct H3 as [H3|H3].
  - left. now apply Nat.eqb_eq.
  - right. destruct (MemFs.lookup _ _) as [[|]|]; (reflexivity || discriminate).
Qed.

Lemma wf_distinct (w : MemFs.t) :
  wf_tree w = true -> distinct_keys (map fst (MemFs.nodes w)) = true.
Proof. unfold wf_tree. intros H. now apply andb_true_iff in H. Qed.

(** Every node above a node, down to the second level, is a directory. *)
Lemma wf_ancestor (w : MemFs.t) :
  wf_tree w = true ->
  forall (rest : MemFs.key) (e : MemFs.key * MemFs.node)
         (k : MemFs.key) (x : string),
    In e (MemFs.nodes w) -> fst e = k ++ x :: rest ->
    (2 <= List.length k)%nat ->
    MemFs.lookup k (MemFs.nodes w) = Some MemFs.NDir.
Proof.
  intros Hwf rest.
  induction rest as [|y rest IH] using rev_ind; intros e k x Hin He Hk.
  - destruct (wf_node w e Hwf Hin) as [_ [_ [H2|Hp]]].
    + rewrite He, length_app in H2. cbn in H2. lia.
    + now rewrite He, parent_child in Hp.
  - destruct (wf_node w e Hwf Hin) as [_ [_ [H2|Hp]]].
    + rewrite He, length_app in H2. cbn in H2. lia.
    + assert (Hpar : MemFs.parent (fst e) = k ++ x :: rest).
      { rewrite He.
        replace (k ++ x :: rest ++ [y]) with ((k ++ x :: rest) ++ [y])
          by (now rewrite <- app_assoc).
        apply parent_child. }
      rewrite Hpar in Hp. apply lookup_In in Hp.
      apply (IH (k ++ x :: rest, MemFs.NDir) k x Hp eq_refl Hk).
Qed.

(** Below a file there is nothing. *)
Lemma wf_file_leaf (w : MemFs.t) (k : MemFs.key) (c : list byte) :
  wf_tree w = true -> (2 <= List.length k)%nat ->
  MemFs.lookup k (MemFs.nodes w) = Some (MemFs.NFile c) ->
  without k (MemFs.nodes w) = MemFs.remove k (MemFs.nodes w).
Proof.
  intros Hwf Hk Hl. unfold without, MemFs.remove.
  apply filter_ext_in. intros e Hin. f_equal.
  destruct (MemFs.key_eqb k (fst e)) eqn:E.
  - now apply is_prefix_key_eqb.
  - destruct (is_prefix k (fst e)) eqn:Ep; [|reflexivity].
    apply is_prefix_iff in Ep. destruct Ep as [[|x rest] He].
    + rewrite app_nil_r in He. rewrite He, key_eqb_refl in E. discriminate.
    + rewrite (wf_ancestor w Hwf rest e k x Hin He Hk) in Hl. discriminate.
Qed.

Lemma parent_prefix (k : MemFs.key) :
  is_prefix (MemFs.parent k) k = true.
Proof.
  destruct k as [|a k]; [reflexivity|].
  rewrite (key_split (a :: k)) at 2 by discriminate. apply is_prefix_app.
Qed.

Lemma lookup_without (k k' : MemFs.key)
    (l : list (MemFs.key * MemFs.node)) :
  is_prefix k k' = false ->
  MemFs.lookup k' (without k l) = MemFs.lookup k' l.
Proof.
  intros H. unfold without.
  apply (lookup_filter (fun k0 => negb (is_prefix k k0))).
  now rewrite H.
Qed.

(** Taking a whole subtree away leaves a well-formed tree. *)
Lemma wf_without (w w' : MemFs.t) (k : MemFs.key) :
  wf_tree w = true ->
  MemFs.nodes w' = without k (MemFs.nodes w) ->
  wf_tree w' = true.
Proof.
  intros Hwf Hn. unfold wf_tree. rewrite Hn. apply andb_true_iff. split.
  - apply forallb_forall. intros e Hin. unfold without in Hin.
    apply filter_In in Hin. destruct Hin as [Hin Hkeep].
    destruct (wf_node w e Hwf Hin) as [H1 [H2 H3]].
    cbn beta. apply andb_true_iff. split; [apply andb_true_iff; split|].
    + now apply Nat.leb_le.
    + exact H2.
    + apply orb_true_iff. destruct H3 as [H3|H3].
      * left. now apply Nat.eqb_eq.
      * right.
        assert (E : MemFs.lookup (MemFs.parent (fst e))
                      (without k (MemFs.nodes w)) = Some MemFs.NDir).
        { rewrite lookup_without; [exact H3|].
          apply negb_true_iff in Hkeep.
          destruct (is_prefix k (MemFs.parent (fst e))) eqn:Ep;
            [|reflexivity].
          pose proof (is_prefix_trans _ _ _ Ep (parent_prefix (fst e)))
            as Ht.
          exact (eq_trans (eq_sym Ht) Hkeep). }
        match goal with
        | |- match ?x with _ => _ end = true =>
            replace x with (Some MemFs.NDir) by (symmetry; exact E)
        end.
        reflexivity.
  - apply distinct_filter. now apply wf_distinct.
Qed.

Lemma size_below_without (w w' : MemFs.t) (k k' : MemFs.key) :
  MemFs.nodes w' = without k (MemFs.nodes w) ->
  (size_below k' w' <= size_below k' w)%nat.
Proof.
  intros Hn. unfold size_below. rewrite Hn. unfold without.
  rewrite filter_filter. apply filter_length_le.
  intros a _ H. now apply andb_true_iff in H.
Qed.

Lemma node_at_long (k : MemFs.key) (w : MemFs.t) :
  (2 <= List.length k)%nat ->
  MemFs.node_at k w = MemFs.lookup k (MemFs.nodes w).
Proof. destruct k as [|a [|b k]]; cbn; (lia || reflexivity). Qed.

(** ** The calls of the recursive delete on a well-formed tree *)

Lemma bind_eq {P : Platform} {A B} (m : M A) (k : A -> M B)
    (s s' : State) (a : A) :
  m s = (a, s') -> bind m k s = k a s'.
Proof. intros H. unfold bind. now rewrite H. Qed.

Lemma same_handles_refl (w : MemFs.t) : same_handles w w.
Proof. unfold same_handles. repeat split; lia. Qed.

Lemma same_handles_trans (a b c : MemFs.t) :
  same_handles a b -> same_handles b c -> same_handles a c.
Proof.
  unfold same_handles.
  intros [A1 [A2 [A3 [A4 [A5 A6]]]]] [B1 [B2 [B3 [B4 [B5 B6]]]]].
  repeat split; try congruence; lia.
Qed.

Lemma older_weaken {A} (h h' : Z) (l : list (Z * A)) :
  forallb (fun d => fst d <? h) l = true -> h <= h' ->
  forallb (fun d => fst d <? h') l = true.
Proof.
  intros H Hle. apply forallb_forall. intros d Hd.
  rewrite forallb_forall in H. specialize (H d Hd).
  apply Z.ltb_lt in H. apply Z.ltb_lt. lia.
Qed.

Lemma last_in_tl {A} (d : A) (l : list A) :
  (2 <= List.length l)%nat -> In (last l d) (tl l).
Proof.
  destruct l as [|a l]; cbn [List.length tl]; [lia|]. intros H.
  assert (Hl : l <> []) by (destruct l; [cbn in H; lia | discriminate]).
  clear H. revert a. induction l as [|b l IH]; intros a; [congruence|].
  destruct l as [|c l]; [now left|].
  right. apply (IH ltac:(discriminate) b).
Qed.

Lemma filter_all {A} (p : A -> bool) (l : list A) :
  (forall a, In a l -> p a = true) -> filter p l = l.
Proof.
  induction l as [|a l IH]; intros H; [reflexivity|]. cbn.
  rewrite (H a (or_introl eq_refl)). f_equal. apply IH.
  intros b Hb. apply H. now right.
Qed.

Lemma S_ISDIR_modes : S_ISDIR S_IFDIR = true /\ S_ISDIR S_IFREG = false.
Proof. split; reflexivity. Qed.

Section DeleteTree.
Variables ro unk na : Result.

Lemma lstat_step (q : string) (w : MemFs.t) (t : list Event)
    (n : MemFs.node) :
  MemFs.node_at (MemFs.resolve q) w = Some n ->
  call (P:=memfs ro unk na) (lstat q) (w, t)
  = ((0, match n with MemFs.NDir => S_IFDIR | MemFs.NFile _ => S_IFREG end),
     (w, t ++ [Ev (lstat q)])).
Proof.
  intros H. unfold call. cbn [exec memfs MemFs.exec fst snd].
  rewrite H. now destruct n.
Qed.

Lemma unlink_step (q : string) (w : MemFs.t) (t : list Event)
    (c : list byte) :
  MemFs.node_at (MemFs.resolve q) w = Some (MemFs.NFile c) ->
  call (P:=memfs ro unk na) (unlink q) (w, t)
  = (0, (MemFs.with_nodes w (MemFs.remove (MemFs.resolve q) (MemFs.nodes w)),
         t ++ [Ev (unlink q)])).
Proof.
  intros H. unfold call. cbn [exec memfs MemFs.exec fst snd].
  now rewrite H.
Qed.

Lemma rmdir_step (q : string) (w : MemFs.t) (t : list Event) :
  MemFs.lookup (MemFs.resolve q) (MemFs.nodes w) = Some MemFs.NDir ->
  MemFs.has_children (MemFs.resolve q) w = false ->
  call (P:=memfs ro unk na) (rmdir q) (w, t)
  = (0, (MemFs.with_nodes w (MemFs.remove (MemFs.resolve q) (MemFs.nodes w)),
         t ++ [Ev (rmdir q)])).
Proof.
  intros H Hc. unfold call. cbn [exec memfs MemFs.exec fst snd].
  now rewrite H, Hc.
Qed.

Lemma opendir_step (q : string) (w : MemFs.t) (t : list Event) :
  MemFs.node_at (MemFs.resolve q) w = Some MemFs.NDir ->
  call (P:=memfs ro unk na) (opendir q) (w, t)
  = (MemFs.next_handle w,
     (MemFs.with_dirs (snd (MemFs.fresh w))
        ((MemFs.next_handle w, MemFs.entries_of (MemFs.resolve q) w)
           :: MemFs.dirs w),
      t ++ [Ev (opendir q)])).
Proof.
  intros H. unfold call. cbn [exec memfs MemFs.exec fst snd].
  now rewrite H.
Qed.

Lemma closedir_step (h : Z) (w : MemFs.t) (t : list Event) :
  call (P:=memfs ro unk na) (closedir h) (w, t)
  = (0, (MemFs.with_dirs w (MemFs.zremove h (MemFs.dirs w)),
         t ++ [Ev (closedir h)])).
Proof. reflexivity. Qed.

Lemma readdir_handle_step (h : Z) (w : MemFs.t) (t : list Event)
    (es : list dirent) (D : list (Z * list dirent)) :
  MemFs.dirs w = (h, es) :: D ->
  forallb (fun d => fst d <? h) D = true ->
  call (P:=memfs ro unk na) (readdir h) (w, t)
  = match es with
    | [] => (None, (w, t ++ [Ev (readdir h)]))
    | e :: rest =>
        (Some e, (MemFs.with_dirs w ((h, rest) :: D), t ++ [Ev (readdir h)]))
    end.
Proof.
  intros Hd Ho. unfold call. cbn [exec memfs MemFs.exec fst snd].
  rewrite Hd, zlookup_head. destruct es as [|e rest]; [reflexivity|].
  unfold MemFs.zremove. cbn [filter fst]. rewrite Z.eqb_refl. cbn [negb].
  fold (MemFs.zremove h D). now rewrite (zremove_older h D Ho).
Qed.

(** Telling a directory from the entry, or from [lstat] when the entry
    does not say. *)
Lemma entry_is_dir (b : bool) (c : MemFs.key * MemFs.node) (child : string)
    (w : MemFs.t) (t : list Event) :
  MemFs.node_at (MemFs.resolve child) w = Some (snd c) ->
  exists t',
    (if d_type (dirent_of b c) =? DT_DIR then ret true
     else if (d_type (dirent_of b c) =? DT_UNKNOWN)
             || (d_type (dirent_of b c) =? DT_LNK) then
       '(r, st_mode) <- call (P:=memfs ro unk na) (lstat child) ;;
       ret ((r =? 0) && S_ISDIR st_mode)
     else ret false) (w, t)
    = (match snd c with MemFs.NDir => true | MemFs.NFile _ => false end,
       (w, t')).
Proof.
  intros H. destruct c as [kc nc]. cbn [snd] in *.
  destruct b; cbn [dirent_of d_type snd].
  - destruct nc; eexists; reflexivity.
  - change (DT_UNKNOWN =? DT_DIR) with false.
    change ((DT_UNKNOWN =? DT_UNKNOWN) || (DT_UNKNOWN =? DT_LNK)) with true.
    cbn beta iota. rewrite (bind_eq _ _ _ _ _ (lstat_step child w t nc H)).
    destruct nc; eexists; reflexivity.
Qed.


Section Loop.
Variable rec : string -> M (P:=memfs ro unk na) (option Z).
Variable f : nat.
Variable path : string.
Hypothesis Hk : (2 <= List.length (MemFs.resolve path))%nat.
Hypothesis Hrec :
  forall (q : string) (w : MemFs.t) (t : list Event),
    wf_tree w = true -> streams_older w = true ->
    0 < MemFs.next_handle w ->
    (2 <= List.length (MemFs.resolve q))%nat ->
    MemFs.lookup (MemFs.resolve q) (MemFs.nodes w) <> None ->
    (size_below (MemFs.resolve q) w < f)%nat ->
    exists w' t',
      rec q (w, t) = (Some 0, (w', t')) /\
      MemFs.nodes w' = without (MemFs.resolve q) (MemFs.nodes w) /\
      MemFs.dirs w' = MemFs.dirs w /\
      same_handles w w'.

(** The loop over the entries left in the stream: every child named by
    one goes, with all below it. *)
Lemma remove_children_deletes (h : Z) (D : list (Z * list dirent)) :
  forallb (fun d => fst d <? h) D = true -> 0 < h ->
  forall (cs : list (MemFs.key * MemFs.node)) (fuel : nat)
         (w : MemFs.t) (t : list Event),
    (List.length cs < fuel)%nat ->
    wf_tree w = true ->
    MemFs.dirs w = (h, map (dirent_of (MemFs.reports_d_type w)) cs) :: D ->
    h < MemFs.next_handle w ->
    distinct_keys (map fst cs) = true ->
    (forall e, In e cs ->
       In e (MemFs.nodes w) /\ MemFs.parent (fst e) = MemFs.resolve path /\
       (size_below (fst e) w < f)%nat) ->
    exists w' t',
      remove_children rec fuel path h 0 (w, t) = (Some 0, (w', t')) /\
      MemFs.nodes w'
      = filter (fun e => negb (existsb (fun c => is_prefix (fst c) (fst e)) cs))
          (MemFs.nodes w) /\
      MemFs.dirs w' = (h, []) :: D /\
      same_handles w w'.
Proof.
  intros HD Hh cs.
  induction cs as [|c cs IH]; intros fuel w t Hfuel Hwf Hd Hnext Hdist Hcs;
    (destruct fuel as [|fuel]; [cbn in Hfuel; lia|]);
    cbn [remove_children];
    rewrite (bind_eq _ _ _ _ _ (readdir_handle_step h w t _ D Hd HD));
    cbn [map]; cbn beta iota.
  - exists w, (t ++ [Ev (readdir h)]). split; [reflexivity|].
    split; [|split; [exact Hd | apply same_handles_refl]].
    symmetry. apply filter_all. reflexivity.
  - change (negb (0 =? 0)) with false. cbn beta iota.
    destruct (Hcs c (or_introl eq_refl)) as [Hin [Hpar Hsize]].
    destruct (wf_node w c Hwf Hin) as [Hlen [Hclean _]].
    assert (Hc3 : fst c = MemFs.resolve path ++ [last (fst c) EmptyString]).
    { rewrite <- Hpar. apply key_split. destruct (fst c); [cbn in Hlen; lia|].
      discriminate. }
    assert (Hn : clean (last (fst c) EmptyString) = true).
    { rewrite forallb_forall in Hclean. apply Hclean.
      now apply last_in_tl. }
    destruct (clean_parts _ Hn) as [_ [_ [_ Hdot]]].
    change (d_name (dirent_of (MemFs.reports_d_type w) c))
      with (last (fst c) EmptyString).
    rewrite Hdot.
    set (child := child_path path (last (fst c) EmptyString)).
    assert (Hchild : MemFs.resolve child = fst c).
    { unfold child. rewrite (resolve_child_path path _ Hn). now symmetry. }
    set (w1 := MemFs.with_dirs w
                 ((h, map (dirent_of (MemFs.reports_d_type w)) cs) :: D)).
    assert (Hlook : MemFs.lookup (fst c) (MemFs.nodes w) = Some (snd c)).
    { apply lookup_distinct; [now apply wf_distinct | exact Hin]. }
    assert (Hnode : MemFs.node_at (MemFs.resolve child) w1 = Some (snd c)).
    { rewrite Hchild, node_at_long by lia. exact Hlook. }
    apply andb_true_iff in Hdist. destruct Hdist as [Hfresh Hdist].
    (* what is left to do once [c] is gone *)
    assert (Hcont : forall (w2 : MemFs.t) (t2 : list Event),
      MemFs.nodes w2 = without (fst c) (MemFs.nodes w) ->
      MemFs.dirs w2 = MemFs.dirs w1 ->
      same_handles w1 w2 ->
      exists w' t',
        remove_children rec fuel path h 0 (w2, t2) = (Some 0, (w', t')) /\
        MemFs.nodes w'
        = filter (fun e =>
            negb (existsb (fun c0 => is_prefix (fst c0) (fst e)) (c :: cs)))
            (MemFs.nodes w) /\
        MemFs.dirs w' = (h, []) :: D /\
        same_handles w w').
    { intros w2 t2 Hn2 Hd2 Hs2.
      assert (Hs02 : same_handles w w2).
      { apply (same_handles_trans w w1 w2); [|exact Hs2].
        unfold same_handles, w1. cbn. repeat split; lia. }
      destruct Hs02 as [S1 [S2 [S3 [S4 [S5 S6]]]]].
      destruct (IH fuel w2 t2) as [w' [t' [E [N' [D' S']]]]].
      - cbn in Hfuel. lia.
      - apply (wf_without w w2 (fst c) Hwf Hn2).
      - rewrite Hd2, S4. reflexivity.
      - lia.
      - exact Hdist.
      - intros e He. destruct (Hcs e (or_intror He)) as [Hin' [Hpar' Hsz']].
        split; [|split; [exact Hpar'|]].
        + rewrite Hn2. unfold without. apply filter_In. split; [exact Hin'|].
          apply negb_true_iff.
          destruct (is_prefix (fst c) (fst e)) eqn:Ep; [|reflexivity].
          exfalso.
          assert (He3 : fst e
                        = MemFs.resolve path ++ [last (fst e) EmptyString]).
          { rewrite <- Hpar'. apply key_split.
            destruct (wf_node w e Hwf Hin') as [Hl _].
            destruct (fst e); [cbn in Hl; lia | discriminate]. }
          rewrite Hc3, He3 in Ep. apply is_prefix_sibling in Ep.
          assert (Hkk : fst c = fst e) by (rewrite Hc3, He3, Ep; reflexivity).
          apply negb_true_iff in Hfresh.
          assert (Hex : existsb (MemFs.key_eqb (fst c)) (map fst cs) = true).
          { apply existsb_exists. exists (fst e). split.
            - now apply in_map.
            - rewrite Hkk. apply key_eqb_refl. }
          exact (diff_true_false (eq_trans (eq_sym Hex) Hfresh)).
        + eapply Nat.le_lt_trans; [|exact Hsz'].
          apply (size_below_without w w2 (fst c) (fst e) Hn2).
      - exists w', t'. split; [exact E|]. split; [|split; [exact D'|]].
        + rewrite N', Hn2. unfold without. rewrite filter_filter.
          apply filter_ext. intros a. cbn [existsb].
          now rewrite negb_orb.
        + apply (same_handles_trans w w2 w');
            [unfold same_handles; repeat split; assumption | exact S']. }
    destruct (entry_is_dir (MemFs.reports_d_type w) c child w1
                (t ++ [Ev (readdir h)]) Hnode) as [t1 E1].
    rewrite (bind_eq _ _ _ _ _ E1).
    destruct (snd c) as [|content] eqn:Esnd; cbn beta iota.
    + (* a directory: the function itself removes it *)
      destruct (Hrec child w1 t1) as [w2 [t2 [E2 [N2 [D2 S2]]]]].
      * exact Hwf.
      * unfold streams_older, w1. cbn.
        apply andb_true_iff. split; [now apply Z.ltb_lt|].
        apply (older_weaken h _ D HD). lia.
      * unfold w1. cbn. lia.
      * rewrite Hchild. lia.
      * rewrite Hchild. unfold w1. cbn. rewrite Hlook. discriminate.
      * rewrite Hchild. exact Hsize.
      * rewrite (bind_eq _ _ _ _ _ E2). cbn beta iota.
        apply Hcont; [|exact D2|exact S2].
        rewrite N2, Hchild. reflexivity.
    + (* anything else is unlinked *)
      rewrite (bind_eq _ _ _ _ _ (unlink_step child w1 t1 content Hnode)).
      change (if negb (0 =? 0) then -1 else 0) with 0.
      apply Hcont.
      * cbn. rewrite Hchild. symmetry.
        apply (wf_file_leaf w (fst c) content Hwf); [lia|].
        rewrite Hlook. reflexivity.
      * reflexivity.
      * unfold same_handles. cbn. repeat split; lia.
Qed.

End Loop.

(** The children of a directory are fewer than the nodes at or below
    it, and so are the nodes at or below each child. *)
Lemma parent_differs (k : MemFs.key) : k <> [] -> MemFs.parent k <> k.
Proof.
  intros Hk E. pose proof (key_split k Hk) as H. rewrite E in H.
  apply (f_equal (@List.length string)) in H.
  rewrite length_app in H. cbn in H. lia.
Qed.

Lemma children_count (w : MemFs.t) (k : MemFs.key) (n : MemFs.node) :
  k <> [] -> In (k, n) (MemFs.nodes w) ->
  (List.length (children k (MemFs.nodes w)) < size_below k w)%nat.
Proof.
  intros Hk Hin. unfold children, size_below.
  apply (filter_length_lt _ _ _ (k, n)).
  - intros a _ Ha. apply key_eqb_eq in Ha. cbn beta.
    rewrite <- Ha. apply parent_prefix.
  - exact Hin.
  - cbn [fst]. destruct (MemFs.key_eqb (MemFs.parent k) k) eqn:E;
      [|reflexivity].
    apply key_eqb_eq in E. now apply parent_differs in E.
  - apply is_prefix_refl.
Qed.

Lemma child_size (w : MemFs.t) (k : MemFs.key) (n : MemFs.node)
    (c : MemFs.key * MemFs.node) :
  In (k, n) (MemFs.nodes w) -> fst c <> [] -> MemFs.parent (fst c) = k ->
  (size_below (fst c) w < size_below k w)%nat.
Proof.
  intros Hin Hc Hp. unfold size_below.
  apply (filter_length_lt _ _ _ (k, n)).
  - intros a _ Ha. cbn beta. rewrite <- Hp.
    apply (is_prefix_trans _ (fst c)); [apply parent_prefix | exact Ha].
  - exact Hin.
  - cbn [fst]. rewrite (key_split (fst c) Hc), Hp.
    apply is_prefix_child_parent.
  - apply is_prefix_refl.
Qed.

(** With every child gone, with all below it, what is left of the tree
    below [k] is [k]. *)
Lemma without_children (w : MemFs.t) (k : MemFs.key) :
  wf_tree w = true -> (2 <= List.length k)%nat ->
  MemFs.remove k
    (filter (fun e => negb (existsb (fun c => is_prefix (fst c) (fst e))
                          (children k (MemFs.nodes w))))
       (MemFs.nodes w))
  = without k (MemFs.nodes w).
Proof.
  intros Hwf Hk. unfold MemFs.remove, without. rewrite filter_filter.
  apply filter_ext_in. intros e Hin.
  destruct (is_prefix k (fst e)) eqn:Ep.
  - apply is_prefix_iff in Ep. destruct Ep as [[|x rest] He].
    + rewrite app_nil_r in He. rewrite He, key_eqb_refl.
      now rewrite andb_false_r.
    + assert (Hc : exists n, In (k ++ [x], n) (MemFs.nodes w)).
      { destruct rest as [|y rest].
        - exists (snd e). rewrite <- He. now destruct e.
        - exists MemFs.NDir. apply lookup_In.
          apply (wf_ancestor w Hwf rest e (k ++ [x]) y Hin).
          + rewrite He, <- app_assoc. reflexivity.
          + rewrite length_app. cbn. lia. }
      destruct Hc as [n Hc].
      assert (Hex : existsb (fun c => is_prefix (fst c) (fst e))
                      (children k (MemFs.nodes w)) = true).
      { apply existsb_exists. exists (k ++ [x], n). split.
        - unfold children. apply filter_In. split; [exact Hc|].
          cbn [fst]. rewrite parent_child. apply key_eqb_refl.
        - cbn [fst]. rewrite He.
          change (x :: rest) with ([x] ++ rest). rewrite app_assoc.
          apply is_prefix_app. }
      rewrite Hex. reflexivity.
  - assert (Hex : existsb (fun c => is_prefix (fst c) (fst e))
                    (children k (MemFs.nodes w)) = false).
    { destruct (existsb _ _) eqn:E; [|reflexivity].
      apply existsb_exists in E. destruct E as [c [Hc Hpre]].
      unfold children in Hc. apply filter_In in Hc.
      destruct Hc as [_ Hpc]. apply key_eqb_eq in Hpc.
      rewrite <- Hpc in Ep.
      rewrite (is_prefix_trans _ _ _ (parent_prefix (fst c)) Hpre) in Ep.
      discriminate. }
    rewrite Hex. cbn.
    destruct (MemFs.key_eqb k (fst e)) eqn:E; [|reflexivity].
    apply is_prefix_key_eqb in E. congruence.
Qed.

(** With fuel beyond the number of nodes at or below [q], the delete
    returns 0 and the tree has lost [q] and all below it. *)
Lemma remove_dir_recursive_impl_spec :
  forall (fuel : nat) (q : string) (w : MemFs.t) (t : list Event),
    wf_tree w = true -> streams_older w = true ->
    0 < MemFs.next_handle w ->
    (2 <= List.length (MemFs.resolve q))%nat ->
    MemFs.lookup (MemFs.resolve q) (MemFs.nodes w) <> None ->
    (size_below (MemFs.resolve q) w < fuel)%nat ->
    exists w' t',
      remove_dir_recursive_impl (P:=memfs ro unk na) fuel q (w, t)
      = (Some 0, (w', t')) /\
      MemFs.nodes w' = without (MemFs.resolve q) (MemFs.nodes w) /\
      MemFs.dirs w' = MemFs.dirs w /\
      same_handles w w'.
Proof.
  induction fuel as [|fuel IH]; intros q w t Hwf Hold Hnext Hk Hpres Hsize;
    [lia|].
  cbn [remove_dir_recursive_impl].
  destruct (MemFs.lookup (MemFs.resolve q) (MemFs.nodes w)) as [n|] eqn:El;
    [clear Hpres|congruence].
  assert (Hnode : MemFs.node_at (MemFs.resolve q) w = Some n)
    by (now rewrite node_at_long).
  rewrite (bind_eq _ _ _ _ _ (lstat_step q w t n Hnode)).
  cbn beta iota. change (negb (0 =? 0)) with false. cbn beta iota.
  destruct n as [|content].
  - rewrite (proj1 S_ISDIR_modes). cbn [negb]. cbn beta iota.
    rewrite (bind_eq _ _ _ _ _ (opendir_step q w _ Hnode)).
    rewrite (proj2 (Z.eqb_neq (MemFs.next_handle w) 0)) by lia.
    set (h := MemFs.next_handle w).
    set (w1 := MemFs.with_dirs _ _).
    pose proof (lookup_In _ _ _ El) as Hin.
    assert (Hne : MemFs.resolve q <> [])
      by (destruct (MemFs.resolve q); [cbn in Hk; lia | discriminate]).
    destruct (remove_children_deletes (remove_dir_recursive_impl fuel) fuel
                q Hk IH h (MemFs.dirs w) Hold ltac:(unfold h; lia)
                (children (MemFs.resolve q) (MemFs.nodes w)) fuel w1
                ((t ++ [Ev (lstat q)]) ++ [Ev (opendir q)]))
      as [w3 [t3 [E3 [N3 [D3 S3]]]]].
    + pose proof (children_count w _ _ Hne Hin). lia.
    + exact Hwf.
    + unfold w1. cbn. now rewrite entries_of_children.
    + unfold w1, h. cbn. lia.
    + apply distinct_filter. now apply wf_distinct.
    + intros e He. unfold children in He. apply filter_In in He.
      destruct He as [He Hp]. apply key_eqb_eq in Hp.
      split; [exact He|]. split; [exact Hp|].
      assert (Hce : fst e <> []).
      { destruct (wf_node w e Hwf He) as [Hl _].
        destruct (fst e); [cbn in Hl; lia | discriminate]. }
      pose proof (child_size w _ _ e Hin Hce Hp).
      change (size_below (fst e) w1) with (size_below (fst e) w). lia.
    + rewrite (bind_eq _ _ _ _ _ E3). cbn beta iota.
      rewrite (bind_eq _ _ _ _ _ (closedir_step h w3 t3)).
      change (0 =? 0) with true. cbn beta iota.
      set (w4 := MemFs.with_dirs w3 (MemFs.zremove h (MemFs.dirs w3))).
      assert (N4 : MemFs.nodes w4
                   = filter (fun e => negb (existsb
                        (fun c => is_prefix (fst c) (fst e))
                        (children (MemFs.resolve q) (MemFs.nodes w))))
                       (MemFs.nodes w)) by exact N3.
      assert (L4 : MemFs.lookup (MemFs.resolve q) (MemFs.nodes w4)
                   = Some MemFs.NDir).
      { rewrite N4.
        rewrite (lookup_filter (fun k0 => negb (existsb
                   (fun c => is_prefix (fst c) k0)
                   (children (MemFs.resolve q) (MemFs.nodes w))))).
        - exact El.
        - apply negb_true_iff.
          destruct (existsb _ _) eqn:E; [|reflexivity].
          apply existsb_exists in E. destruct E as [c [Hc Hpre]].
          unfold children in Hc. apply filter_In in Hc.
          destruct Hc as [Hc Hpc]. apply key_eqb_eq in Hpc.
          assert (Hce : fst c <> []).
          { destruct (wf_node w c Hwf Hc) as [Hl _].
            destruct (fst c); [cbn in Hl; lia | discriminate]. }
          rewrite (key_split (fst c) Hce), Hpc in Hpre.
          now rewrite is_prefix_child_parent in Hpre. }
      assert (C4 : MemFs.has_children (MemFs.resolve q) w4 = false).
      { unfold MemFs.has_children. rewrite N4.
        destruct (existsb _ _) eqn:E; [|reflexivity].
        apply existsb_exists in E. destruct E as [e [He Hp]].
        apply filter_In in He. destruct He as [He Hkeep].
        apply negb_true_iff in Hkeep.
        assert (Hex : existsb (fun c => is_prefix (fst c) (fst e))
                        (children (MemFs.resolve q) (MemFs.nodes w)) = true).
        { apply existsb_exists. exists e. split.
          - unfold children. apply filter_In. now split.
          - apply is_prefix_refl. }
        exact (eq_trans (eq_sym Hex) Hkeep). }
      rewrite (bind_eq _ _ _ _ _ (rmdir_step q w4 _ L4 C4)).
      change (negb (0 =? 0)) with false. cbn beta iota.
      eexists. eexists. split; [reflexivity|].
      split; [|split].
      * cbn [MemFs.nodes MemFs.with_nodes]. rewrite N4.
        apply (without_children w _ Hwf Hk).
      * cbn. rewrite D3. cbn. rewrite Z.eqb_refl. cbn.
        apply (zremove_older h _ Hold).
      * apply (same_handles_trans w w1 _).
        -- unfold same_handles, w1. cbn. repeat split; lia.
        -- destruct S3 as [S1 [S2 [S3 [S4 [S5 S6]]]]].
           unfold same_handles. cbn. repeat split; assumption.
  - rewrite (proj2 S_ISDIR_modes). cbn [negb]. cbn beta iota.
    rewrite (bind_eq _ _ _ _ _ (unlink_step q w _ content Hnode)).
    change (negb (0 =? 0)) with false. cbn beta iota.
    eexists. eexists. split; [reflexivity|].
    split; [|split].
    + cbn. symmetry. apply (wf_file_leaf w _ content Hwf Hk El).
    + reflexivity.
    + unfold same_handles. cbn. repeat split; lia.
Qed.

End DeleteTree.

(** X21. On a well-formed tree, deleting a path that exists below a
    device root, with fuel beyond the number of nodes at or below it and
    the read-only check passed, succeeds: [DeleteDirectoryRecursively]
    on the libc backend returns 0, as does its helper, and the tree is
    the old one without the node and everything below it, in the old
    order.  The open directory streams, descriptors and file streams are
    as before, no error is remembered, and the tree is still
    well-formed.  This holds whether or not [readdir] reports entry
    types. *)
Theorem DeleteDirectoryRecursively_stdio_deletes (ro unk na : Result)
    {DL : DenyLists} (fuel : nat) (path : string) (ign : bool)
    (w : MemFs.t) (t : list Event) :
  wf_tree w = true -> streams_older w = true ->
  0 < MemFs.next_handle w ->
  (2 <= List.length (MemFs.resolve path))%nat ->
  present (MemFs.resolve path) w = true ->
  (size_below (MemFs.resolve path) w < fuel)%nat ->
  ign || negb (is_read_only path) = true ->
  exists w' t',
    DeleteDirectoryRecursively_stdio (P:=memfs ro unk na) fuel path ign (w, t)
    = (Some 0, (w', t')) /\
    remove_dir_recursive_impl (P:=memfs ro unk na) fuel path (w, t)
    = (Some 0, (w', t')) /\
    MemFs.nodes w' = without (MemFs.resolve path) (MemFs.nodes w) /\
    MemFs.dirs w' = MemFs.dirs w /\
    same_handles w w' /\
    wf_tree w' = true /\ streams_older w' = true.
Proof.
  intros Hwf Hold Hnext Hk Hpres Hsize Hpol.
  assert (Hl : MemFs.lookup (MemFs.resolve path) (MemFs.nodes w) <> None).
  { unfold present in Hpres. rewrite node_at_long in Hpres by exact Hk.
    destruct (MemFs.lookup _ _); [discriminate|discriminate Hpres]. }
  destruct (remove_dir_recursive_impl_spec ro unk na fuel path w t
              Hwf Hold Hnext Hk Hl Hsize) as [w' [t' [E [N [D S]]]]].
  exists w', t'. unfold DeleteDirectoryRecursively_stdio.
  rewrite Hpol, (bind_eq _ _ _ _ _ E). cbn beta iota.
  change (negb (0 =? 0)) with false. cbn beta iota.
  split; [reflexivity|]. split; [exact E|]. split; [exact N|].
  split; [exact D|]. split; [exact S|]. split.
  - apply (wf_without w w' _ Hwf N).
  - unfold streams_older. rewrite D.
    apply (older_weaken (MemFs.next_handle w) _ _ Hold).
    now destruct S as [_ [_ [_ [_ [_ S6]]]]].
Qed.

Lemma DeleteDirectoryRecursively_stdio_deletes_witness :
  exists w' t',
    DeleteDirectoryRecursively_stdio (P:=sample) 4 "/d" false
      (untyped_listing_world, [])
    = (Some 0, (w', t')) /\
    remove_dir_recursive_impl (P:=sample) 4 "/d" (untyped_listing_world, [])
    = (Some 0, (w', t')) /\
    MemFs.nodes w'
    = without (MemFs.resolve "/d") (MemFs.nodes untyped_listing_world) /\
    MemFs.dirs w' = MemFs.dirs untyped_listing_world /\
    same_handles untyped_listing_world w' /\
    wf_tree w' = true /\ streams_older w' = true.
Proof.
  apply (DeleteDirectoryRecursively_stdio_deletes 0x10001 0x10002 0x10003
           4 "/d" false untyped_listing_world []).
  - reflexivity.
  - reflexivity.
  - vm_compute. reflexivity.
  - vm_compute. lia.
  - reflexivity.
  - vm_compute. lia.
  - reflexivity.
Defined.

(* ================================================================== *)
(** * The operations once they are let through *)

Section LetThroughProperties.
Context {P : Platform} {DL : DenyLists}.

(** A computation that starts with a call records it first. *)
Lemma call_then {A B} (c : Call A) (k : A -> M B) :
  (forall a, traces (fun _ => true) (k a)) ->
  forall s, exists evs, snd (snd (bind (call c) k s)) = snd s ++ Ev c :: evs.
Proof.
  intros Hk s. unfold bind, call. destruct (exec c (fst s)) as [a w1].
  destruct (Hk a (w1, snd s ++ [Ev c])) as [evs [H _]].
  exists evs. rewrite H. cbn [snd]. now rewrite <- app_assoc.
Qed.

Lemma then_any {A B} (e : Event) (m : M A) (k : A -> M B) :
  (forall s, exists evs, snd (snd (m s)) = snd s ++ e :: evs) ->
  (forall a, traces (fun _ => true) (k a)) ->
  forall s, exists evs, snd (snd (bind m k s)) = snd s ++ e :: evs.
Proof.
  intros Hm Hk s. unfold bind. destruct (Hm s) as [e1 H1].
  destruct (m s) as [a s1]. cbn [snd] in H1.
  destruct (Hk a s1) as [e2 [H2 _]].
  exists (e1 ++ e2). rewrite H2, H1, <- app_assoc. reflexivity.
Qed.

Ltac any_trace :=
  repeat first
    [ apply traces_ret
    | apply traces_call; reflexivity
    | apply traces_bind; [|intros]
    | assumption
    | progress unfold R_TRY, R_UNLESS, R_SUCCEED, fsdev_error, leave, closing,
        some, Fs_Commit
    | match goal with
      | |- traces _ (if ?b then _ else _) => destruct b
      | |- traces _ (match ?x with _ => _ end) => destruct x
      end ].

Lemma CreateDirectory_either_any fs path ign :
  traces (fun _ => true) (CreateDirectory_either fs path ign).
Proof.
  unfold CreateDirectory_either, CreateDirectory_native, CreateDirectory_stdio.
  any_trace.
Qed.

Lemma CreateDirectoryRecursively_loop_any fs ign dirs :
  forall path,
    traces (fun _ => true) (CreateDirectoryRecursively_loop fs ign path dirs).
Proof.
  induction dirs as [|dir dirs IH]; intros path;
    cbn [CreateDirectoryRecursively_loop].
  - any_trace.
  - destruct (is_empty dir); [apply IH|].
    apply traces_bind; [apply CreateDirectory_either_any|].
    intros rc. destruct (_ && _); [apply traces_ret | apply IH].
Qed.

Lemma CreateDirectoryRecursively_native_any fs path ign :
  traces (fun _ => true) (CreateDirectoryRecursively_native fs path ign).
Proof.
  unfold CreateDirectoryRecursively_native, R_UNLESS.
  destruct (_ || _); [|apply traces_ret].
  apply traces_bind; [apply CreateDirectory_either_any|].
  intros rc. destruct (_ || _); [apply traces_ret|].
  destruct (walk_start path). apply CreateDirectoryRecursively_loop_any.
Qed.

Lemma CreateFile_any fs path size option :
  traces (fun _ => true) (Fs_CreateFile fs path size option).
Proof.
  unfold Fs_CreateFile, CreateFile_native, CreateFile_stdio. any_trace.
Qed.

Lemma OpenFile_any fs path mode f :
  traces (fun _ => true) (OpenFile fs path mode f).
Proof. unfold OpenFile. any_trace. Qed.

Lemma File_Read_any f off n option :
  traces (fun _ => true) (File_Read f off n option).
Proof. unfold File_Read. any_trace. Qed.

Lemma File_Write_any f off buf option :
  traces (fun _ => true) (File_Write f off buf option).
Proof. unfold File_Write. any_trace. Qed.

Lemma File_SetSize_any f n : traces (fun _ => true) (File_SetSize f n).
Proof. unfold File_SetSize. any_trace. Qed.

Lemma File_GetSize_any f : traces (fun _ => true) (File_GetSize f).
Proof. unfold File_GetSize. any_trace. Qed.

Lemma File_Close_any f : traces (fun _ => true) (File_Close f).
Proof. unfold File_Close. any_trace. Qed.

Lemma read_entire_file_stdio_any path out :
  traces (fun _ => true) (read_entire_file_stdio path out).
Proof. unfold read_entire_file_stdio. any_trace. Qed.

Lemma write_entire_file_stdio_any path input ign :
  traces (fun _ => true) (write_entire_file_stdio path input ign).
Proof. unfold write_entire_file_stdio. any_trace. Qed.


Ltac file_trace :=
  repeat first
    [ apply OpenFile_any | apply File_Read_any | apply File_Write_any
    | apply File_SetSize_any | apply File_GetSize_any | apply File_Close_any
    | apply CreateFile_any
    | apply traces_ret
    | apply traces_bind; [|intros]
    | progress unfold leave
    | match goal with
      | |- traces _ (if ?b then _ else _) => destruct b
      | |- traces _ (match ?x with _ => _ end) => destruct x
      end ].

Lemma read_entire_file_native_any fs path out :
  traces (fun _ => true) (read_entire_file_native fs path out).
Proof. unfold read_entire_file_native. file_trace. Qed.

Lemma write_entire_file_native_any fs path input ign :
  traces (fun _ => true) (write_entire_file_native fs path input ign).
Proof. unfold write_entire_file_native, R_UNLESS. file_trace. Qed.

Lemma remove_dir_recursive_impl_any fuel path :
  traces (fun _ => true) (remove_dir_recursive_impl fuel path).
Proof.
  apply (traces_weaken (within path)); [reflexivity|].
  apply remove_dir_recursive_impl_within.
Qed.

Lemma last_error_spec (s : State) :
  fsdev_error s = last_error s.
Proof.
  unfold fsdev_error, last_error, R_TRY, bind, call, ret.
  destruct (exec fsdevGetLastResult (fst s)) as [rc w].
  now destruct (R_FAILED rc).
Qed.

Lemma service_answer (fs : FsFileSystem) (c : Call Result) (s : State) :
  some (R_TRY (call c) (call (fsFsCommit fs) ;;; R_SUCCEED)) s
  = (Some (fst (answer (Service fs c) s)), snd (answer (Service fs c) s)).
Proof.
  unfold some, R_TRY, R_SUCCEED, bind, call, ret, answer.
  destruct (exec c (fst s)) as [rc w1].
  destruct (R_FAILED rc); cbn [fst snd]; [reflexivity|].
  now destruct (exec (fsFsCommit fs) w1).
Qed.

Lemma libc_answer (c : Call Z) (s : State) :
  some (r <- call c ;; if negb (r =? 0) then fsdev_error else R_SUCCEED) s
  = (Some (fst (answer (Libc c) s)), snd (answer (Libc c) s)).
Proof.
  unfold some, bind at 1 2. unfold call at 1. unfold answer.
  destruct (exec c (fst s)) as [r w1].
  destruct (r =? 0); cbn [negb fst snd]; [reflexivity|].
  rewrite last_error_spec. now destruct (last_error _).
Qed.

Lemma mkdir_answer (path : string) (s : State) :
  some ('(r, errno) <- call (mkdir path ACCESSPERMS) ;;
        if negb (r =? 0) then
          if errno =? EEXIST then ret FsError_PathAlreadyExists
          else fsdev_error
        else R_SUCCEED) s
  = (Some (fst (answer (Mkdir path) s)), snd (answer (Mkdir path) s)).
Proof.
  unfold some, bind at 1 2. unfold call at 1. unfold answer. cbv zeta.
  destruct (exec (mkdir path ACCESSPERMS) (fst s)) as [[r errno] w1].
  destruct (r =? 0); cbn [negb fst snd]; [reflexivity|].
  destruct (errno =? EEXIST); [reflexivity|].
  rewrite last_error_spec. now destruct (last_error _).
Qed.

Lemma creat_answer (path : string) (size option : Z) (s : State) :
  some (CreateFile_stdio path size option true) s
  = (Some (fst (answer (Creat path size) s)), snd (answer (Creat path size) s)).
Proof.
  unfold CreateFile_stdio, R_UNLESS. cbn [orb].
  unfold some, bind at 1 2. unfold call at 1. unfold answer. cbv zeta.
  destruct (exec (open path (Z.lor O_WRONLY O_CREAT) DEFFILEMODE) (fst s))
    as [[fd errno] w1].
  destruct (fd =? -1).
  - destruct (errno =? EEXIST); [reflexivity|].
    rewrite last_error_spec. now destruct (last_error _).
  - destruct (size =? 0); cbn [negb].
    + unfold bind, call, R_SUCCEED, ret. cbn [fst snd].
      now destruct (exec (close fd) w1).
    + unfold bind, call, R_SUCCEED, ret. cbn [fst snd].
      destruct (exec (ftruncate fd size) w1) as [r w2]. cbn [fst snd].
      destruct (exec (close fd) w2). cbn [fst snd].
      now destruct (r =? 0).
Qed.

(** With the override, what an operation of one backend call returns and
    leaves behind is what [answer] makes of the backend's answer. *)
Lemma perform_answer (op : MutatingOp) (k : OneCall) (s : State) :
  one_call op = Some k ->
  perform op true s = (Some (fst (answer k s)), snd (answer k s)).
Proof.
  destruct op as [b ? ? ?|b ?|b ?|b ?|b ?|b ?|b ? ?|b ? ?|b ? ?|b ? ?|b ? ?];
    destruct b; cbn [one_call]; intros H; inversion H; subst; clear H;
    first [ exact (service_answer _ _ s)
          | exact (libc_answer _ s)
          | exact (mkdir_answer _ s)
          | exact (creat_answer _ _ _ s) ].
Qed.

Lemma call_alone {A} (c : Call A) :
  forall s, exists evs, snd (snd (call c s)) = snd s ++ Ev c :: evs.
Proof.
  intros s. exists []. unfold call. now destruct (exec c (fst s)).
Qed.

Ltac to_entry :=
  repeat first
    [ apply call_alone
    | apply call_then; intros
    | apply then_any; [|intros] ].

Ltac rest_trace :=
  first
    [ apply CreateDirectoryRecursively_loop_any
    | apply CreateDirectory_either_any
    | apply CreateDirectoryRecursively_native_any
    | apply remove_dir_recursive_impl_any
    | apply read_entire_file_native_any
    | apply read_entire_file_stdio_any
    | apply write_entire_file_native_any
    | apply write_entire_file_stdio_any
    | apply remove_children_within ].

(** With the override, the first thing an operation does is its entry
    call; where it has none it does nothing. *)
Lemma perform_entry (op : MutatingOp) (s : State) :
  match entry_call op with
  | Some e => exists evs, snd (snd (perform op true s)) = snd s ++ e :: evs
  | None => snd (perform op true s) = s
  end.
Proof.
  destruct op as [b ? ? ?|b ?|b ?|b ?|b ?|b ?|b fuel ?|b ? ?|b ? ?|b ? ?|b ? ?];
    destruct b as [fs|]; cbn [entry_call perform create_directory_call].
  - (* CreateFile, native *)
    unfold some, CreateFile_native, R_UNLESS, R_TRY, create_option.
    cbn [orb]. cbv zeta. to_entry; any_trace.
  - unfold some, CreateFile_stdio, R_UNLESS. cbn [orb].
    to_entry; any_trace.
  - unfold some, CreateDirectory_native, R_UNLESS, R_TRY. cbn [orb].
    to_entry; any_trace.
  - unfold some, CreateDirectory_stdio, R_UNLESS. cbn [orb].
    to_entry; any_trace.
  - (* CreateDirectoryRecursively *)
    unfold some, CreateDirectoryRecursively_native, R_UNLESS,
      CreateDirectory_either, CreateDirectory_native, R_TRY.
    cbn [orb]. to_entry; any_trace.
    destruct (walk_start path). apply CreateDirectoryRecursively_loop_any.
  - unfold some, CreateDirectoryRecursively_stdio,
      CreateDirectoryRecursively_native, R_UNLESS,
      CreateDirectory_either, CreateDirectory_stdio.
    cbn [orb]. to_entry; any_trace.
    destruct (walk_start path). apply CreateDirectoryRecursively_loop_any.
  - (* CreateDirectoryRecursivelyWithPath *)
    unfold some, CreateDirectoryRecursivelyWithPath_native, R_UNLESS.
    cbn [orb]. destruct (strrchr path slash) as [i|]; [|reflexivity].
    unfold R_TRY, CreateDirectoryRecursively_native, R_UNLESS,
      CreateDirectory_either, CreateDirectory_native, R_TRY.
    cbn [orb]. to_entry; any_trace.
    destruct (walk_start (take i path)).
    apply CreateDirectoryRecursively_loop_any.
  - unfold some, CreateDirectoryRecursivelyWithPath_stdio,
      CreateDirectoryRecursivelyWithPath_native, R_UNLESS.
    cbn [orb]. destruct (strrchr path slash) as [i|]; [|reflexivity].
    unfold R_TRY, CreateDirectoryRecursively_native, R_UNLESS,
      CreateDirectory_either, CreateDirectory_stdio.
    cbn [orb]. to_entry; any_trace.
    destruct (walk_start (take i path)).
    apply CreateDirectoryRecursively_loop_any.
  - (* DeleteFile *)
    unfold some, DeleteFile_native, R_UNLESS, R_TRY. cbn [orb].
    to_entry; any_trace.
  - unfold some, DeleteFile_stdio, R_UNLESS. cbn [orb].
    to_entry; any_trace.
  - (* DeleteDirectory *)
    unfold some, DeleteDirectory_native, R_UNLESS, R_TRY. cbn [orb].
    to_entry; any_trace.
  - unfold some, DeleteDirectory_stdio, R_UNLESS. cbn [orb].
    to_entry; any_trace.
  - (* DeleteDirectoryRecursively *)
    unfold some, DeleteDirectoryRecursively_native, R_UNLESS, R_TRY.
    cbn [orb]. to_entry; any_trace.
  - unfold DeleteDirectoryRecursively_stdio. cbn [orb].
    destruct fuel as [|fuel]; [reflexivity|].
    cbn [remove_dir_recursive_impl]. to_entry; any_trace.
    + apply (traces_weaken (within path)); [reflexivity|].
      apply remove_children_within. intros child _.
      apply remove_dir_recursive_impl_within.
  - (* RenameFile *)
    unfold some, RenameFile_native, R_UNLESS, R_TRY. cbn [orb].
    to_entry; any_trace.
  - unfold some, RenameFile_stdio, R_UNLESS. cbn [orb].
    to_entry; any_trace.
  - (* RenameDirectory *)
    unfold some, RenameDirectory_native, R_UNLESS, R_TRY. cbn [orb].
    to_entry; any_trace.
  - unfold some, RenameDirectory_stdio, RenameFile_stdio, R_UNLESS.
    cbn [orb]. to_entry; any_trace.
  - (* write_entire_file *)
    unfold some, write_entire_file_native, R_UNLESS. cbn [orb]. cbv zeta.
    destruct (R_FAILED (GetFsOpenResult fs)); [reflexivity|].
    unfold Fs_CreateFile, CreateFile_native, R_UNLESS, R_TRY, create_option.
    cbn [orb]. cbv zeta. to_entry; any_trace; file_trace.
  - unfold some, write_entire_file_stdio, R_UNLESS. cbn [orb].
    to_entry; any_trace.
  - (* copy_entire_file *)
    unfold some, copy_entire_file_native, R_UNLESS. cbn [orb].
    unfold read_entire_file_native. cbv zeta.
    destruct (R_FAILED (GetFsOpenResult fs)) eqn:E.
    + unfold bind, ret. now rewrite E.
    + unfold OpenFile at 1. cbv beta iota zeta.
      to_entry; any_trace; file_trace;
        apply write_entire_file_native_any.
  - unfold some, copy_entire_file_stdio, R_UNLESS. cbn [orb].
    unfold read_entire_file_stdio.
    to_entry; any_trace; apply write_entire_file_stdio_any.
Qed.
End LetThroughProperties.

(** C1.  For every mutating operation, on either backend.  When the
    override flag is unset and the read-only predicate the operation
    applies holds, the operation returns [Result_FsReadOnly] and performs
    no I/O: no call is made (the trace is unchanged) and the world is
    unchanged.  When the override flag is set the policy is not
    consulted and the backend decides: the run is the same whatever the
    deny-lists are; the operation's entry call is made on the backend
    before anything else, and where the operation has none (a path
    without a slash given to [CreateDirectoryRecursivelyWithPath], a
    native file system that failed to open, no fuel) nothing is done;
    and for the operations that are one backend call, the creating,
    deleting and renaming of a file or directory, the result and the
    state afterwards are what [answer] makes of the backend's answer:
    the service's code, or 0 after a commit; 0 or the last error of
    libc. *)
Theorem C1_read_only_policy (P : Platform) :
  (forall (DL : DenyLists) (op : MutatingOp) (s : State),
      violates op = true ->
      perform op false s = (Some Result_FsReadOnly, s)) /\
  (forall (DL1 DL2 : DenyLists) (op : MutatingOp) (s : State),
      perform (DL:=DL1) op true s = perform (DL:=DL2) op true s) /\
  (forall (DL : DenyLists) (op : MutatingOp) (s : State),
      match entry_call op with
      | Some e =>
          exists evs, snd (snd (perform op true s)) = snd s ++ e :: evs
      | None => snd (perform op true s) = s
      end) /\
  (forall (DL : DenyLists) (op : MutatingOp) (k : OneCall) (s : State),
      one_call op = Some k ->
      perform op true s = (Some (fst (answer k s)), snd (answer k s))).
Proof.
  split; [|split; [|split]].
  - intros DL op s. apply perform_violation.
  - intros DL1 DL2 op s. apply perform_override.
  - intros DL op s. apply perform_entry.
  - intros DL op k s. apply perform_answer.
Qed.

Lemma C1_read_only_policy_witness :
  violates (OpDeleteFile Stdio "/switch/prod.keys") = true /\
  perform (P:=sample) (OpDeleteFile Stdio "/switch/prod.keys") false
    (keys_world, [])
  = (Some (@Result_FsReadOnly sample), (keys_world, [])) /\
  one_call (OpDeleteFile Stdio "/switch/prod.keys")
  = Some (Libc (unlink "/switch/prod.keys")) /\
  perform (P:=sample) (OpDeleteFile Stdio "/switch/prod.keys") true
    (keys_world, [])
  = (Some 0,
     (MemFs.with_nodes keys_world [(["" ; "switch"]%string, MemFs.NDir)],
      [Ev (unlink "/switch/prod.keys")])).
Proof.
  split; [reflexivity|]. split.
  - apply (proj1 (C1_read_only_policy sample)). reflexivity.
  - split; [reflexivity|].
    etransitivity.
    + apply (proj2 (proj2 (proj2 (C1_read_only_policy sample)))).
      reflexivity.
    + vm_compute. reflexivity.
Defined.
